(** * CombatCommander: squad allocation of the Steamhammer/Locutus combat AI

    A shallow embedding of [Steamhammer/Source/CombatCommander.cpp].  The
    commander keeps a registry of named squads, and on every frame
    re-derives which combat unit belongs to which squad and which order each
    squad holds.  The C++ member functions become functions in a
    state-and-error monad over the commander's fields; everything the
    commander reads from BWAPI, BWTA and the other managers is an input: the
    static tables in the class [Game], the per-frame observations in the
    record [World]. *)

From Stdlib Require Import ZArith QArith Qround.
From stdpp Require Import base option list sorting gmap sets strings pretty.

Local Open Scope Z_scope.

(** ** BWAPI data *)

(** [BWAPI::Unit] is a pointer to a unit; a [std::set] of them
    ([BWAPI::Unitset]) is walked in address order. *)
Definition Unit : Type := nat.

Definition in_order (us : gset nat) : list nat := merge_sort le (elements us).

(** The unit types the commander names, and a few it only meets through
    their properties. *)
Inductive UnitType : Type :=
  | Terran_Marine | Terran_Medic | Terran_Vulture
  | Terran_Siege_Tank_Tank_Mode | Terran_Siege_Tank_Siege_Mode
  | Terran_Wraith | Terran_Valkyrie | Terran_Battlecruiser
  | Terran_Missile_Turret | Terran_SCV | Terran_Dropship
  | Terran_Science_Vessel | Terran_Command_Center
  | Zerg_Zergling | Zerg_Hydralisk | Zerg_Mutalisk | Zerg_Scourge
  | Zerg_Devourer | Zerg_Overlord | Zerg_Spore_Colony | Zerg_Sunken_Colony
  | Zerg_Lurker | Zerg_Guardian | Zerg_Larva | Zerg_Drone | Zerg_Hatchery
  | Protoss_Zealot | Protoss_Dragoon | Protoss_Dark_Templar
  | Protoss_Corsair | Protoss_Scout | Protoss_Carrier | Protoss_Observer
  | Protoss_Photon_Cannon | Protoss_Probe | Protoss_Reaver
  | Protoss_High_Templar | Protoss_Shuttle | Protoss_Nexus.

#[global] Instance UnitType_eq_dec : EqDecision UnitType.
Proof. solve_decision. Defined.

Definition type_eqb (a b : UnitType) : bool := bool_decide (a = b).

Inductive Race : Type := Terran | Zerg | Protoss | Race_Unknown.

#[global] Instance Race_eq_dec : EqDecision Race.
Proof. solve_decision. Defined.

Inductive Player : Type := Player_self | Player_enemy | Player_neutral.

#[global] Instance Player_eq_dec : EqDecision Player.
Proof. solve_decision. Defined.

Record Position : Type := mkPosition { pos_x : Z; pos_y : Z }.

#[global] Instance Position_eq_dec : EqDecision Position.
Proof. solve_decision. Defined.

Record TilePosition : Type := mkTile { tile_x : Z; tile_y : Z }.

#[global] Instance TilePosition_eq_dec : EqDecision TilePosition.
Proof. solve_decision. Defined.

(** [BWAPI::TilePosition(p)] and [BWAPI::Position(t)]: a tile is 32 pixels. *)
Definition TilePosition_of (p : Position) : TilePosition :=
  mkTile (Z.quot (pos_x p) 32) (Z.quot (pos_y p) 32).

Definition Position_of (t : TilePosition) : Position :=
  mkPosition (tile_x t * 32) (tile_y t * 32).

(** [Position::getDistance] is the Euclidean distance as a double; on
    integer coordinates [a.getDistance(b) < r] holds exactly when the squared
    distance is below [r * r]. *)
Definition distance_lt (a b : Position) (r : Z) : bool :=
  (pos_x a - pos_x b) * (pos_x a - pos_x b)
  + (pos_y a - pos_y b) * (pos_y a - pos_y b) <? r * r.

(** [BWTA::Region *] and [BWTA::BaseLocation *]. *)
Definition Region : Type := nat.
Definition BaseLocation : Type := nat.

(** [UnitInfo]: what the information manager remembers of an enemy unit. *)
Record UnitInfo : Type := mkUnitInfo {
  ui_type : UnitType;
  ui_lastPosition : Position;
  ui_goneFromLastPosition : bool
}.

(** The tables of the game library and the configuration: fixed for a whole
    game, declared outside this file. *)
Class Game : Type := {
  isWorker : UnitType -> bool;
  isDetector : UnitType -> bool;
  isBuilding : UnitType -> bool;
  spaceProvided : UnitType -> Z;
  spaceRequired : UnitType -> Z;
  getID : UnitType -> Z;
  maxHitPoints : UnitType -> Z;
  maxShields : UnitType -> Z;
  TypeCanAttackGround : UnitType -> bool;
  TypeCanAttackAir : UnitType -> bool;
  Positions_Invalid : Position;
  isValid : Position -> bool;
  Config_Micro_ScoutDefenseRadius : Z;
  Config_Micro_WorkersDefendRush : bool;
  Config_Micro_CombatRegroupRadius : Z
}.

(** ** Squads and orders *)

Inductive SquadOrderTypes : Type :=
  | SquadOrder_None | SquadOrder_Idle | SquadOrder_Attack | SquadOrder_Defend
  | SquadOrder_Hold | SquadOrder_HoldWall | SquadOrder_Load | SquadOrder_Drop.

#[global] Instance SquadOrderTypes_eq_dec : EqDecision SquadOrderTypes.
Proof. solve_decision. Defined.

Record SquadOrder : Type := mkSquadOrder {
  order_type : SquadOrderTypes;
  order_position : Position;
  order_radius : Z;
  order_status : string
}.

(** A squad, without its name: the registry keys squads by name. *)
Record Squad : Type := mkSquad {
  squad_order : SquadOrder;
  squad_priority : nat;
  squad_units : gset Unit;
  squad_combatSimRadius : Z;
  squad_fightVisible : bool
}.

(** [Squad(name, order, priority)]: a new squad has no units. *)
Definition newSquad `{Game} (o : SquadOrder) (p : nat) : Squad :=
  mkSquad o p ∅ Config_Micro_CombatRegroupRadius false.

Definition with_units (f : gset Unit -> gset Unit) (s : Squad) : Squad :=
  mkSquad (squad_order s) (squad_priority s) (f (squad_units s))
          (squad_combatSimRadius s) (squad_fightVisible s).

Definition with_order (o : SquadOrder) (s : Squad) : Squad :=
  mkSquad o (squad_priority s) (squad_units s)
          (squad_combatSimRadius s) (squad_fightVisible s).

Definition with_combatSimRadius (r : Z) (s : Squad) : Squad :=
  mkSquad (squad_order s) (squad_priority s) (squad_units s) r
          (squad_fightVisible s).

Definition with_fightVisible (b : bool) (s : Squad) : Squad :=
  mkSquad (squad_order s) (squad_priority s) (squad_units s)
          (squad_combatSimRadius s) b.

(** Squad priorities: which can steal units from others. *)
Definition IdlePriority : nat := 0.
Definition AttackPriority : nat := 1.
Definition ReconPriority : nat := 2.
Definition BaseDefensePriority : nat := 3.
Definition ScoutDefensePriority : nat := 4.
Definition DropPriority : nat := 5.

Definition AttackRadius : Z := 800.
Definition DefensivePositionRadius : Z := 400.
Definition ReconTargetTimeout : Z := 40 * 24.
Definition ReconRadius : Z := 400.

(** ** The world of one frame *)

(** Everything [update] reads during one frame from BWAPI, BWTA, the
    information manager, the map tools and the other managers. *)
Record World : Type := mkWorld {
  getFrameCount : Z;
  combatUnits : gset Unit;
  getType : Unit -> UnitType;
  unit_exists : Unit -> bool;
  isFlying : Unit -> bool;
  isLoaded : Unit -> bool;
  isLifted : Unit -> bool;
  isAttacking : Unit -> bool;
  isCompleted : Unit -> bool;
  isPowered : Unit -> bool;
  isDetected : Unit -> bool;
  getPosition : Unit -> Position;
  getDistance : Unit -> Position -> Z;
  CanAttackAir : Unit -> bool;
  CanAttackGround : Unit -> bool;
  enemy_getUnits : gset Unit;
  self_getUnits : gset Unit;
  enemy_getRace : Race;
  self_getStartLocation : TilePosition;
  getRegion : TilePosition -> option Region;
  getRegion_at : Position -> option Region;
  getRegions : gset Region;
  region_getCenter : Region -> Position;
  getOccupiedRegions : gset Region;
  getBaseLocations : gset BaseLocation;
  base_getPosition : BaseLocation -> Position;
  base_getTilePosition : BaseLocation -> TilePosition;
  getBaseOwner : BaseLocation -> Player;
  getEnemyMainBaseLocation : option BaseLocation;
  getMyMainBaseLocation : BaseLocation;
  getMyNaturalLocation : option BaseLocation;
  getNearbyForce : Position -> list UnitInfo;
  getUnitInfo : list (Unit * UnitInfo);
  getGroundTileDistance : Position -> Position -> Z;
  getLeastExplored : bool -> Position;
  isVisible : Z -> Z -> bool;
  MapGrid_getUnits : Position -> Z -> gset Unit;
  Random_next : nat;
  wall_exists : bool;
  wall_gapCenter : Position;
  dropIsPlanned : bool;
  weHaveCombatUnits : bool;
  IsValidUnit : Unit -> bool;
  getHitPoints : Unit -> Z;
  getShields : Unit -> Z;
  isCarryingGas : Unit -> bool;
  isCarryingMinerals : Unit -> bool;
  WorkerManager_isFree : Unit -> bool;
  squad_hasDetector : string -> gset Unit -> bool;
  squad_hasCombatUnits : string -> gset Unit -> bool;
  squad_hasGround : string -> gset Unit -> bool;
  squad_hasAir : string -> gset Unit -> bool;
  squad_canAttackAir : string -> gset Unit -> bool;
  squad_canAttackGround : string -> gset Unit -> bool
}.

(** ** The commander's state and its monad *)

Record CombatCommander : Type := mkCombatCommander {
  _squadData : gmap string Squad;
  _combatUnits : gset Unit;
  _initialized : bool;
  _goAggressive : bool;
  _reconTarget : Position;
  _lastReconTargetChange : Z;
  _enemyWorkerAttackedAt : Z
}.

Definition set_squadData (f : gmap string Squad -> gmap string Squad)
    (c : CombatCommander) : CombatCommander :=
  mkCombatCommander (f (_squadData c)) (_combatUnits c) (_initialized c)
    (_goAggressive c) (_reconTarget c) (_lastReconTargetChange c)
    (_enemyWorkerAttackedAt c).

Definition set_combatUnits (us : gset Unit) (c : CombatCommander) :=
  mkCombatCommander (_squadData c) us (_initialized c)
    (_goAggressive c) (_reconTarget c) (_lastReconTargetChange c)
    (_enemyWorkerAttackedAt c).

Definition set_initialized (b : bool) (c : CombatCommander) :=
  mkCombatCommander (_squadData c) (_combatUnits c) b
    (_goAggressive c) (_reconTarget c) (_lastReconTargetChange c)
    (_enemyWorkerAttackedAt c).

Definition set_goAggressive (b : bool) (c : CombatCommander) :=
  mkCombatCommander (_squadData c) (_combatUnits c) (_initialized c)
    b (_reconTarget c) (_lastReconTargetChange c)
    (_enemyWorkerAttackedAt c).

Definition set_reconTarget (p : Position) (frame : Z) (c : CombatCommander) :=
  mkCombatCommander (_squadData c) (_combatUnits c) (_initialized c)
    (_goAggressive c) p frame (_enemyWorkerAttackedAt c).

Definition set_enemyWorkerAttackedAt (frame : Z) (c : CombatCommander) :=
  mkCombatCommander (_squadData c) (_combatUnits c) (_initialized c)
    (_goAggressive c) (_reconTarget c) (_lastReconTargetChange c) frame.

(** A member function either ends in a new state with a result, or stops
    the process ([None]). *)
Definition M (A : Type) : Type :=
  CombatCommander -> option (A * CombatCommander).

Definition ret {A} (a : A) : M A := fun c => Some (a, c).

Definition bind {A B} (m : M A) (f : A -> M B) : M B :=
  fun c => match m c with
           | Some (a, c') => f a c'
           | None => None
           end.

Definition fatal {A} : M A := fun _ => None.

Definition gets {A} (f : CombatCommander -> A) : M A := fun c => Some (f c, c).

Definition modify (f : CombatCommander -> CombatCommander) : M unit :=
  fun c => Some (tt, f c).

Declare Scope cc_scope.
Delimit Scope cc_scope with cc.
Notation "x <- m ;; k" := (bind m (fun x => k))
  (at level 100, m at next level, right associativity) : cc_scope.
Notation "m ;; k" := (bind m (fun _ => k))
  (at level 100, right associativity) : cc_scope.
Local Open Scope cc_scope.

Definition when (b : bool) (m : M unit) : M unit := if b then m else ret tt.

(** [b && m] with the short circuit of C++: [m] is not run when [b] is
    false. *)
Definition andM (b : bool) (m : M bool) : M bool := if b then m else ret false.

(** A range-for over a container with the locals it updates; the body says
    whether the loop goes on or leaves by [break]. *)
Inductive LoopStep (B : Type) : Type :=
  | Next (b : B)
  | Break (b : B).
Arguments Next {B} b.
Arguments Break {B} b.

Fixpoint for_each {A B} (l : list A) (body : A -> B -> M (LoopStep B)) (b : B)
    : M B :=
  match l with
  | [] => ret b
  | x :: l' =>
      r <- body x b ;;
      match r with
      | Next b' => for_each l' body b'
      | Break b' => ret b'
      end
  end.

Fixpoint for_ {A} (l : list A) (body : A -> M unit) : M unit :=
  match l with
  | [] => ret tt
  | x :: l' => body x ;; for_ l' body
  end.

(** Modelled from the spec: the macro UAB_ASSERT is declared outside this
    file; the spec counts a violated programming invariant as a fatal,
    stop-the-process assertion. *)
Definition UAB_ASSERT (cond : bool) : M unit := if cond then ret tt else fatal.

(** ** The squad registry *)

(** [std::map<std::string, Squad>] is walked in the order of its keys. *)
Definition string_le (a b : string) : Prop := String.leb a b = true.

#[global] Instance string_le_dec a b : Decision (string_le a b).
Proof. unfold string_le. solve_decision. Defined.

Definition squadNames (sd : gmap string Squad) : list string :=
  merge_sort string_le (fst <$> map_to_list sd).

(** Modelled from the spec: SquadData and Squad are declared in other files.
    [squadExists] and [getSquad] look a name up, and asking for a squad that
    does not exist is fatal.  [getSquad] hands out a reference, here the name,
    through which the caller reads and writes the squad in the registry. *)
Definition squadExists (name : string) : M bool :=
  gets (fun c => bool_decide (is_Some (_squadData c !! name))).

Definition getSquad (name : string) : M string :=
  e <- squadExists name ;;
  if e then ret name else fatal.

Definition deref (r : string) : M Squad :=
  sd <- gets _squadData ;;
  match sd !! r with
  | Some s => ret s
  | None => fatal
  end.

(** Modelled from the spec: [addSquad] fails fatally if the name already
    exists. *)
Definition addSquad (name : string) (s : Squad) : M unit :=
  e <- squadExists name ;;
  if e then fatal else modify (set_squadData (insert name s)).

(** Modelled from the spec: the membership operations of Squad on the set
    of units it owns. *)
Definition addUnit (r : string) (u : Unit) : M unit :=
  modify (set_squadData (alter (with_units (fun us => us ∪ {[u]})) r)).

Definition removeUnit (r : string) (u : Unit) : M unit :=
  modify (set_squadData (alter (with_units (fun us => us ∖ {[u]})) r)).

Definition clear (r : string) : M unit :=
  modify (set_squadData (alter (with_units (fun _ => ∅)) r)).

Definition setSquadOrder (r : string) (o : SquadOrder) : M unit :=
  modify (set_squadData (alter (with_order o) r)).

Definition getUnits (r : string) : M (gset Unit) :=
  s <- deref r ;; ret (squad_units s).

Definition getSquadOrder (r : string) : M SquadOrder :=
  s <- deref r ;; ret (squad_order s).

Definition containsUnit (r : string) (u : Unit) : M bool :=
  us <- getUnits r ;; ret (bool_decide (u ∈ us)).

Definition isEmpty (r : string) : M bool :=
  us <- getUnits r ;; ret (bool_decide (us = ∅)).

(** Modelled from the spec: the squad an agent currently belongs to, the
    first in registry order that contains it. *)
Definition squadContains (sd : gmap string Squad) (u : Unit) (name : string)
    : bool :=
  match sd !! name with
  | Some s => bool_decide (u ∈ squad_units s)
  | None => false
  end.

Definition getUnitSquad (sd : gmap string Squad) (u : Unit) : option string :=
  List.find (squadContains sd u) (squadNames sd).

(** Modelled from the spec: [canAssign(agent, squad)] is true iff the agent
    is not already a member of a squad with priority at least the requesting
    squad's priority. *)
Definition canAssignUnitToSquad (u : Unit) (r : string) : M bool :=
  s <- deref r ;;
  sd <- gets _squadData ;;
  ret (bool_decide (map_Forall
         (fun _ q => u ∈ squad_units q ->
                     (squad_priority q < squad_priority s)%nat) sd)).

(** Modelled from the spec: [assign(agent, squad)] removes the agent from
    its current squad if any, and inserts it into the target. *)
Definition assignUnitToSquad (u : Unit) (r : string) : M unit :=
  sd <- gets _squadData ;;
  match getUnitSquad sd u with
  | Some previous => removeUnit previous u
  | None => ret tt
  end ;;
  addUnit r u.

(** ** CombatCommander.cpp *)

Section Commander.

Context `{Game}.

(** *** Target selection *)

(** Count enemies that are buildings or slow-moving units good for defense,
    if they could attack (some units of) the squad. *)
Definition countsAsDefense (hasGround hasAir : bool) (t : UnitType) : bool :=
  (isBuilding t
   || type_eqb t Terran_Siege_Tank_Tank_Mode
   || type_eqb t Terran_Siege_Tank_Siege_Mode
   || type_eqb t Protoss_Reaver
   || type_eqb t Zerg_Lurker
   || type_eqb t Zerg_Guardian)
  && (hasGround && TypeCanAttackGround t
      || hasAir && TypeCanAttackAir t
      (* [enemy.type == enemy.type == Protoss_High_Templar] compares the
         outcome of the first [==], converted to an integer, with the id of
         the type. *)
      || (Z.b2z (type_eqb t t) =? getID Protoss_High_Templar)).

(** The score of an enemy base: 0, less one for each counted defender. *)
Definition baseScore (w : World) (hasGround hasAir : bool) (base : BaseLocation)
    : Z :=
  fold_left
    (fun score enemy =>
       if countsAsDefense hasGround hasAir (ui_type enemy)
       then score - 1 else score)
    (getNearbyForce w (base_getPosition w base)) 0.

Definition weakestEnemyBase (w : World) (hasGround hasAir : bool)
    : option BaseLocation :=
  fst (fold_left
    (fun (acc : option BaseLocation * Z) base =>
       if bool_decide (getBaseOwner w base = Player_enemy)
       then let score := baseScore w hasGround hasAir base in
            if snd acc <? score then (Some base, score) else acc
       else acc)
    (in_order (getBaseLocations w)) (None, -99999)).

Definition knownBuilding (ui : UnitInfo) : bool :=
  isBuilding (ui_type ui) && isValid (ui_lastPosition ui)
  && negb (ui_goneFromLastPosition ui).

Definition attackableUnit (w : World) (canAttackAir canAttackGround : bool)
    (unit : Unit) : bool :=
  negb (type_eqb (getType w unit) Zerg_Larva || negb (unit_exists w unit)
        || negb (isDetected w unit) || negb (isValid (getPosition w unit)))
  && (isFlying w unit && canAttackAir
      || negb (isFlying w unit) && canAttackGround).

(** Choose a point of attack for the given squad (which may be null).  The
    squad is given by its name and its units. *)
Definition getAttackLocation (w : World) (squad : option (string * gset Unit))
    : Position :=
  let hasGround :=
    match squad with Some (n, us) => squad_hasGround w n us | None => true end in
  let hasAir :=
    match squad with Some (n, us) => squad_hasAir w n us | None => false end in
  let canAttackAir :=
    match squad with Some (n, us) => squad_canAttackAir w n us | None => false end in
  let canAttackGround :=
    match squad with Some (n, us) => squad_canAttackGround w n us | None => true end in
  (* 1. Attack the enemy base with the weakest static defense. *)
  match (if canAttackGround then weakestEnemyBase w hasGround hasAir else None) with
  | Some targetBase => base_getPosition w targetBase
  | None =>
    (* 2. Attack known enemy buildings. *)
    match (if canAttackGround || bool_decide (enemy_getRace w = Terran)
           then List.find (fun kv => knownBuilding (snd kv)) (getUnitInfo w)
           else None) with
    | Some kv => ui_lastPosition (snd kv)
    | None =>
      (* 3. Attack visible enemy units. *)
      match List.find (attackableUnit w canAttackAir canAttackGround)
                      (in_order (enemy_getUnits w)) with
      | Some unit => getPosition w unit
      | None =>
        (* 4. Explore the map until we find something. *)
        getLeastExplored w (hasGround && negb hasAir)
      end
    end
  end.

(** Choose a point of attack for the given drop squad. *)
Definition getDropLocation (w : World) : Position :=
  match getEnemyMainBaseLocation w with
  | Some base => base_getPosition w base
  | None =>
    match List.find (fun kv => knownBuilding (snd kv)) (getUnitInfo w) with
    | Some kv => ui_lastPosition (snd kv)
    | None => getLeastExplored w false
    end
  end.

(** *** Creation of the squads *)

Definition initializeSquads (w : World) : M unit :=
  let idleOrder := mkSquadOrder SquadOrder_Idle
                     (Position_of (self_getStartLocation w)) 100 "Chill out" in
  addSquad "Idle" (newSquad idleOrder IdlePriority) ;;
  let mainAttackOrder := mkSquadOrder SquadOrder_Attack
                           (getAttackLocation w None) AttackRadius
                           "Attack enemy base" in
  addSquad "Ground" (newSquad mainAttackOrder AttackPriority) ;;
  addSquad "Flying" (newSquad mainAttackOrder AttackPriority) ;;
  addSquad "Recon"
    (with_fightVisible true
       (with_combatSimRadius 200 (newSquad idleOrder ReconPriority))) ;;
  let ourBasePosition := Position_of (self_getStartLocation w) in
  when (0 <? Config_Micro_ScoutDefenseRadius)
    (addSquad "ScoutDefense"
       (newSquad (mkSquadOrder SquadOrder_Defend ourBasePosition
                    Config_Micro_ScoutDefenseRadius "Get the scout")
                 ScoutDefensePriority)) ;;
  when (dropIsPlanned w)
    (addSquad "Drop"
       (newSquad (mkSquadOrder SquadOrder_Hold ourBasePosition AttackRadius
                    "Wait for transport")
                 DropPriority)) ;;
  modify (set_initialized true).

(** *** The idle squad *)

Definition updateIdleSquad : M unit :=
  idleSquad <- getSquad "Idle" ;;
  us <- gets _combatUnits ;;
  for_ (in_order us) (fun unit =>
    (* if it hasn't been assigned to a squad yet, put it in the low
       priority idle squad *)
    can <- canAssignUnitToSquad unit idleSquad ;;
    when can (addUnit idleSquad unit)).

(** *** The reconnaissance squad *)

(** The recon squad is allowed up to a certain "weight" of units. *)
Definition weighReconUnit (type : UnitType) : Z :=
  match type with
  | Zerg_Zergling => 2
  | Zerg_Hydralisk => 3
  | Terran_Marine => 2
  | Terran_Medic => 2
  | Terran_Vulture => 4
  | Terran_Siege_Tank_Tank_Mode => 6
  | Terran_Siege_Tank_Siege_Mode => 6
  | Protoss_Zealot => 4
  | Protoss_Dragoon => 4
  | Protoss_Dark_Templar => 4
  | _ => 0
  end.

(** Choose an empty base location for the recon squad to check out.
    [Random::index(n)] draws an index below [n]; the draw of this frame is
    [Random_next]. *)
Definition getReconLocation (w : World) : Position :=
  let mainPosition := base_getPosition w (getMyMainBaseLocation w) in
  let choices :=
    List.filter
      (fun base =>
         bool_decide (getBaseOwner w base = Player_neutral)
         && negb (getGroundTileDistance w (base_getPosition w base) mainPosition
                  =? -1))
      (in_order (getBaseLocations w)) in
  match choices with
  | [] => Positions_Invalid
  | first :: _ =>
      base_getPosition w
        (nth (Random_next w mod length choices)%nat choices first)
  end.

(** Keep the same reconnaissance target or switch to a new one, depending. *)
Definition chooseReconTarget (w : World) : M unit :=
  let nextTarget := getReconLocation w in
  reconTarget <- gets _reconTarget ;;
  lastChange <- gets _lastReconTargetChange ;;
  let change :=
    if negb (isValid nextTarget) then true
    else if negb (isValid reconTarget) then true
    else if ReconTargetTimeout <=? getFrameCount w - lastChange then true
    else if isVisible w (Z.quot (pos_x reconTarget) 32)
                        (Z.quot (pos_y reconTarget) 32)
    then forallb (isFlying w)
           (in_order (MapGrid_getUnits w reconTarget ReconRadius))
    else false in
  when change (modify (set_reconTarget nextTarget (getFrameCount w))).

(** The sum of the weights of a set of units. *)
Definition reconWeight (w : World) (us : list Unit) : Z :=
  fold_left (fun acc unit => acc + weighReconUnit (getType w unit)) us 0.

Definition countType (w : World) (t : UnitType) (us : list Unit) : Z :=
  fold_left (fun acc unit => if type_eqb (getType w unit) t then acc + 1 else acc)
            us 0.

(** The allowed weight of the recon squad. *)
Definition reconWeightLimit (availableWeight : Z) : Z :=
  let maxWeight := 12 in
  let weightLimit :=
    if 24 <=? availableWeight then 2 + Z.quot (availableWeight - 24) 6 else 0 in
  if maxWeight <? weightLimit then maxWeight else weightLimit.

(** The locals of the loops of [updateReconSquad]. *)
Record ReconLocals : Type := mkReconLocals {
  rl_squadWeight : Z;
  rl_nMarines : Z;
  rl_nMedics : Z;
  rl_hasDetector : bool
}.

(** Update the small recon squad which tries to find and deny enemy bases. *)
Definition updateReconSquad (w : World) : M unit :=
  let maxWeight := 12 in
  reconSquad <- getSquad "Recon" ;;
  goAggressive <- gets _goAggressive ;;
  (* Don't do recon while we're defensive *)
  if negb goAggressive then clear reconSquad else
  chooseReconTarget w ;;
  reconTarget <- gets _reconTarget ;;
  (* If nowhere needs seeing, disband the squad. *)
  if negb (isValid reconTarget) then clear reconSquad else
  (* What is already in the squad? *)
  members <- getUnits reconSquad ;;
  let squadWeight := reconWeight w (in_order members) in
  let nMarines :=
    fold_left (fun n unit =>
                 if type_eqb (getType w unit) Terran_Marine then n + 1 else n)
              (in_order members) 0 in
  let nMedics :=
    fold_left (fun n unit =>
                 if type_eqb (getType w unit) Terran_Marine then n
                 else if type_eqb (getType w unit) Terran_Medic then n + 1
                 else n)
              (in_order members) 0 in
  (* If everything except the detector is gone, let the detector go too. *)
  when ((squadWeight =? 0) && negb (bool_decide (members = ∅)))
       (clear reconSquad) ;;
  (* What is available to put into the squad? *)
  available <- gets _combatUnits ;;
  let availableWeight := reconWeight w (in_order available) in
  let availableDetectors :=
    fold_left (fun n unit => if isDetector (getType w unit) then n + 1 else n)
              (in_order available) 0 in
  let weightLimit := reconWeightLimit availableWeight in
  (* If the recon squad weighs more than it should, clear it and continue.
     Also if all marines are gone, but medics remain. *)
  let overweight :=
    (weightLimit <? squadWeight) || (nMarines =? 0) && (0 <? nMedics) in
  when overweight (clear reconSquad) ;;
  let squadWeight := if overweight then 0 else squadWeight in
  let nMarines := if overweight then 0 else nMarines in
  let nMedics := if overweight then 0 else nMedics in
  (* Add units up to the weight limit.  In this loop, add no medics, and few
     enough marines to allow for 2 medics. *)
  members <- getUnits reconSquad ;;
  let hasDetector := squad_hasDetector w reconSquad members in
  locals <- for_each (in_order available)
    (fun unit (l : ReconLocals) =>
       if weightLimit <=? rl_squadWeight l then ret (Break l) else
       let type := getType w unit in
       let weight := weighReconUnit type in
       can <- andM ((0 <? weight) && (rl_squadWeight l + weight <=? weightLimit))
                   (canAssignUnitToSquad unit reconSquad) ;;
       if can then
         if type_eqb type Terran_Marine then
           if rl_nMarines l * weight
              <? maxWeight - 2 * weighReconUnit Terran_Medic
           then
             assignUnitToSquad unit reconSquad ;;
             ret (Next (mkReconLocals (rl_squadWeight l + weight)
                          (rl_nMarines l + 1) (rl_nMedics l) (rl_hasDetector l)))
           else ret (Next l)
         else if negb (type_eqb type Terran_Medic) then
           assignUnitToSquad unit reconSquad ;;
           ret (Next (mkReconLocals (rl_squadWeight l + weight)
                        (rl_nMarines l) (rl_nMedics l) (rl_hasDetector l)))
         else ret (Next l)
       else
         (* Only add a detector if we have more than one. *)
         can' <- andM (negb (rl_hasDetector l) && (1 <? availableDetectors)
                       && isDetector type)
                      (canAssignUnitToSquad unit reconSquad) ;;
         if can' then
           assignUnitToSquad unit reconSquad ;;
           ret (Next (mkReconLocals (rl_squadWeight l) (rl_nMarines l)
                        (rl_nMedics l) true))
         else ret (Next l))
    (mkReconLocals squadWeight nMarines nMedics hasDetector) ;;
  (* Now fill in any needed medics. *)
  (if (0 <? rl_nMarines locals) && (rl_nMedics locals <? 2) then
     for_each (in_order available)
       (fun unit (l : ReconLocals) =>
          if (weightLimit <=? rl_squadWeight l) || (2 <=? rl_nMedics l)
          then ret (Break l) else
          can <- andM (type_eqb (getType w unit) Terran_Medic)
                      (canAssignUnitToSquad unit reconSquad) ;;
          if can then
            assignUnitToSquad unit reconSquad ;;
            ret (Next (mkReconLocals
                         (rl_squadWeight l + weighReconUnit Terran_Medic)
                         (rl_nMarines l) (rl_nMedics l + 1) (rl_hasDetector l)))
          else ret (Next l))
       locals ;;
     ret tt
   else ret tt) ;;
  (* Finally, issue the order. *)
  setSquadOrder reconSquad
    (mkSquadOrder SquadOrder_Attack reconTarget ReconRadius
                  "Reconnaissance in force").

(** *** The main attack squads *)

(** Unit definitely belongs in the Flying squad. *)
Definition isFlyingSquadUnit (type : UnitType) : bool :=
  type_eqb type Zerg_Mutalisk || type_eqb type Terran_Wraith
  || type_eqb type Terran_Valkyrie || type_eqb type Terran_Battlecruiser
  || type_eqb type Protoss_Corsair || type_eqb type Protoss_Scout.

(** Unit belongs in the Flying squad if the Flying squad exists, otherwise
    the Ground squad. *)
Definition isOptionalFlyingSquadUnit (type : UnitType) : bool :=
  type_eqb type Zerg_Scourge || type_eqb type Zerg_Devourer
  || type_eqb type Protoss_Carrier.

(** Unit belongs in the ground squad: everything except workers. *)
Definition isGroundSquadUnit (type : UnitType) : bool := negb (isWorker type).

(** The front line to hold under a defensive posture, with its radius and
    whether it is the wall. *)
Definition defensivePosition (w : World) : Position * Z :=
  let radius := DefensivePositionRadius in
  let base := getMyMainBaseLocation w in
  let base :=
    match getMyNaturalLocation w with
    | Some natural =>
        if bool_decide (Player_self = getBaseOwner w natural)
        then natural else base
    | None => base
    end in
  let defendPosition := base_getPosition w base in
  if wall_exists w then (wall_gapCenter w, Z.quot radius 4)
  else (defendPosition, radius).

(** Form the ground squad and the flying squad, the main attack squads. *)
Definition updateAttackSquads (w : World) : M unit :=
  groundSquad <- getSquad "Ground" ;;
  flyingSquad <- getSquad "Flying" ;;
  groundUnits <- getUnits groundSquad ;;
  flyingUnits <- getUnits flyingSquad ;;
  (* Include exactly 1 detector in each squad, for detection. *)
  let groundDetector := squad_hasDetector w groundSquad groundUnits in
  let groundSquadExists := squad_hasCombatUnits w groundSquad groundUnits in
  let flyingDetector := squad_hasDetector w flyingSquad flyingUnits in
  let flyingSquadExists :=
    existsb (fun unit => isFlyingSquadUnit (getType w unit))
            (in_order flyingUnits) in
  us <- gets _combatUnits ;;
  for_each (in_order us)
    (fun unit (detectors : bool * bool) =>
       let '(groundDetector, flyingDetector) := detectors in
       let type := getType w unit in
       if isDetector type then
         can <- andM (groundSquadExists && negb groundDetector)
                     (canAssignUnitToSquad unit groundSquad) ;;
         if can then
           assignUnitToSquad unit groundSquad ;;
           ret (Next (true, flyingDetector))
         else
           can' <- andM (flyingSquadExists && negb flyingDetector)
                        (canAssignUnitToSquad unit groundSquad) ;;
           if can' then
             assignUnitToSquad unit flyingSquad ;;
             ret (Next (groundDetector, true))
           else ret (Next detectors)
       else if isFlyingSquadUnit type then
         can <- canAssignUnitToSquad unit flyingSquad ;;
         when can (assignUnitToSquad unit flyingSquad) ;;
         ret (Next detectors)
       (* Certain flyers go into the flying squad only if it already exists. *)
       else if isOptionalFlyingSquadUnit type then
         (if flyingSquadExists then
            inGround <- containsUnit groundSquad unit ;;
            when inGround (removeUnit groundSquad unit) ;;
            can <- canAssignUnitToSquad unit flyingSquad ;;
            when can (assignUnitToSquad unit flyingSquad)
          else
            inFlying <- containsUnit flyingSquad unit ;;
            when inFlying
              (removeUnit flyingSquad unit ;;
               can <- canAssignUnitToSquad unit groundSquad ;;
               UAB_ASSERT can) ;;
            can <- canAssignUnitToSquad unit groundSquad ;;
            when can (assignUnitToSquad unit groundSquad)) ;;
         ret (Next detectors)
       (* isGroundSquadUnit() is defined as a catchall, so it has to go last. *)
       else if isGroundSquadUnit type then
         can <- canAssignUnitToSquad unit groundSquad ;;
         when can (assignUnitToSquad unit groundSquad) ;;
         ret (Next detectors)
       else ret (Next detectors))
    (groundDetector, flyingDetector) ;;
  goAggressive <- gets _goAggressive ;;
  if goAggressive then
    groundUnits <- getUnits groundSquad ;;
    setSquadOrder groundSquad
      (mkSquadOrder SquadOrder_Attack
         (getAttackLocation w (Some (groundSquad, groundUnits)))
         AttackRadius "Attack enemy base") ;;
    flyingUnits <- getUnits flyingSquad ;;
    setSquadOrder flyingSquad
      (mkSquadOrder SquadOrder_Attack
         (getAttackLocation w (Some (flyingSquad, flyingUnits)))
         AttackRadius "Attack enemy base")
  else
    let '(defendPosition, radius) := defensivePosition w in
    setSquadOrder groundSquad
      (mkSquadOrder
         (if wall_exists w then SquadOrder_HoldWall else SquadOrder_Hold)
         defendPosition radius "Hold the wall") ;;
    setSquadOrder flyingSquad
      (mkSquadOrder SquadOrder_Hold defendPosition radius "Hold the wall").

(** *** The drop squad *)

(** What units do you want to drop into the enemy base from a transport? *)
Definition unitIsGoodToDrop (w : World) (unit : Unit) : bool :=
  type_eqb (getType w unit) Protoss_Dark_Templar
  || type_eqb (getType w unit) Terran_Vulture.

(** What units do we have, what units do we need?  The transport seen last,
    the spots remaining in it, and whether any unit is not loaded. *)
Definition dropCensus (w : World) (dropUnits : list Unit)
    : option Unit * Z * bool :=
  fold_left
    (fun (acc : option Unit * Z * bool) unit =>
       let '(transportUnit, transportSpotsRemaining, anyUnloadedUnits) := acc in
       if unit_exists w unit then
         if isFlying w unit && (0 <? spaceProvided (getType w unit))
         then (Some unit, transportSpotsRemaining, anyUnloadedUnits)
         else (transportUnit,
               transportSpotsRemaining - spaceRequired (getType w unit),
               if negb (isLoaded w unit) then true else anyUnloadedUnits)
       else acc)
    dropUnits (None, 8, false).

(** Despite the name, this supports only 1 drop squad which has 1
    transport. *)
Definition updateDropSquads (w : World) : M unit :=
  (* If we don't have a drop squad, then we don't want to drop. *)
  e <- squadExists "Drop" ;;
  if negb e then ret tt else
  dropSquad <- getSquad "Drop" ;;
  order <- getSquadOrder dropSquad ;;
  if bool_decide (order_type order = SquadOrder_Drop) then ret tt else
  (* If we get here, we haven't been ordered to Drop yet. *)
  dropUnits <- getUnits dropSquad ;;
  let '(transportUnit, transportSpotsRemaining, anyUnloadedUnits) :=
    dropCensus w (in_order dropUnits) in
  match transportUnit, transportSpotsRemaining =? 0 with
  | Some transport, true =>
      if anyUnloadedUnits then
        (* The drop squad is complete. Load up. *)
        setSquadOrder dropSquad
          (mkSquadOrder SquadOrder_Load (getPosition w transport)
                        AttackRadius "Load up")
      else
        (* We're full. Change the order to Drop. *)
        setSquadOrder dropSquad
          (mkSquadOrder SquadOrder_Drop (getDropLocation w) 300 "Go drop!")
  | _, _ =>
      (* The drop squad is not complete. Look for more units. *)
      us <- gets _combatUnits ;;
      for_each (in_order us)
        (fun unit (acc : option Unit * Z) =>
           let '(transportUnit, transportSpotsRemaining) := acc in
           let type := getType w unit in
           (* If the squad doesn't have a transport, try to add one. *)
           can <- andM (negb (bool_decide (is_Some transportUnit))
                        && (0 <? spaceProvided type) && isFlying w unit)
                       (canAssignUnitToSquad unit dropSquad) ;;
           if can then
             assignUnitToSquad unit dropSquad ;;
             ret (Next (Some unit, transportSpotsRemaining))
           else
             (* If the unit fits and is good to drop, add it to the squad. *)
             can' <- andM ((spaceRequired type <=? transportSpotsRemaining)
                           && unitIsGoodToDrop w unit)
                          (canAssignUnitToSquad unit dropSquad) ;;
             if can' then
               assignUnitToSquad unit dropSquad ;;
               ret (Next (transportUnit,
                          transportSpotsRemaining - spaceRequired type))
             else ret (Next acc))
        (transportUnit, transportSpotsRemaining) ;;
      ret tt
  end.

(** *** The scout defense squad *)

Definition inRegion (w : World) (unit : Unit) (region : Region) : bool :=
  bool_decide (getRegion w (TilePosition_of (getPosition w unit)) = Some region).

Definition updateScoutDefenseSquad (w : World) : M unit :=
  us <- gets _combatUnits ;;
  if (Config_Micro_ScoutDefenseRadius =? 0) || bool_decide (us = ∅)
  then ret tt else
  scoutDefenseSquad <- getSquad "ScoutDefense" ;;
  (* get the region that our base is located in *)
  match getRegion w (base_getTilePosition w (getMyMainBaseLocation w)) with
  | None => ret tt
  | Some myRegion =>
    if negb (isValid (region_getCenter w myRegion)) then ret tt else
    (* Chase the scout unless there is an enemy unit in the region that
       isn't a scout *)
    enemyWorkerAttackedAt <- gets _enemyWorkerAttackedAt ;;
    let chaseScout :=
      negb (existsb
              (fun unit =>
                 inRegion w unit myRegion
                 && (negb (type_eqb (getType w unit) Zerg_Overlord)
                     && (negb (isWorker (getType w unit))
                         || (getFrameCount w - 120 <? enemyWorkerAttackedAt))))
              (in_order (enemy_getUnits w))) in
    (* If we don't want to chase a scout, disband the squad *)
    if negb chaseScout then
      empty <- isEmpty scoutDefenseSquad ;;
      when (negb empty) (clear scoutDefenseSquad)
    else
    (* Pull a dragoon that is already in the main *)
    empty <- isEmpty scoutDefenseSquad ;;
    if empty then
      for_each (in_order us)
        (fun unit (_ : Datatypes.unit) =>
           can <- andM (type_eqb (getType w unit) Protoss_Dragoon
                        && inRegion w unit myRegion)
                       (canAssignUnitToSquad unit scoutDefenseSquad) ;;
           if can then
             assignUnitToSquad unit scoutDefenseSquad ;;
             ret (Break tt)
           else ret (Next tt))
        tt
    else ret tt
  end.

(** *** The base defense squads *)

(** A loop [while (cond) body] whose body is known to run at most [fuel]
    times; the body tests the condition itself and leaves by [Break] when it
    fails. *)
Fixpoint while_ {S} (fuel : nat) (body : S -> M (LoopStep S)) (s : S) : M S :=
  match fuel with
  | O => fatal
  | Datatypes.S fuel' =>
      r <- body s ;;
      match r with
      | Next s' => while_ fuel' body s'
      | Break s' => ret s'
      end
  end.

(** The locals of [findClosestDefender]. *)
Record Closest : Type := mkClosest {
  closestDefender : option Unit;
  minDistance : Z;
  closestWorker : option Unit;
  minWorkerDistance : Z
}.

(** Choose a defender to join the base defense squad. *)
Definition findClosestDefender (w : World) (defenseSquad : string)
    (pos : Position) (flyingDefender pullWorkers : bool) : M (option Unit) :=
  us <- gets _combatUnits ;;
  c <- for_each (in_order us)
    (fun unit (c : Closest) =>
       if flyingDefender && negb (CanAttackAir w unit)
          || negb flyingDefender && negb (CanAttackGround w unit)
       then ret (Next c) else
       can <- canAssignUnitToSquad unit defenseSquad ;;
       if negb can then ret (Next c) else
       let dist := getDistance w unit pos in
       if isWorker (getType w unit) then
         (* Pull workers only if requested, and not from distant bases. *)
         if negb pullWorkers || (1000 <? dist) then ret (Next c)
         else if dist <? minWorkerDistance c
         then ret (Next (mkClosest (closestDefender c) (minDistance c)
                                   (Some unit) dist))
         else ret (Next c)
       else if dist <? minDistance c
       then ret (Next (mkClosest (Some unit) dist
                                 (closestWorker c) (minWorkerDistance c)))
       else ret (Next c))
    (mkClosest None 99999 None 99999) ;;
  (* Return a worker if it's all we have or if the nearest non-worker is
     more than 200 away *)
  ret (match closestWorker c with
       | Some worker =>
           if negb (bool_decide (is_Some (closestDefender c)))
              || (minWorkerDistance c <? minDistance c)
                 && (200 <? minDistance c)
           then Some worker
           else closestDefender c
       | None => closestDefender c
       end).

(** Count current defenders in the squad: flying defenders, ground
    defenders and workers. *)
Definition countDefenders (w : World) (units : list Unit) : Z * Z * Z :=
  fold_left
    (fun (acc : Z * Z * Z) unit =>
       let '(flyingDefendersAdded, groundDefendersAdded, workersInGroup) := acc in
       let flyingDefendersAdded :=
         if CanAttackAir w unit then flyingDefendersAdded + 1
         else flyingDefendersAdded in
       if isWorker (getType w unit) then
         (flyingDefendersAdded, groundDefendersAdded + 1, workersInGroup + 1)
       else if type_eqb (getType w unit) Protoss_Zealot then
         (flyingDefendersAdded, groundDefendersAdded + 4, workersInGroup)
       else
         (flyingDefendersAdded, groundDefendersAdded + 5, workersInGroup))
    units (0, 0, 0).

(** The counters are [size_t] and count units; [groundDefendersAdded -
    workersInGroup] never goes below zero, each worker being counted in
    both. *)
Definition updateDefenseSquadUnits (w : World) (defenseSquad : string)
    (flyingDefendersNeeded groundDefendersNeeded : Z) (pullWorkers : bool)
    : M unit :=
  (* if there's nothing left to defend, clear the squad *)
  if (flyingDefendersNeeded =? 0) && (groundDefendersNeeded =? 0)
  then clear defenseSquad else
  units <- getUnits defenseSquad ;;
  let '(flyingDefendersAdded, groundDefendersAdded, workersInGroup) :=
    countDefenders w (in_order units) in
  (* add flying defenders *)
  while_ (Datatypes.S (Z.to_nat (flyingDefendersNeeded - flyingDefendersAdded)))
    (fun flyingDefendersAdded =>
       if flyingDefendersNeeded <=? flyingDefendersAdded
       then ret (Break flyingDefendersAdded) else
       order <- getSquadOrder defenseSquad ;;
       found <- findClosestDefender w defenseSquad (order_position order)
                                    true false ;;
       match found with
       | None => ret (Break flyingDefendersAdded)
       | Some defenderToAdd =>
           UAB_ASSERT (negb (isWorker (getType w defenderToAdd))) ;;
           assignUnitToSquad defenderToAdd defenseSquad ;;
           ret (Next (flyingDefendersAdded + 1))
       end)
    flyingDefendersAdded ;;
  (* add ground defenders if we still need them *)
  groundDefendersAdded <-
    while_ (Datatypes.S (Z.to_nat (groundDefendersNeeded
                                   - (groundDefendersAdded - workersInGroup))))
      (fun groundDefendersAdded =>
         if groundDefendersNeeded <=? groundDefendersAdded - workersInGroup
         then ret (Break groundDefendersAdded) else
         order <- getSquadOrder defenseSquad ;;
         found <- findClosestDefender w defenseSquad (order_position order)
                                      false pullWorkers ;;
         match found with
         | None => ret (Break groundDefendersAdded)
         | Some defenderToAdd =>
             if isWorker (getType w defenderToAdd) then
               UAB_ASSERT pullWorkers ;;
               (* Don't take the worker if we already have enough *)
               if groundDefendersNeeded <=? groundDefendersAdded
               then ret (Break groundDefendersAdded)
               else
                 (* the worker manager is told: setCombatWorker *)
                 assignUnitToSquad defenderToAdd defenseSquad ;;
                 ret (Next (groundDefendersAdded + 1))
             else if type_eqb (getType w defenderToAdd) Protoss_Zealot then
               assignUnitToSquad defenderToAdd defenseSquad ;;
               ret (Next (groundDefendersAdded + 4))
             else
               assignUnitToSquad defenderToAdd defenseSquad ;;
               ret (Next (groundDefendersAdded + 5))
         end)
      groundDefendersAdded ;;
  (* Remove excess workers *)
  while_ (Datatypes.S (Z.to_nat (groundDefendersAdded - groundDefendersNeeded)))
    (fun groundDefendersAdded =>
       units <- getUnits defenseSquad ;;
       match (if groundDefendersNeeded <? groundDefendersAdded
              then List.find (fun unit => type_eqb (getType w unit) Protoss_Probe)
                             (in_order units)
              else None) with
       | Some unit =>
           removeUnit defenseSquad unit ;;
           ret (Next (groundDefendersAdded - 1))
       | None => ret (Break groundDefendersAdded)
       end)
    groundDefendersAdded ;;
  ret tt.

(** The ground defenders an enemy unit calls for. *)
Definition groundThreat (type : UnitType) : Z :=
  if isWorker type then 1
  else if type_eqb type Zerg_Zergling then 2
  else if type_eqb type Zerg_Hydralisk || type_eqb type Terran_Marine then 3
  else if type_eqb type Protoss_Zealot then 5
  else 6.

Definition groundThreatSum (w : World) (enemyUnitsInRegion : list Unit) : Z :=
  fold_left
    (fun needed unit =>
       if isFlying w unit then needed
       else needed + groundThreat (getType w unit))
    enemyUnitsInRegion 0.

(** [std::ceil(n * 1.2)].  The product of an [int] with the double nearest
    to 1.2 rounds to a double whose ceiling is that of the exact 6n/5: the
    error is below half an ulp when 6n/5 is an integer and much less than 1/5
    otherwise. *)
Definition ceil_times_1_2 (n : Z) : Z := Qceiling (inject_Z n * 1.2).

(** Completed, powered static defense in the region or near the squad's
    order position. *)
Definition staticDefenseAt (w : World) (myRegion : Region)
    (orderPosition : Position) (unit : Unit) : bool :=
  isCompleted w unit && isPowered w unit
  && (inRegion w unit myRegion
      || distance_lt orderPosition (getPosition w unit) 500).

Definition isStaticAirDefense (w : World) (myRegion : Region)
    (orderPosition : Position) (unit : Unit) : bool :=
  (type_eqb (getType w unit) Terran_Missile_Turret
   || type_eqb (getType w unit) Protoss_Photon_Cannon
   || type_eqb (getType w unit) Zerg_Spore_Colony)
  && staticDefenseAt w myRegion orderPosition unit.

Definition isStaticGroundDefense (w : World) (myRegion : Region)
    (orderPosition : Position) (unit : Unit) : bool :=
  (type_eqb (getType w unit) Protoss_Photon_Cannon
   || type_eqb (getType w unit) Zerg_Sunken_Colony)
  && staticDefenseAt w myRegion orderPosition unit.

Definition flyingDefendersNeeded (w : World) (myRegion : Region)
    (orderPosition : Position) (enemyUnitsInRegion : list Unit) : Z :=
  let numDefendersPerEnemyUnit := 2 in
  let numEnemyFlyingInRegion :=
    Z.of_nat (length (List.filter (isFlying w) enemyUnitsInRegion)) in
  let needed := numDefendersPerEnemyUnit * numEnemyFlyingInRegion in
  let needed :=
    fold_left
      (fun needed unit =>
         if isStaticAirDefense w myRegion orderPosition unit
         then needed - 3 else needed)
      (in_order (self_getUnits w)) needed in
  Z.max needed 0.

Definition groundDefendersNeeded (w : World) (myRegion : Region)
    (orderPosition : Position) (enemyUnitsInRegion : list Unit) : Z :=
  let needed := ceil_times_1_2 (groundThreatSum w enemyUnitsInRegion) in
  let needed :=
    fold_left
      (fun needed unit =>
         if isStaticGroundDefense w myRegion orderPosition unit
         then needed - 6 else needed)
      (in_order (self_getUnits w)) needed in
  Z.max needed 0.

Definition numZerglingsInOurBase (w : World) : Z :=
  let concernRadius := 300 in
  let myBasePosition := base_getPosition w (getMyMainBaseLocation w) in
  fold_left
    (fun zerglings unit =>
       if type_eqb (getType w unit) Zerg_Zergling
          && (getDistance w unit myBasePosition <? concernRadius)
       then zerglings + 1 else zerglings)
    (in_order (enemy_getUnits w)) 0.

(** Is an enemy building near our base? If so, we may pull workers. *)
Definition buildingRush (w : World) : bool :=
  if weHaveCombatUnits w then false
  else
    let myBasePosition := base_getPosition w (getMyMainBaseLocation w) in
    existsb
      (fun unit =>
         isBuilding (getType w unit)
         && (getDistance w unit myBasePosition <? 1200))
      (in_order (enemy_getUnits w)).

Definition baseDefenseSquadName (regionCenter : Position) : string :=
  "Base Defense " +:+ pretty (pos_x regionCenter) +:+ " "
  +:+ pretty (pos_y regionCenter).

(** If a defense squad for this region exists, empty it. *)
Definition clearIfExists (squadName : string) : M unit :=
  e <- squadExists squadName ;;
  if e then r <- getSquad squadName ;; clear r else ret tt.

(** The body of the loop over the regions. *)
Definition defendRegion (w : World) (enemyRegion mainRegion : option Region)
    (myRegion : Region) : M unit :=
  (* don't defend inside the enemy region *)
  if bool_decide (Some myRegion = enemyRegion) then ret tt else
  let regionCenter := region_getCenter w myRegion in
  if negb (isValid regionCenter) then ret tt else
  let squadName := baseDefenseSquadName regionCenter in
  (* If we aren't occupying the region, make sure we aren't defending it *)
  if negb (bool_decide (myRegion ∈ getOccupiedRegions w))
  then clearIfExists squadName else
  (* all of the enemy units in this region *)
  let enemyUnitsInRegion : gset Unit :=
    filter
      (fun unit =>
         negb (type_eqb (getType w unit) Zerg_Overlord
               || type_eqb (getType w unit) Protoss_Observer
               || isLifted w unit)
         && inRegion w unit myRegion)
      (enemy_getUnits w) in
  (* We assume the first enemy worker in the region is a scout, unless it
     has attacked us recently *)
  enemyUnitsInRegion <-
    match List.find (fun unit => isWorker (getType w unit))
                    (in_order enemyUnitsInRegion) with
    | Some unit =>
        if isAttacking w unit then
          modify (set_enemyWorkerAttackedAt (getFrameCount w)) ;;
          ret enemyUnitsInRegion
        else
          enemyWorkerAttackedAt <- gets _enemyWorkerAttackedAt ;;
          if enemyWorkerAttackedAt <? getFrameCount w - 120
          then ret (enemyUnitsInRegion ∖ {[unit]})
          else ret enemyUnitsInRegion
    | None => ret enemyUnitsInRegion
    end ;;
  (* if there's nothing in this region to worry about *)
  if bool_decide (enemyUnitsInRegion = ∅) then clearIfExists squadName else
  goAggressive <- gets _goAggressive ;;
  order <-
    (if goAggressive || bool_decide (Some myRegion = mainRegion)
     then ret (mkSquadOrder SquadOrder_Defend regionCenter (32 * 25)
                            "Defend region")
     else
       (* Otherwise we reuse the order of our main squad *)
       ground <- getSquad "Ground" ;; getSquadOrder ground) ;;
  e <- squadExists squadName ;;
  (if negb e then addSquad squadName (newSquad order BaseDefensePriority)
   else r <- getSquad squadName ;; setSquadOrder r order) ;;
  (* assign units to the squad *)
  e <- squadExists squadName ;;
  UAB_ASSERT e ;;
  defenseSquad <- getSquad squadName ;;
  squadOrder <- getSquadOrder defenseSquad ;;
  let flyingNeeded :=
    flyingDefendersNeeded w myRegion (order_position squadOrder)
                          (in_order enemyUnitsInRegion) in
  let groundNeeded :=
    groundDefendersNeeded w myRegion (order_position squadOrder)
                          (in_order enemyUnitsInRegion) in
  let sunkenDefender :=
    existsb (isStaticGroundDefense w myRegion (order_position squadOrder))
            (in_order (self_getUnits w)) in
  (* Pull workers only in narrow conditions. *)
  let pullWorkers :=
    negb goAggressive
    || Config_Micro_WorkersDefendRush
       && (negb sunkenDefender && (0 <? numZerglingsInOurBase w)
           || buildingRush w) in
  updateDefenseSquadUnits w defenseSquad flyingNeeded groundNeeded pullWorkers.

Definition updateBaseDefenseSquads (w : World) : M unit :=
  us <- gets _combatUnits ;;
  if bool_decide (us = ∅) then ret tt else
  let enemyRegion :=
    match getEnemyMainBaseLocation w with
    | Some enemyBaseLocation =>
        getRegion_at w (base_getPosition w enemyBaseLocation)
    | None => None
    end in
  let mainRegion :=
    getRegion_at w (base_getPosition w (getMyMainBaseLocation w)) in
  (* for each of our occupied regions *)
  for_ (in_order (getRegions w)) (defendRegion w enemyRegion mainRegion) ;;
  (* for each of our defense squads, if there aren't any enemy units near
     the position, clear the squad *)
  squads <- gets _squadData ;;
  for_ (squadNames squads)
    (fun name =>
       squad <- deref name ;;
       let order := squad_order squad in
       if negb (bool_decide (order_type order = SquadOrder_Defend))
          || bool_decide (squad_units squad = ∅)
       then ret tt else
       let enemyUnitInRange :=
         existsb
           (fun unit => getDistance w unit (order_position order)
                        <? order_radius order)
           (in_order (enemy_getUnits w)) in
       if negb enemyUnitInRange then r <- getSquad name ;; clear r
       else ret tt).

(** *** Workers in the attack squad *)

(** How good is it to pull this worker for combat? *)
Definition workerPullScore (w : World) (worker : Unit) : Z :=
  (if getHitPoints w worker =? maxHitPoints (getType w worker) then 10 else 0)
  + (if getShields w worker =? maxShields (getType w worker) then 4 else 0)
  + (if isCarryingGas w worker then -3 else 0)
  + (if isCarryingMinerals w worker then -2 else 0).

(** [push] of the [std::priority_queue] of [pullWorkers], the queue being
    the list of its workers in the order in which [top] and [pop] give them,
    best score first.  Among workers of equal score the library's heap
    decides; here the one pushed first comes first. *)
Fixpoint push (w : World) (unit : Unit) (workers : list Unit) : list Unit :=
  match workers with
  | [] => [unit]
  | top :: rest =>
      if workerPullScore w top <? workerPullScore w unit
      then unit :: workers
      else top :: push w unit rest
  end.

(** Pull workers off of mining and into the attack squad.  The argument n
    can be zero or negative or huge. *)
Definition pullWorkers (w : World) (n : Z) : M unit :=
  groundSquad <- getSquad "Ground" ;;
  us <- gets _combatUnits ;;
  workers <-
    for_each (in_order us)
      (fun unit workers =>
         can <- andM (isWorker (getType w unit) && WorkerManager_isFree w unit)
                     (canAssignUnitToSquad unit groundSquad) ;;
         ret (Next (if can then push w unit workers else workers)))
      [] ;;
  _ <- while_ (Datatypes.S (length workers))
         (fun '(nLeft, workers) =>
            match workers with
            | worker :: rest =>
                if 0 <? nLeft then
                  assignUnitToSquad worker groundSquad ;;
                  ret (Next (nLeft - 1, rest))
                else ret (Break (nLeft, workers))
            | [] => ret (Break (nLeft, workers))
            end)
         (n, workers) ;;
  ret tt.

(** Modelled from the spec: [Squad::releaseWorkers] is declared in another
    file, and the spec has no words on it.  Going by its name and by the
    comment of its caller, it takes the workers out of the squad. *)
Definition Squad_releaseWorkers (w : World) (r : string) : M unit :=
  modify (set_squadData
            (alter (with_units
                      (filter (fun unit => isWorker (getType w unit) = false)))
                   r)).

(** Release workers from the attack squad. *)
Definition releaseWorkers (w : World) : M unit :=
  groundSquad <- getSquad "Ground" ;;
  Squad_releaseWorkers w groundSquad.

(** *** One frame *)

(** Modelled from the spec: [SquadData::update] is declared in another
    file.  The spec has it advance every squad's internal state once, in
    registry order; a squad never changes its own order and units change
    squads only through the registry, so on the registry the advance can only
    let a squad drop units, those the world reports as no longer valid. *)
Definition SquadData_update (w : World) : M unit :=
  modify (set_squadData
            (fmap (with_units (filter (fun unit => IsValidUnit w unit = true))))).

(** [loadOrUnloadBunkers], [doComsatScan] and [cancelDyingItems] give
    commands to units and leave the commander's fields alone; they do not
    appear here. *)
Definition update (w : World) : M unit :=
  initialized <- gets _initialized ;;
  when (negb initialized) (initializeSquads w) ;;
  modify (set_combatUnits (combatUnits w)) ;;
  let frame8 := Z.rem (getFrameCount w) 8 in
  when (frame8 =? 1)
    (updateIdleSquad ;;
     updateDropSquads w ;;
     updateScoutDefenseSquad w ;;
     updateBaseDefenseSquads w ;;
     updateReconSquad w ;;
     updateAttackSquads w) ;;
  SquadData_update w.

(** The commander as constructed. *)
Definition CombatCommander_new : CombatCommander :=
  mkCombatCommander ∅ ∅ false true Positions_Invalid 0 0.

(** Modelled from the spec: the posture flag is supplied by the external
    strategy layer; [setAggression], declared in the header, writes it between
    frames. *)
Definition setAggression (aggressive : bool) : M unit :=
  modify (set_goAggressive aggressive).

End Commander.

(** * Reasoning about member functions *)

(** [wpx F m Q c]: run from [c], the function [m] ends in a result and a
    state that satisfy [Q]; a fatal stop counts as [F].  With [F := False]
    this is total correctness, with [F := True] partial correctness. *)
Definition wpx {A} (F : Prop) (m : M A) (Q : A -> CombatCommander -> Prop)
    (c : CombatCommander) : Prop :=
  match m c with
  | Some (a, c') => Q a c'
  | None => F
  end.

Abbreviation wp := (wpx False).
Abbreviation wlp := (wpx True).

(** * The vocabulary of the claims *)

(** The locals a round of a loop ends with. *)
Definition step_val {B} (r : LoopStep B) : B :=
  match r with Next b | Break b => b end.

(** No unit is in two squads. *)
Definition exclusive (sd : gmap string Squad) : Prop :=
  forall n1 n2 s1 s2 u,
    sd !! n1 = Some s1 -> sd !! n2 = Some s2 ->
    u ∈ squad_units s1 -> u ∈ squad_units s2 -> n1 = n2.

(** The unit is in no squad but possibly [r]. *)
Definition only_in (sd : gmap string Squad) (u : Unit) (r : string) : Prop :=
  forall n s, sd !! n = Some s -> u ∈ squad_units s -> n = r.

(** The unit is in some squad. *)
Definition assigned (sd : gmap string Squad) (u : Unit) : Prop :=
  exists n s, sd !! n = Some s /\ u ∈ squad_units s.

(** The order of the drop squad, if there is a drop squad. *)
Definition dropOrder (sd : gmap string Squad) : option SquadOrder :=
  squad_order <$> (sd !! "Drop").

(** What the allocation policies rely on and keep: the squads made at the
    start are there, the idle squad has the lowest priority, and no unit is
    in two squads. *)
Record Ready `{Game} (sd : gmap string Squad) : Prop := mkReady {
  ready_exclusive : exclusive sd;
  ready_idle : exists s, sd !! "Idle" = Some s /\ squad_priority s = IdlePriority;
  ready_ground : is_Some (sd !! "Ground");
  ready_flying : is_Some (sd !! "Flying");
  ready_recon : is_Some (sd !! "Recon");
  ready_scout : 0 < Config_Micro_ScoutDefenseRadius ->
                is_Some (sd !! "ScoutDefense")
}.

(** [Ready], with the order of the drop squad and some more squads known to
    exist. *)
Definition Stable `{Game} (o : option SquadOrder) (rs : list string)
    (sd : gmap string Squad) : Prop :=
  Ready sd /\ dropOrder sd = o /\ forall r, r ∈ rs -> is_Some (sd !! r).

(** The registry after [assignUnitToSquad]. *)
Definition reassign (u : Unit) (r : string) (sd : gmap string Squad)
    : gmap string Squad :=
  alter (with_units (fun us => us ∪ {[u]})) r
    (match getUnitSquad sd u with
     | Some previous => alter (with_units (fun us => us ∖ {[u]})) previous sd
     | None => sd
     end).

(** The answer of [canAssignUnitToSquad]. *)
Definition canAssign (sd : gmap string Squad) (u : Unit) (s : Squad) : bool :=
  bool_decide (map_Forall
    (fun _ q => u ∈ squad_units q -> (squad_priority q < squad_priority s)%nat)
    sd).

(** What a squad keeps when its units change, and registries whose squads
    differ in their units only. *)
Definition shape (s : Squad) : SquadOrder * nat :=
  (squad_order s, squad_priority s).

Definition same_shape (sd sd' : gmap string Squad) : Prop :=
  forall n, shape <$> sd' !! n = shape <$> sd !! n.

(** The order of the drop squad after a step, given the order before: the
    same, or a Load or Drop order; and the same once it is a Drop order. *)
Definition dropStep (o o' : option SquadOrder) : Prop :=
  match o with
  | None => o' = None
  | Some od =>
      exists od', o' = Some od'
        /\ (order_type od = SquadOrder_Drop -> od' = od)
        /\ (od' = od \/ order_type od' = SquadOrder_Load
            \/ order_type od' = SquadOrder_Drop)
  end.

(** What [findClosestDefender] has found so far: a non-worker as closest
    defender, and a worker only if workers are pulled. *)
Definition closest_ok `{Game} (w : World) (pullWorkers : bool) (cl : Closest)
    : Prop :=
  (forall u, closestDefender cl = Some u -> isWorker (getType w u) = false)
  /\ (forall u, closestWorker cl = Some u -> pullWorkers = true).

(** The drop squad's order is one of the three of the drop protocol. *)
Definition dropKindOK (o : option SquadOrder) : Prop :=
  forall od, o = Some od ->
    order_type od = SquadOrder_Hold \/ order_type od = SquadOrder_Load
    \/ order_type od = SquadOrder_Drop.

(** The invariant of the commander between frames. *)
Definition Inv `{Game} (c : CombatCommander) : Prop :=
  if _initialized c
  then Ready (_squadData c) /\ dropKindOK (dropOrder (_squadData c))
  else _squadData c = ∅.

(** The policies write the registry, the recon target and the memory of
    worker attacks; the other fields stay as they are. *)
Definition fixed (c c' : CombatCommander) : Prop :=
  _combatUnits c' = _combatUnits c
  /\ _initialized c' = _initialized c
  /\ _goAggressive c' = _goAggressive c.

(** A member function that only reads. *)
Definition readonly {A} (m : M A) : Prop :=
  forall c a c', m c = Some (a, c') -> c' = c.

(** The six policies in their order. *)
Definition allocate `{Game} (w : World) : M unit :=
  updateIdleSquad ;;
  updateDropSquads w ;;
  updateScoutDefenseSquad w ;;
  updateBaseDefenseSquads w ;;
  updateReconSquad w ;;
  updateAttackSquads w.

(** [Stable], together with the fields the policies leave alone. *)
Definition Held `{Game} (o : option SquadOrder) (rs : list string)
    (c0 c : CombatCommander) : Prop :=
  Stable o rs (_squadData c) /\ fixed c0 c.

(** One step of the commander as its callers drive it: a frame, or the
    strategy layer setting the posture, pulling workers or releasing them. *)
Inductive step `{Game} (c c' : CombatCommander) : Prop :=
  | step_update (w : World) : update w c = Some (tt, c') -> step c c'
  | step_setAggression (aggressive : bool) :
      setAggression aggressive c = Some (tt, c') -> step c c'
  | step_pullWorkers (w : World) (n : Z) :
      pullWorkers w n c = Some (tt, c') -> step c c'
  | step_releaseWorkers (w : World) :
      releaseWorkers w c = Some (tt, c') -> step c c'.

(** The states the commander gets into, from its construction. *)
Definition reachable `{Game} (c : CombatCommander) : Prop :=
  rtc step CombatCommander_new c.

(** The phases of the drop protocol: collecting, loading, dropped. *)
Definition dropPhase (t : SquadOrderTypes) : option nat :=
  match t with
  | SquadOrder_Hold => Some 0%nat
  | SquadOrder_Load => Some 1%nat
  | SquadOrder_Drop => Some 2%nat
  | _ => None
  end.



(** The claim as written: members of the Drop squad cannot be taken for a
    squad of base defense priority, though the Drop priority is below the
    attack and the base defense priorities. *)
Definition drop_exempt_despite_lower_priority : Prop :=
  (forall c u sdrop r target,
     _squadData c !! "Drop" = Some sdrop ->
     squad_priority sdrop = DropPriority ->
     u ∈ squad_units sdrop ->
     _squadData c !! r = Some target ->
     squad_priority target = BaseDefensePriority ->
     canAssignUnitToSquad u r c = Some (false, c))
  /\ (DropPriority < AttackPriority)%nat
  /\ (DropPriority < BaseDefensePriority)%nat.

(** A transport, as [updateDropSquads] tells it: a flying unit that provides
    cargo space.  The cargo of a squad: the space required by its units that
    exist and are not transports. *)
Definition isTransport `{Game} (w : World) (unit : Unit) : bool :=
  isFlying w unit && (0 <? spaceProvided (getType w unit)).

Definition isCargo `{Game} (w : World) (unit : Unit) : bool :=
  unit_exists w unit && negb (isTransport w unit).

Definition cargoRequired `{Game} (w : World) (units : gset Unit) : Z :=
  foldr Z.add 0
    (List.map (fun unit => spaceRequired (getType w unit))
       (List.filter (isCargo w) (in_order units))).


(** The order of a squad in the registry. *)
Definition orderOf (c : CombatCommander) (name : string) : option SquadOrder :=
  squad_order <$> (_squadData c !! name).

(** The orders [updateAttackSquads] ends with. *)
Definition attackOrders `{Game} (w : World) (aggressive : bool)
    (c' : CombatCommander) : Prop :=
  if aggressive then
    (exists groundUnits,
       orderOf c' "Ground"
       = Some (mkSquadOrder SquadOrder_Attack
                 (getAttackLocation w (Some ("Ground", groundUnits)))
                 AttackRadius "Attack enemy base"))
    /\ (exists flyingUnits,
          orderOf c' "Flying"
          = Some (mkSquadOrder SquadOrder_Attack
                    (getAttackLocation w (Some ("Flying", flyingUnits)))
                    AttackRadius "Attack enemy base"))
  else
    orderOf c' "Ground"
    = Some (mkSquadOrder
              (if wall_exists w then SquadOrder_HoldWall else SquadOrder_Hold)
              (fst (defensivePosition w)) (snd (defensivePosition w))
              "Hold the wall")
    /\ orderOf c' "Flying"
       = Some (mkSquadOrder SquadOrder_Hold
                 (fst (defensivePosition w)) (snd (defensivePosition w))
                 "Hold the wall").

(** The claim as written: at the end of a frame that allocates, every
    combat unit (that is still a valid unit) is in a squad. *)
Definition no_unit_left_unassigned `{Game} : Prop :=
  forall w c c',
    reachable c -> Z.rem (getFrameCount w) 8 = 1 ->
    update w c = Some (tt, c') ->
    forall u, u ∈ _combatUnits c' -> IsValidUnit w u = true ->
              assigned (_squadData c') u.

(** What [updateIdleSquad] has made of the registry [sd] when it has walked
    the units [walked]: the other squads are as they were, the idle squad
    has grown by walked units that were in no squad, and every walked unit
    is in a squad. *)
Definition idled (sd sd' : gmap string Squad) (walked : list Unit) : Prop :=
  exclusive sd'
  /\ (forall n, n <> "Idle" -> sd' !! n = sd !! n)
  /\ (exists s s',
        sd !! "Idle" = Some s /\ sd' !! "Idle" = Some s'
        /\ squad_priority s' = squad_priority s
        /\ squad_order s' = squad_order s
        /\ squad_units s ⊆ squad_units s'
        /\ forall u, u ∈ squad_units s' ->
                     u ∈ squad_units s \/ (u ∈ walked /\ ~ assigned sd u))
  /\ (forall u, u ∈ walked -> assigned sd' u).

(** The claim as written: under a defensive posture the ground and the
    flying squad get the same order, at the front line, of kind
    hold-against-wall if there is a wall and plain hold if not. *)
Definition both_squads_hold_alike `{Game} : Prop :=
  forall w c c',
    Ready (_squadData c) -> _goAggressive c = false ->
    updateAttackSquads w c = Some (tt, c') ->
    exists ground flying,
      orderOf c' "Ground" = Some ground
      /\ orderOf c' "Flying" = Some flying
      /\ order_type ground
         = (if wall_exists w then SquadOrder_HoldWall else SquadOrder_Hold)
      /\ order_type flying
         = (if wall_exists w then SquadOrder_HoldWall else SquadOrder_Hold)
      /\ order_position ground = fst (defensivePosition w)
      /\ order_position flying = fst (defensivePosition w)
      /\ order_radius ground = snd (defensivePosition w)
      /\ order_radius flying = snd (defensivePosition w).

(** The claim as written: after [updateReconSquad] the recon squad weighs
    no more than the cap for the weight that is available. *)
Definition recon_weight_within_cap `{Game} : Prop :=
  forall w c c' recon,
    Ready (_squadData c) ->
    updateReconSquad w c = Some (tt, c') ->
    _squadData c' !! "Recon" = Some recon ->
    reconWeight w (in_order (squad_units recon))
    <= reconWeightLimit (reconWeight w (in_order (_combatUnits c'))).

(** * Concrete games *)

(** The tables of Brood War for the unit types above, on a map of 128 by
    128 tiles, with scout defense and worker defense switched on. *)
Definition BroodWar : Game := {|
  isWorker t :=
    match t with
    | Terran_SCV | Zerg_Drone | Protoss_Probe => true
    | _ => false
    end;
  isDetector t :=
    match t with
    | Terran_Science_Vessel | Terran_Missile_Turret | Zerg_Overlord
    | Zerg_Spore_Colony | Protoss_Observer | Protoss_Photon_Cannon => true
    | _ => false
    end;
  isBuilding t :=
    match t with
    | Terran_Missile_Turret | Terran_Command_Center | Zerg_Spore_Colony
    | Zerg_Sunken_Colony | Zerg_Hatchery | Protoss_Photon_Cannon
    | Protoss_Nexus => true
    | _ => false
    end;
  spaceProvided t :=
    match t with
    | Terran_Dropship | Protoss_Shuttle | Zerg_Overlord => 8
    | _ => 0
    end;
  spaceRequired t :=
    match t with
    | Terran_Marine | Terran_Medic | Terran_SCV | Zerg_Zergling | Zerg_Drone
    | Protoss_Probe => 1
    | Terran_Vulture | Zerg_Hydralisk | Protoss_Zealot | Protoss_Dark_Templar
    | Protoss_High_Templar => 2
    | Terran_Siege_Tank_Tank_Mode | Terran_Siege_Tank_Siege_Mode | Zerg_Lurker
    | Protoss_Dragoon | Protoss_Reaver => 4
    | _ => 255
    end;
  getID t :=
    match t with
    | Terran_Marine => 0 | Terran_Vulture => 2
    | Terran_Siege_Tank_Tank_Mode => 5 | Terran_SCV => 7 | Terran_Wraith => 8
    | Terran_Science_Vessel => 9 | Terran_Dropship => 11
    | Terran_Battlecruiser => 12 | Terran_Siege_Tank_Siege_Mode => 30
    | Terran_Medic => 34 | Zerg_Larva => 35 | Zerg_Zergling => 37
    | Zerg_Hydralisk => 38 | Zerg_Drone => 41 | Zerg_Overlord => 42
    | Zerg_Mutalisk => 43 | Zerg_Guardian => 44 | Zerg_Scourge => 47
    | Terran_Valkyrie => 58 | Protoss_Corsair => 60
    | Protoss_Dark_Templar => 61 | Zerg_Devourer => 62 | Protoss_Probe => 64
    | Protoss_Zealot => 65 | Protoss_Dragoon => 66
    | Protoss_High_Templar => 67 | Protoss_Shuttle => 69 | Protoss_Scout => 70
    | Protoss_Carrier => 72 | Protoss_Reaver => 83 | Protoss_Observer => 84
    | Zerg_Lurker => 103 | Terran_Command_Center => 106
    | Terran_Missile_Turret => 124 | Zerg_Hatchery => 131
    | Zerg_Spore_Colony => 144 | Zerg_Sunken_Colony => 146
    | Protoss_Nexus => 154 | Protoss_Photon_Cannon => 162
    end;
  maxHitPoints t :=
    match t with
    | Terran_Marine => 40 | Terran_Medic => 60 | Terran_Vulture => 80
    | Terran_Siege_Tank_Tank_Mode | Terran_Siege_Tank_Siege_Mode => 150
    | Terran_Wraith => 120 | Terran_Valkyrie => 200
    | Terran_Battlecruiser => 500 | Terran_Missile_Turret => 200
    | Terran_SCV => 60 | Terran_Dropship => 150
    | Terran_Science_Vessel => 200 | Terran_Command_Center => 1500
    | Zerg_Zergling => 35 | Zerg_Hydralisk => 80 | Zerg_Mutalisk => 120
    | Zerg_Scourge => 25 | Zerg_Devourer => 250 | Zerg_Overlord => 200
    | Zerg_Spore_Colony => 400 | Zerg_Sunken_Colony => 300
    | Zerg_Lurker => 125 | Zerg_Guardian => 150 | Zerg_Larva => 25
    | Zerg_Drone => 40 | Zerg_Hatchery => 1250
    | Protoss_Zealot => 100 | Protoss_Dragoon => 100
    | Protoss_Dark_Templar => 80 | Protoss_Corsair => 100
    | Protoss_Scout => 150 | Protoss_Carrier => 300 | Protoss_Observer => 40
    | Protoss_Photon_Cannon => 100 | Protoss_Probe => 20
    | Protoss_Reaver => 100 | Protoss_High_Templar => 40
    | Protoss_Shuttle => 80 | Protoss_Nexus => 750
    end;
  maxShields t :=
    match t with
    | Protoss_Zealot => 60 | Protoss_Dragoon => 80
    | Protoss_Dark_Templar => 40 | Protoss_Corsair => 80
    | Protoss_Scout => 100 | Protoss_Carrier => 150 | Protoss_Observer => 20
    | Protoss_Photon_Cannon => 100 | Protoss_Probe => 20
    | Protoss_Reaver => 80 | Protoss_High_Templar => 40
    | Protoss_Shuttle => 60 | Protoss_Nexus => 750
    | _ => 0
    end;
  TypeCanAttackGround t :=
    match t with
    | Terran_Siege_Tank_Tank_Mode | Terran_Siege_Tank_Siege_Mode
    | Zerg_Sunken_Colony | Zerg_Lurker | Zerg_Guardian
    | Protoss_Photon_Cannon | Protoss_Reaver => true
    | _ => false
    end;
  TypeCanAttackAir t :=
    match t with
    | Terran_Missile_Turret | Zerg_Spore_Colony | Protoss_Photon_Cannon => true
    | _ => false
    end;
  Positions_Invalid := mkPosition 32000 32000;
  isValid p :=
    (0 <=? pos_x p) && (pos_x p <? 4096) && (0 <=? pos_y p) && (pos_y p <? 4096);
  Config_Micro_ScoutDefenseRadius := 600;
  Config_Micro_WorkersDefendRush := true;
  Config_Micro_CombatRegroupRadius := 300
|}.

(** A frame on a small map: one region, region 0, around our main base
    (base 0) with every unit in it at distance 50 of everything; a neutral
    base (base 1) far away; a Terran enemy of whom one building is
    remembered.  Ground units attack ground and fliers attack air; every
    unit is unhurt, and the workers are free and carry nothing.  The frame
    number, the units, their types and whether they fly or are loaded,
    whether there is a wall and whether a drop is planned are the scene's
    own. *)
Definition scene (frame : Z) (ours enemies : gset Unit)
    (type : Unit -> UnitType) (flying loaded : Unit -> bool)
    (wall planned : bool) : World := {|
  getFrameCount := frame;
  combatUnits := ours;
  getType := type;
  unit_exists _ := true;
  isFlying := flying;
  isLoaded := loaded;
  isLifted _ := false;
  isAttacking _ := false;
  isCompleted _ := true;
  isPowered _ := true;
  isDetected _ := true;
  getPosition _ := mkPosition 100 100;
  getDistance _ _ := 50;
  CanAttackAir u := flying u;
  CanAttackGround u := negb (flying u);
  enemy_getUnits := enemies;
  self_getUnits := ours;
  enemy_getRace := Terran;
  self_getStartLocation := mkTile 3 3;
  getRegion _ := Some 0%nat;
  getRegion_at _ := Some 0%nat;
  getRegions := {[0%nat]};
  region_getCenter _ := mkPosition 200 200;
  getOccupiedRegions := {[0%nat]};
  getBaseLocations := {[0%nat; 1%nat]};
  base_getPosition b :=
    if (b =? 0)%nat then mkPosition 96 96 else mkPosition 3000 3000;
  base_getTilePosition b := if (b =? 0)%nat then mkTile 3 3 else mkTile 93 93;
  getBaseOwner b := if (b =? 0)%nat then Player_self else Player_neutral;
  getEnemyMainBaseLocation := None;
  getMyMainBaseLocation := 0%nat;
  getMyNaturalLocation := None;
  getNearbyForce _ := [];
  getUnitInfo :=
    [(90%nat, mkUnitInfo Terran_Command_Center (mkPosition 3500 3500) false)];
  getGroundTileDistance _ _ := 100;
  getLeastExplored _ := mkPosition 2000 2000;
  isVisible _ _ := false;
  MapGrid_getUnits _ _ := ∅;
  Random_next := 0;
  wall_exists := wall;
  wall_gapCenter := mkPosition 640 480;
  dropIsPlanned := planned;
  weHaveCombatUnits := true;
  IsValidUnit _ := true;
  getHitPoints u := @maxHitPoints BroodWar (type u);
  getShields u := @maxShields BroodWar (type u);
  isCarryingGas _ := false;
  isCarryingMinerals _ := false;
  WorkerManager_isFree _ := true;
  squad_hasDetector _ _ := false;
  squad_hasCombatUnits _ us := bool_decide (us ≠ ∅);
  squad_hasGround _ us := existsb (fun u => negb (flying u)) (in_order us);
  squad_hasAir _ us := existsb flying (in_order us);
  squad_canAttackAir _ us := existsb flying (in_order us);
  squad_canAttackGround _ us :=
    existsb (fun u => negb (flying u)) (in_order us)
|}.

(** What drives the commander: a frame of the game, or the strategy layer
    setting the posture, pulling workers or releasing them. *)
Inductive Event : Type :=
  | Frame (w : World)
  | Posture (aggressive : bool)
  | PullWorkers (w : World) (n : Z)
  | ReleaseWorkers (w : World).

(** The state a member function leaves; the state it started from if it
    stopped on a fatal assertion. *)
Definition run (m : M unit) (c : CombatCommander) : CombatCommander :=
  match m c with
  | Some (_, c') => c'
  | None => c
  end.

Definition handle `{Game} (c : CombatCommander) (e : Event) : CombatCommander :=
  match e with
  | Frame w => run (update w) c
  | Posture aggressive => run (setAggression aggressive) c
  | PullWorkers w n => run (pullWorkers w n) c
  | ReleaseWorkers w => run (releaseWorkers w) c
  end.

(** The commander after the events [es], from its construction. *)
Definition play `{Game} (es : list Event) : CombatCommander :=
  fold_left handle es CombatCommander_new.

(** Thirteen marines and two medics, and nothing else going on. *)
Definition infantry_type (u : Unit) : UnitType :=
  if (u <? 14)%nat then Terran_Marine else Terran_Medic.

Definition infantry (frame : Z) : World :=
  scene frame (list_to_set (seq 1 15)) ∅ infantry_type
        (fun _ => false) (fun _ => false) false false.

(** A shuttle (unit 1) and four dark templars (units 2 to 5) with a drop
    planned, and a zergling (unit 50) in our region; the templars are loaded
    or not. *)
Definition raiders_type (u : Unit) : UnitType :=
  if (u =? 1)%nat then Protoss_Shuttle
  else if (u =? 50)%nat then Zerg_Zergling
  else Protoss_Dark_Templar.

Definition raiders (frame : Z) (loaded : bool) : World :=
  scene frame {[1%nat; 2%nat; 3%nat; 4%nat; 5%nat]} {[50%nat]} raiders_type
        (fun u => (u =? 1)%nat) (fun u => loaded && negb (u =? 1)%nat)
        false true.

(** Probes of ours; an enemy zergling (unit 50) in our region, or no
    enemy. *)
Definition probes_type (u : Unit) : UnitType :=
  if (u =? 50)%nat then Zerg_Zergling else Protoss_Probe.

Definition probes (frame : Z) (ours enemies : gset Unit) : World :=
  scene frame ours enemies probes_type
        (fun _ => false) (fun _ => false) false false.

(** A dragoon (unit 1) of ours; an enemy probe (unit 50) scouting our
    region, or no enemy. *)
Definition scouted_type (u : Unit) : UnitType :=
  if (u =? 50)%nat then Protoss_Probe else Protoss_Dragoon.

Definition scouted (frame : Z) (enemies : gset Unit) : World :=
  scene frame {[1%nat]} enemies scouted_type
        (fun _ => false) (fun _ => false) false false.

(** Two zealots and a corsair behind a wall. *)
Definition walled_type (u : Unit) : UnitType :=
  if (u =? 3)%nat then Protoss_Corsair else Protoss_Zealot.

Definition walled (frame : Z) : World :=
  scene frame {[1%nat; 2%nat; 3%nat]} ∅ walled_type
        (fun u => (u =? 3)%nat) (fun _ => false) true false.

(** The squad of that name, or an empty idle squad if there is none. *)
Definition squadOf (c : CombatCommander) (name : string) : Squad :=
  default (mkSquad (mkSquadOrder SquadOrder_Idle (mkPosition 0 0) 0 "None")
                   IdlePriority ∅ 0 false)
          (_squadData c !! name).

(** States of the commander in these games. *)

Section Games.

#[local] Existing Instance BroodWar.

(** A probe of ours is pulled against a zergling in our base under a
    defensive posture; eight frames later the zergling is gone. *)
Definition probe_pulled : CombatCommander :=
  play [Posture false; Frame (probes 1 {[1%nat]} {[50%nat]})].

(** Thirteen marines and two medics before the first allocation. *)
Definition infantry_arrived : CombatCommander := play [Frame (infantry 0)].

(** The drop squad collecting, and loading. *)
Definition raiders_collecting : CombatCommander :=
  play [Frame (raiders 1 false)].

Definition raiders_loading : CombatCommander :=
  play [Frame (raiders 1 false); Frame (raiders 9 false)].

(** Two zealots and a corsair arrived behind the wall, the posture
    defensive. *)
Definition wall_manned : CombatCommander :=
  play [Posture false; Frame (walled 0)].

(** A dragoon in the ground squad. *)
Definition dragoon_out : CombatCommander := play [Frame (scouted 1 ∅)].

End Games.

(** * More of the commander *)

Section Helpers.

Context `{Game}.

(** We're being defensive. Get the location to defend. *)
Definition getDefenseLocation (w : World) : Position :=
  let base := getMyMainBaseLocation w in
  let base :=
    match getMyNaturalLocation w with
    | Some natural =>
        if bool_decide (Player_self = getBaseOwner w natural)
        then natural else base
    | None => base
    end in
  base_getPosition w base.

(** The locals of [findClosestWorkerToTarget]. *)
Record ClosestWorker : Type := mkClosestWorker {
  closestMineralWorker : option Unit;
  closestDist : Z
}.

(** Choose one worker to pull for scout defense.  [unit->getDistance(target)]
    is the distance of two units, here [distanceTo unit target].  The body of
    the loop writes its local [dist] where it means to write [closestDist];
    [closestDist] stays what it was. *)
Definition findClosestWorkerToTarget (w : World)
    (distanceTo : Unit -> Unit -> Z) (unitsToAssign : gset Unit)
    (target : option Unit) : M (option Unit) :=
  UAB_ASSERT (bool_decide (is_Some target)) ;;
  match target with
  | None => ret None
  | Some target =>
      let l :=
        fold_left
          (fun (l : ClosestWorker) unit =>
             if isWorker (getType w unit) && WorkerManager_isFree w unit then
               let dist := distanceTo unit target in
               let dist := if isCarryingMinerals w unit then dist + 96 else dist in
               if dist <? closestDist l
               then mkClosestWorker (Some unit) (closestDist l)
               else l
             else l)
          (in_order unitsToAssign)
          (mkClosestWorker None (Config_Micro_ScoutDefenseRadius + 128)) in
      ret (closestMineralWorker l)
  end.

End Helpers.

(** The enemy base that [getAttackLocation] takes first: the enemy bases
    before it in the walk score less, those after it no more. *)
Definition weakest `{Game} (w : World) (hasGround hasAir : bool)
    (bases : list BaseLocation) (base : BaseLocation) : Prop :=
  getBaseOwner w base = Player_enemy
  /\ -99999 < baseScore w hasGround hasAir base
  /\ exists before after,
       bases = before ++ base :: after
       /\ (forall b, b ∈ before -> getBaseOwner w b = Player_enemy ->
                     baseScore w hasGround hasAir b
                     < baseScore w hasGround hasAir base)
       /\ (forall b, b ∈ after -> getBaseOwner w b = Player_enemy ->
                     baseScore w hasGround hasAir b
                     <= baseScore w hasGround hasAir base).

(** A worker that [findClosestWorkerToTarget] may return. *)
Definition pullable `{Game} (w : World) (distanceTo : Unit -> Unit -> Z)
    (target unit : Unit) : bool :=
  isWorker (getType w unit) && WorkerManager_isFree w unit
  && ((if isCarryingMinerals w unit
       then distanceTo unit target + 96 else distanceTo unit target)
      <? Config_Micro_ScoutDefenseRadius + 128).




(** A combat unit that may join a defense squad as the kind of defender
    asked for. *)
Definition defender `{Game} (w : World) (c : CombatCommander)
    (defenseSquad : Squad) (flyingDefender : bool) (unit : Unit) : bool :=
  (if flyingDefender then CanAttackAir w unit else CanAttackGround w unit)
  && canAssign (_squadData c) unit defenseSquad.

(** The candidate found nearest, below the distance 99999 from which on
    none is found: the candidates walked before it are farther, those after
    it not nearer. *)
Definition nearest (dist : Unit -> Z) (candidates : list Unit)
    (found : option Unit) : Prop :=
  match found with
  | Some unit =>
      dist unit < 99999
      /\ exists before after,
           candidates = before ++ unit :: after
           /\ (forall v, v ∈ before -> dist unit < dist v)
           /\ (forall v, v ∈ after -> dist unit <= dist v)
  | None => forall v, v ∈ candidates -> 99999 <= dist v
  end.

(** A defense squad that is out faces an enemy: a squad with units and a
    Defend order has an enemy unit within the radius of its order. *)
Definition faces_enemy (w : World) (s : Squad) : Prop :=
  order_type (squad_order s) = SquadOrder_Defend ->
  squad_units s <> ∅ ->
  exists enemy,
    enemy ∈ enemy_getUnits w
    /\ getDistance w enemy (order_position (squad_order s))
       < order_radius (squad_order s).

(** The recon squad weighs [L]. *)
Definition weighs `{Game} (w : World) (L : Z) (c : CombatCommander) : Prop :=
  exists recon,
    _squadData c !! "Recon" = Some recon
    /\ reconWeight w (in_order (squad_units recon)) = L.

(** The room that the units of a list need in a transport, and a drop squad
    that has room for [R] more. *)
Definition cargoOf `{Game} (w : World) (l : list Unit) : Z :=
  foldr Z.add 0
    (List.map (fun unit => spaceRequired (getType w unit))
       (List.filter (isCargo w) l)).

Definition room `{Game} (w : World) (R : Z) (c : CombatCommander) : Prop :=
  exists drop,
    _squadData c !! "Drop" = Some drop
    /\ 0 <= R <= 8 - cargoRequired w (squad_units drop).

(** The unit is in the same squads of [c'] as of [c]. *)
Definition untouched (u : Unit) (c c' : CombatCommander) : Prop :=
  forall n, squadContains (_squadData c') u n = squadContains (_squadData c) u n.


(** * OpponentModel.cpp *)

(** [GameRecord], [OpeningPlan] and the configuration are declared in other
    files; this is what the opponent model uses of them. *)
Class Opponent : Type := {
  GameRecord : Type;
  OpeningPlan : Type;
  OpeningPlan_eq :: EqDecision OpeningPlan;
  OpeningPlan_countable :: Countable OpeningPlan;
  OpeningPlan_Unknown : OpeningPlan;
  OpeningPlanString : OpeningPlan -> string;
  (* [a.sameMatchup(b)] and [a.distance(b)] *)
  sameMatchup : GameRecord -> GameRecord -> bool;
  GameRecord_distance : GameRecord -> GameRecord -> Z;
  record_getEnemyPlan : GameRecord -> OpeningPlan;
  record_getExpectedEnemyPlan : GameRecord -> OpeningPlan;
  record_getWin : GameRecord -> bool;
  record_getOpeningName : GameRecord -> string;
  record_getMapName : GameRecord -> string;
  Config_IO_WriteOpponentModel : bool;
  Config_IO_MaxGameRecords : Z
}.

Section OpponentModelCpp.

Context `{Opponent}.

(** The fields of the opponent model that these member functions use.  The
    records are held by pointer; [_bestMatch] is one of them or null. *)
Record OpponentModel : Type := mkOpponentModel {
  _pastGameRecords : list GameRecord;
  _gameRecord : GameRecord;
  _bestMatch : option GameRecord;
  _singleStrategy : bool;
  _expectedEnemyPlan : OpeningPlan;
  _recommendedOpening : string
}.

Definition set_singleStrategy (b : bool) (m : OpponentModel) : OpponentModel :=
  mkOpponentModel (_pastGameRecords m) (_gameRecord m) (_bestMatch m) b
    (_expectedEnemyPlan m) (_recommendedOpening m).

Definition set_bestMatch (r : option GameRecord) (m : OpponentModel)
    : OpponentModel :=
  mkOpponentModel (_pastGameRecords m) (_gameRecord m) r (_singleStrategy m)
    (_expectedEnemyPlan m) (_recommendedOpening m).

Definition set_recommendedOpening (s : string) (m : OpponentModel)
    : OpponentModel :=
  mkOpponentModel (_pastGameRecords m) (_gameRecord m) (_bestMatch m)
    (_singleStrategy m) (_expectedEnemyPlan m) s.

(** A value converted to [int]. *)
Definition to_int (z : Z) : Z := (z + 2 ^ 31) mod 2 ^ 32 - 2 ^ 31.

(** The locals of [considerSingleStrategy]. *)
Record PlansSeen : Type := mkPlansSeen {
  knownPlan : Z;
  unknownPlan : Z;
  plansSeen : gset OpeningPlan
}.

(** Does the opponent seem to play the same strategy every game?  If we're
    pretty sure, set [_singleStrategy] to true. *)
Definition considerSingleStrategy (m : OpponentModel) : OpponentModel :=
  (* Gather info. *)
  let l :=
    fold_left
      (fun (l : PlansSeen) record =>
         if sameMatchup (_gameRecord m) record then
           let plan := record_getEnemyPlan record in
           if bool_decide (plan = OpeningPlan_Unknown)
           then mkPlansSeen (knownPlan l) (unknownPlan l + 1) (plansSeen l)
           else mkPlansSeen (knownPlan l + 1) (unknownPlan l)
                            ({[plan]} ∪ plansSeen l)
         else l)
      (_pastGameRecords m) (mkPlansSeen 0 0 ∅) in
  (* Decide.  If we don't recognize the majority of plans, we're not sure. *)
  if (2 <=? knownPlan l) && bool_decide (size (plansSeen l) = 1%nat)
     && (unknownPlan l <=? knownPlan l)
  then set_singleStrategy true m
  else m.

(** We expect the enemy to follow the given opening plan.  Recommend an
    opening to counter that plan. *)
Definition getOpeningForEnemyPlan (enemyPlan : OpeningPlan) : string :=
  if bool_decide (enemyPlan = OpeningPlan_Unknown) then EmptyString
  else String.append "Counter " (OpeningPlanString enemyPlan).

(** The counters of [considerOpenings]; the weighted values are not
    initialized and not read before the function returns. *)
Record OpeningInfoType : Type := mkOpeningInfoType {
  sameWins : Z;
  sameGames : Z;
  otherWins : Z;
  otherGames : Z
}.

Record OpeningTotals : Type := mkOpeningTotals {
  totalWins : Z;
  totalGames : Z;
  openingInfo : gmap string OpeningInfoType;
  planInfo : OpeningInfoType
}.

(** Count a game in the [same] or in the [other] counters. *)
Definition countGame (same win : bool) (info : OpeningInfoType)
    : OpeningInfoType :=
  if same then
    mkOpeningInfoType (if win then sameWins info + 1 else sameWins info)
      (sameGames info + 1) (otherWins info) (otherGames info)
  else
    mkOpeningInfoType (sameWins info) (sameGames info)
      (if win then otherWins info + 1 else otherWins info)
      (otherGames info + 1).

(** Set [_recommendedOpening], the opening to play.  [None] is a failed
    assertion.  The function returns after the first assignment; what
    follows the [return] in the source is not reached. *)
Definition considerOpenings (mapFileName : string) (m : OpponentModel)
    : option OpponentModel :=
  (* Gather basic information from the game records. *)
  let t :=
    fold_left
      (fun (t : OpeningTotals) record =>
         if sameMatchup (_gameRecord m) record then
           let win := record_getWin record in
           let name := record_getOpeningName record in
           (* [openingInfo[name]] makes the entry if there is none *)
           let info := default (mkOpeningInfoType 0 0 0 0) (openingInfo t !! name) in
           mkOpeningTotals
             (if win then totalWins t + 1 else totalWins t)
             (totalGames t + 1)
             (<[name :=
                  countGame (String.eqb (record_getMapName record) mapFileName)
                            win info]> (openingInfo t))
             (countGame
                (bool_decide (record_getExpectedEnemyPlan record
                              = record_getEnemyPlan record))
                win (planInfo t))
         else t)
      (_pastGameRecords m)
      (mkOpeningTotals 0 0 ∅ (mkOpeningInfoType 0 0 0 0)) in
  if negb (totalWins t =? sameWins (planInfo t) + otherWins (planInfo t))
  then None
  else if negb (totalGames t
                =? sameGames (planInfo t) + otherGames (planInfo t))
  then None
  else
    let enemyPlan := _expectedEnemyPlan m in
    Some (set_recommendedOpening (getOpeningForEnemyPlan enemyPlan) m).

(** Find the past game record which best matches the current game and
    remember it. *)
Definition setBestMatch (m : OpponentModel) : OpponentModel :=
  let best :=
    fold_left
      (fun (best : Z * option GameRecord) record =>
         let '(bestScore, bestRecord) := best in
         let score := GameRecord_distance (_gameRecord m) record in
         if negb (score =? -1)
            && (negb (bool_decide (is_Some bestRecord)) || (score <? bestScore))
         then (score, Some record)
         else best)
      (_pastGameRecords m) (-1, None) in
  set_bestMatch (snd best) m.

(** The game records that [write] puts into the opponent model file, in
    their order.  [bad] is [outFile.bad()]. *)
Definition write (bad : bool) (m : OpponentModel) : list GameRecord :=
  if Config_IO_WriteOpponentModel then
    if bad then [] else
    let outFile :=
      fold_left (fun outFile record => outFile ++ [record])
                (_pastGameRecords m) [] in
    (* The number of initial game records to skip over without rewriting. *)
    let size := Z.of_nat (length (_pastGameRecords m)) in
    let nToSkip :=
      if Config_IO_MaxGameRecords <=? to_int size
      then to_int (size - Config_IO_MaxGameRecords + 1)
      else 0 in
    (* Rewrite any old records that were read in. *)
    let '(_, outFile) :=
      fold_left
        (fun (acc : Z * list GameRecord) record =>
           let '(nToSkip, outFile) := acc in
           if 0 <? nToSkip then (nToSkip - 1, outFile)
           else (nToSkip, outFile ++ [record]))
        (_pastGameRecords m) (nToSkip, outFile) in
    (* And write the record of this game. *)
    outFile ++ [_gameRecord m]
  else [].

End OpponentModelCpp.

(** The record found by [setBestMatch]: the first of the records at the
    least distance, the distance -1 apart. *)
Definition best_match `{Opponent} (current : GameRecord)
    (records : list GameRecord) (found : option GameRecord) : Prop :=
  let dist := GameRecord_distance current in
  match found with
  | Some record =>
      dist record <> -1
      /\ exists before after,
           records = before ++ record :: after
           /\ (forall r, r ∈ before -> dist r = -1 \/ dist record < dist r)
           /\ (forall r, r ∈ after -> dist r = -1 \/ dist record <= dist r)
  | None => forall r, r ∈ records -> dist r = -1
  end.

(** The records of the same matchup whose enemy plan is known, and those
    whose enemy plan is not. *)
Definition knownGames `{Opponent} (m : OpponentModel) : list GameRecord :=
  List.filter
    (fun record =>
       sameMatchup (_gameRecord m) record
       && negb (bool_decide (record_getEnemyPlan record = OpeningPlan_Unknown)))
    (_pastGameRecords m).

Definition unknownGames `{Opponent} (m : OpponentModel) : list GameRecord :=
  List.filter
    (fun record =>
       sameMatchup (_gameRecord m) record
       && bool_decide (record_getEnemyPlan record = OpeningPlan_Unknown))
    (_pastGameRecords m).


(** The same frame when the enemy has taken the other base. *)
Definition expanded (w : World) : World := {|
  getFrameCount := getFrameCount w;
  combatUnits := combatUnits w;
  getType := getType w;
  unit_exists := unit_exists w;
  isFlying := isFlying w;
  isLoaded := isLoaded w;
  isLifted := isLifted w;
  isAttacking := isAttacking w;
  isCompleted := isCompleted w;
  isPowered := isPowered w;
  isDetected := isDetected w;
  getPosition := getPosition w;
  getDistance := getDistance w;
  CanAttackAir := CanAttackAir w;
  CanAttackGround := CanAttackGround w;
  enemy_getUnits := enemy_getUnits w;
  self_getUnits := self_getUnits w;
  enemy_getRace := enemy_getRace w;
  self_getStartLocation := self_getStartLocation w;
  getRegion := getRegion w;
  getRegion_at := getRegion_at w;
  getRegions := getRegions w;
  region_getCenter := region_getCenter w;
  getOccupiedRegions := getOccupiedRegions w;
  getBaseLocations := getBaseLocations w;
  base_getPosition := base_getPosition w;
  base_getTilePosition := base_getTilePosition w;
  getBaseOwner b := if (b =? 0)%nat then Player_self else Player_enemy;
  getEnemyMainBaseLocation := getEnemyMainBaseLocation w;
  getMyMainBaseLocation := getMyMainBaseLocation w;
  getMyNaturalLocation := getMyNaturalLocation w;
  getNearbyForce := getNearbyForce w;
  getUnitInfo := getUnitInfo w;
  getGroundTileDistance := getGroundTileDistance w;
  getLeastExplored := getLeastExplored w;
  isVisible := isVisible w;
  MapGrid_getUnits := MapGrid_getUnits w;
  Random_next := Random_next w;
  wall_exists := wall_exists w;
  wall_gapCenter := wall_gapCenter w;
  dropIsPlanned := dropIsPlanned w;
  weHaveCombatUnits := weHaveCombatUnits w;
  IsValidUnit := IsValidUnit w;
  getHitPoints := getHitPoints w;
  getShields := getShields w;
  isCarryingGas := isCarryingGas w;
  isCarryingMinerals := isCarryingMinerals w;
  WorkerManager_isFree := WorkerManager_isFree w;
  squad_hasDetector := squad_hasDetector w;
  squad_hasCombatUnits := squad_hasCombatUnits w;
  squad_hasGround := squad_hasGround w;
  squad_hasAir := squad_hasAir w;
  squad_canAttackAir := squad_canAttackAir w;
  squad_canAttackGround := squad_canAttackGround w
|}.

(** An opponent met four times before, in games numbered 1 to 4; game 5 is
    the current one.  Every game is of the same matchup; the enemy plan was
    plan 1 in the games 1 and 3, plan 2 in game 2, and not recognized in
    game 4; three records are kept. *)
Definition rival : Opponent := {|
  GameRecord := nat;
  OpeningPlan := nat;
  OpeningPlan_eq := Nat.eq_dec;
  OpeningPlan_countable := nat_countable;
  OpeningPlan_Unknown := 0%nat;
  OpeningPlanString plan := if (plan =? 1)%nat then "Fast rush" else "Turtle";
  sameMatchup _ _ := true;
  GameRecord_distance a b := if (b =? 4)%nat then -1 else Z.of_nat (a - b);
  record_getEnemyPlan r :=
    if (r =? 4)%nat then 0%nat else if (r =? 2)%nat then 2%nat else 1%nat;
  record_getExpectedEnemyPlan _ := 1%nat;
  record_getWin r := Nat.even r;
  record_getOpeningName r := if (r =? 1)%nat then "9-9Gate" else "ForgeExpand";
  record_getMapName _ := "(4)Python.scx";
  Config_IO_WriteOpponentModel := true;
  Config_IO_MaxGameRecords := 3
|}.

Definition rival_model : @OpponentModel rival :=
  @mkOpponentModel rival [1%nat; 2%nat; 3%nat; 4%nat] 5%nat None false 1%nat
                   EmptyString.

(** * Rules for the member functions *)

Section Rules.

Context {F : Prop}.

Lemma wpx_ret {A} (a : A) Q c : wpx F (ret a) Q c <-> Q a c.
Proof. reflexivity. Qed.

Lemma wpx_bind {A B} (m : M A) (f : A -> M B) Q c :
  wpx F (bind m f) Q c <-> wpx F m (fun a c' => wpx F (f a) Q c') c.
Proof. unfold wpx, bind. destruct (m c) as [[a c']|]; reflexivity. Qed.

Lemma wpx_gets {A} (g : CombatCommander -> A) Q c :
  wpx F (gets g) Q c <-> Q (g c) c.
Proof. reflexivity. Qed.

Lemma wpx_modify g Q c : wpx F (modify g) Q c <-> Q tt (g c).
Proof. reflexivity. Qed.

Lemma wpx_fatal {A} (Q : A -> CombatCommander -> Prop) c :
  wpx F fatal Q c <-> F.
Proof. reflexivity. Qed.

Lemma wpx_mono {A} (m : M A) (Q Q' : A -> CombatCommander -> Prop) c :
  wpx F m Q c -> (forall a c', Q a c' -> Q' a c') -> wpx F m Q' c.
Proof. unfold wpx. destruct (m c) as [[a c']|]; auto. Qed.

Lemma wpx_when (b : bool) (m : M unit) Q c :
  wpx F (when b m) Q c <-> if b then wpx F m Q c else Q tt c.
Proof. destruct b; reflexivity. Qed.

Lemma wpx_andM (b : bool) (m : M bool) Q c :
  wpx F (andM b m) Q c <-> if b then wpx F m Q c else Q false c.
Proof. destruct b; reflexivity. Qed.

(** A loop keeps what every round of its body keeps. *)
Lemma wpx_for_each {A B} (I : B -> CombatCommander -> Prop) (l : list A)
    (body : A -> B -> M (LoopStep B)) b c :
  I b c ->
  (forall x b c, x ∈ l -> I b c ->
     wpx F (body x b) (fun r c' => I (step_val r) c') c) ->
  wpx F (for_each l body b) I c.
Proof.
  revert b c. induction l as [|x l IH]; intros b c Hb Hbody; simpl.
  - exact Hb.
  - apply wpx_bind. eapply wpx_mono.
    + apply Hbody; [left | exact Hb].
    + intros [b'|b'] c' Hr; simpl in *.
      * apply IH; [exact Hr |]. intros y b0 c0 Hy. apply Hbody. by right.
      * exact Hr.
Qed.

Lemma wpx_for_ {A} (I : CombatCommander -> Prop) (l : list A)
    (body : A -> M unit) c :
  I c ->
  (forall x c, x ∈ l -> I c -> wpx F (body x) (fun _ c' => I c') c) ->
  wpx F (for_ l body) (fun _ c' => I c') c.
Proof.
  revert c. induction l as [|x l IH]; intros c Hc Hbody; simpl.
  - exact Hc.
  - apply wpx_bind. eapply wpx_mono.
    + apply Hbody; [left | exact Hc].
    + intros [] c' Hr. apply IH; [exact Hr |].
      intros y c0 Hy. apply Hbody. by right.
Qed.

(** The same, with the part of the container already walked. *)
Lemma wpx_for_walked {A} (I : list A -> CombatCommander -> Prop) (l : list A)
    (body : A -> M unit) c :
  I [] c ->
  (forall walked x c, I walked c ->
     wpx F (body x) (fun _ c' => I (walked ++ [x]) c') c) ->
  wpx F (for_ l body) (fun _ c' => I l c') c.
Proof.
  intros H0 Hbody.
  assert (G : forall rest walked c,
             I walked c ->
             wpx F (for_ rest body) (fun _ c' => I (walked ++ rest) c') c).
  { induction rest as [|x rest IH]; intros walked c0 Hw; simpl.
    - by rewrite app_nil_r.
    - apply wpx_bind. eapply wpx_mono; [by apply Hbody |].
      intros [] c' Hr. specialize (IH _ _ Hr).
      by rewrite <- app_assoc in IH. }
  apply (G l [] c H0).
Qed.

(** A [while] loop that keeps [I] and whose rounds decrease [V] ends within
    its fuel. *)
Lemma wpx_while {S} (I : S -> CombatCommander -> Prop) (V : S -> nat)
    (fuel : nat) (body : S -> M (LoopStep S)) s c :
  I s c -> (V s < fuel)%nat ->
  (forall s c, I s c ->
     wpx F (body s)
       (fun r c' => match r with
                    | Next s' => I s' c' /\ (V s' < V s)%nat
                    | Break s' => I s' c'
                    end) c) ->
  wpx F (while_ fuel body s) I c.
Proof.
  revert s c. induction fuel as [|fuel IH]; intros s c Hs Hv Hbody; [lia |].
  simpl. apply wpx_bind. eapply wpx_mono; [by apply Hbody |].
  intros [s'|s'] c' Hr; simpl in *.
  - destruct Hr as [Hi Hlt]. apply IH; [done | lia | done].
  - exact Hr.
Qed.

End Rules.

(** What holds on every ending and an ending that exists give an ending on
    which both hold. *)
Lemma wp_wlp {A} (m : M A) (Q Q' : A -> CombatCommander -> Prop) c :
  wp m Q c -> wlp m Q' c -> wp m (fun a c' => Q a c' /\ Q' a c') c.
Proof. unfold wpx. destruct (m c) as [[a c']|]; auto. Qed.

Lemma wp_run {A} (m : M A) (Q : A -> CombatCommander -> Prop) c :
  wp m Q c <-> exists a c', m c = Some (a, c') /\ Q a c'.
Proof.
  unfold wpx. destruct (m c) as [[a c']|]; split.
  - intros HQ. by exists a, c'.
  - intros (a0 & c0 & Heq & HQ). by simplify_eq.
  - done.
  - intros (a0 & c0 & Heq & HQ). done.
Qed.

Lemma wlp_run {A} (m : M A) (Q : A -> CombatCommander -> Prop) c :
  wlp m Q c <-> forall a c', m c = Some (a, c') -> Q a c'.
Proof.
  unfold wpx. destruct (m c) as [[a c']|]; split; try done.
  - intros HQ a0 c0 Heq. by simplify_eq.
  - intros HQ. by apply HQ.
Qed.

(** * The registry invariant *)

Section Registry.

Context `{Game}.

Lemma elem_of_in_order (us : gset nat) u : u ∈ in_order us <-> u ∈ us.
Proof.
  unfold in_order. rewrite merge_sort_Permutation. apply elem_of_elements.
Qed.

Lemma NoDup_in_order (us : gset nat) : NoDup (in_order us).
Proof.
  unfold in_order. rewrite merge_sort_Permutation. apply NoDup_elements.
Qed.

Lemma elem_of_squadNames sd n : n ∈ squadNames sd <-> is_Some (sd !! n).
Proof.
  unfold squadNames. rewrite merge_sort_Permutation, list_elem_of_fmap.
  split.
  - intros ([n' s] & -> & Hin). apply elem_of_map_to_list in Hin. by exists s.
  - intros [s Hs]. exists (n, s). split; [done |]. by apply elem_of_map_to_list.
Qed.

Lemma getUnitSquad_Some sd u p :
  getUnitSquad sd u = Some p ->
  exists s, sd !! p = Some s /\ u ∈ squad_units s.
Proof.
  unfold getUnitSquad. intros Hf. apply find_some in Hf as [_ Hc].
  unfold squadContains in Hc. destruct (sd !! p) as [s|]; [|done].
  exists s. split; [done |]. by apply bool_decide_eq_true in Hc.
Qed.

Lemma getUnitSquad_None sd u :
  getUnitSquad sd u = None ->
  forall n s, sd !! n = Some s -> u ∉ squad_units s.
Proof.
  unfold getUnitSquad. intros Hf n s Hn Hu.
  assert (Hin : In n (squadNames sd)).
  { apply list_elem_of_In, elem_of_squadNames. by exists s. }
  pose proof (find_none _ _ Hf n Hin) as Hc.
  unfold squadContains in Hc. rewrite Hn in Hc.
  by apply bool_decide_eq_false in Hc.
Qed.

(** Squads that shrink stay apart. *)
Lemma exclusive_shrink sd sd' :
  (forall n s', sd' !! n = Some s' ->
     exists s, sd !! n = Some s /\ squad_units s' ⊆ squad_units s) ->
  exclusive sd -> exclusive sd'.
Proof.
  intros Hsub Hex n1 n2 s1 s2 u H1 H2 Hu1 Hu2.
  destruct (Hsub _ _ H1) as (t1 & Ht1 & Hs1).
  destruct (Hsub _ _ H2) as (t2 & Ht2 & Hs2).
  eapply (Hex n1 n2 t1 t2 u); [done | done | set_solver | set_solver].
Qed.

Lemma exclusive_alter_shrink (f : gset Unit -> gset Unit) r sd :
  (forall us, f us ⊆ us) ->
  exclusive sd -> exclusive (alter (with_units f) r sd).
Proof.
  intros Hf. apply exclusive_shrink. intros n s' Hn.
  rewrite lookup_alter in Hn. case_decide; simplify_eq.
  - destruct (sd !! n) as [s|] eqn:Hs; simplify_eq/=.
    exists s. split; [done | apply Hf].
  - by exists s'.
Qed.

(** A unit that is nowhere else may join a squad. *)
Lemma exclusive_add sd u r :
  exclusive sd -> only_in sd u r ->
  exclusive (alter (with_units (fun us => us ∪ {[u]})) r sd).
Proof.
  intros Hex Honly n1 n2 s1 s2 v H1 H2 Hv1 Hv2.
  destruct (decide (v = u)) as [->|Hne].
  - assert (G : forall n s, alter (with_units (fun us => us ∪ {[u]})) r sd !! n
                            = Some s -> u ∈ squad_units s -> n = r).
    { intros n s Hn Hu. rewrite lookup_alter in Hn.
      case_decide; [done |]. by eapply Honly. }
    rewrite (G _ _ H1 Hv1), (G _ _ H2 Hv2). done.
  - assert (G : forall n s, alter (with_units (fun us => us ∪ {[u]})) r sd !! n
                            = Some s -> v ∈ squad_units s ->
                            exists t, sd !! n = Some t /\ v ∈ squad_units t).
    { intros n s Hn Hv. rewrite lookup_alter in Hn. case_decide.
      - subst n. destruct (sd !! r) as [t|]; simplify_eq/=.
        exists t. set_solver.
      - by exists s. }
    destruct (G _ _ H1 Hv1) as (t1 & Ht1 & Hu1).
    destruct (G _ _ H2 Hv2) as (t2 & Ht2 & Hu2).
    by eapply (Hex n1 n2 t1 t2 v).
Qed.

Lemma only_in_removed sd u r :
  exclusive sd ->
  only_in (match getUnitSquad sd u with
           | Some previous => alter (with_units (fun us => us ∖ {[u]})) previous sd
           | None => sd
           end) u r.
Proof.
  intros Hex n s Hn Hu. exfalso.
  destruct (getUnitSquad sd u) as [p|] eqn:Hp.
  - apply getUnitSquad_Some in Hp as (sp & Hsp & Hup).
    rewrite lookup_alter in Hn. case_decide; simplify_eq.
    + rewrite Hsp in Hn. simplify_eq/=. set_solver.
    + by pose proof (Hex _ _ _ _ _ Hn Hsp Hu Hup).
  - by eapply getUnitSquad_None.
Qed.

Lemma exclusive_reassign sd u r : exclusive sd -> exclusive (reassign u r sd).
Proof.
  intros Hex. unfold reassign. apply exclusive_add.
  - destruct (getUnitSquad sd u); [|done].
    apply exclusive_alter_shrink; [set_solver | done].
  - by apply only_in_removed.
Qed.

End Registry.

(** ** Squads keep their order and priority *)

Section Shape.

Context `{Game}.

Lemma same_shape_refl sd : same_shape sd sd.
Proof. done. Qed.

Lemma same_shape_trans sd1 sd2 sd3 :
  same_shape sd1 sd2 -> same_shape sd2 sd3 -> same_shape sd1 sd3.
Proof. intros H12 H23 n. by rewrite H23, H12. Qed.

Lemma same_shape_alter_units f r sd :
  same_shape sd (alter (with_units f) r sd).
Proof.
  intros n. rewrite lookup_alter. case_decide; [subst n|done].
  by destruct (sd !! r).
Qed.

Lemma same_shape_reassign u r sd : same_shape sd (reassign u r sd).
Proof.
  unfold reassign. eapply same_shape_trans; [|apply same_shape_alter_units].
  destruct (getUnitSquad sd u);
    [apply same_shape_alter_units | apply same_shape_refl].
Qed.

Lemma same_shape_is_Some sd sd' n :
  same_shape sd sd' -> is_Some (sd !! n) -> is_Some (sd' !! n).
Proof.
  intros Hs [s Hn]. specialize (Hs n). rewrite Hn in Hs.
  destruct (sd' !! n); [by eexists | done].
Qed.

Lemma same_shape_Ready sd sd' :
  same_shape sd sd' -> exclusive sd' -> Ready sd -> Ready sd'.
Proof.
  intros Hs Hex [_ (s & Hidle & Hp) Hg Hf Hr Hsc]. split.
  - done.
  - specialize (Hs "Idle"). rewrite Hidle in Hs.
    destruct (sd' !! "Idle") as [s'|]; [|done].
    exists s'. split; [done |]. unfold shape in Hs. simpl in Hs. congruence.
  - by eapply same_shape_is_Some.
  - by eapply same_shape_is_Some.
  - by eapply same_shape_is_Some.
  - intros Hrad. eapply same_shape_is_Some; [done | by apply Hsc].
Qed.

Lemma same_shape_dropOrder sd sd' :
  same_shape sd sd' -> dropOrder sd' = dropOrder sd.
Proof.
  intros Hs. unfold dropOrder. specialize (Hs "Drop").
  destruct (sd' !! "Drop"), (sd !! "Drop"); try done.
  unfold shape in Hs. simpl in *. congruence.
Qed.

Lemma same_shape_Stable o rs sd sd' :
  same_shape sd sd' -> exclusive sd' -> Stable o rs sd -> Stable o rs sd'.
Proof.
  intros Hs Hex (Hr & Hd & Ha). split; [|split].
  - by eapply same_shape_Ready.
  - by rewrite (same_shape_dropOrder _ _ Hs).
  - intros r Hin. eapply same_shape_is_Some; [done | by apply Ha].
Qed.

(** The registry operations keep [Stable]. *)
Lemma Stable_shrink o rs (f : gset Unit -> gset Unit) n sd :
  (forall us, f us ⊆ us) ->
  Stable o rs sd -> Stable o rs (alter (with_units f) n sd).
Proof.
  intros Hf Hst. eapply same_shape_Stable; [| |done].
  - apply same_shape_alter_units.
  - apply exclusive_alter_shrink; [done | apply Hst].
Qed.

Lemma Stable_remove o rs n u sd :
  Stable o rs sd -> Stable o rs (alter (with_units (fun us => us ∖ {[u]})) n sd).
Proof. apply Stable_shrink. set_solver. Qed.

Lemma Stable_clear o rs n sd :
  Stable o rs sd -> Stable o rs (alter (with_units (fun _ => ∅)) n sd).
Proof. apply Stable_shrink. set_solver. Qed.

Lemma Stable_reassign o rs u n sd :
  Stable o rs sd -> Stable o rs (reassign u n sd).
Proof.
  intros Hst. eapply same_shape_Stable; [| |done].
  - apply same_shape_reassign.
  - apply exclusive_reassign, Hst.
Qed.

Lemma exclusive_with_order o n sd :
  exclusive sd -> exclusive (alter (with_order o) n sd).
Proof.
  apply exclusive_shrink. intros m s' Hm.
  rewrite lookup_alter in Hm. case_decide; [subst m|by exists s'].
  destruct (sd !! n) as [s|]; simplify_eq/=. by exists s.
Qed.

Lemma Ready_setSquadOrder n o' sd :
  Ready sd -> Ready (alter (with_order o') n sd).
Proof.
  intros [Hex (s & Hidle & Hp) Hg Hf Hr Hsc].
  assert (Hsome : forall m, is_Some (sd !! m) ->
                            is_Some (alter (with_order o') n sd !! m)).
  { intros m [t Ht]. rewrite lookup_alter. case_decide; [subst m|by eexists].
    rewrite Ht. by eexists. }
  split; auto.
  - by apply exclusive_with_order.
  - rewrite lookup_alter. case_decide; [subst n|by eexists].
    rewrite Hidle. by eexists.
Qed.

Lemma Stable_setSquadOrder o rs n o' sd :
  n ≠ "Drop" ->
  Stable o rs sd -> Stable o rs (alter (with_order o') n sd).
Proof.
  intros Hn (Hr & Hd & Ha). split; [|split].
  - by apply Ready_setSquadOrder.
  - unfold dropOrder. by rewrite lookup_alter_ne.
  - intros r Hin. destruct (Ha r Hin) as [t Ht]. rewrite lookup_alter.
    case_decide; [subst r|by eexists]. rewrite Ht. by eexists.
Qed.

Lemma Stable_addSquad o rs n s sd :
  n ≠ "Drop" -> sd !! n = None -> squad_units s = ∅ ->
  Stable o rs sd -> Stable o rs (<[n:=s]> sd).
Proof.
  intros Hn Hfresh Hempty ([Hex (si & Hidle & Hp) Hg Hf Hr Hsc] & Hd & Ha).
  assert (Hsome : forall m, is_Some (sd !! m) -> is_Some (<[n:=s]> sd !! m)).
  { intros m [t Ht]. rewrite lookup_insert. case_decide; by eexists. }
  split; [split|split]; auto.
  - intros n1 n2 s1 s2 u H1 H2 Hu1 Hu2.
    rewrite lookup_insert in H1, H2.
    repeat case_decide; simplify_eq; try set_solver; by eapply Hex.
  - exists si. split; [|done]. rewrite lookup_insert_ne; [done |].
    intros ->. by rewrite Hfresh in Hidle.
  - unfold dropOrder. by rewrite lookup_insert_ne.
Qed.

Lemma Stable_more o rs r sd :
  Stable o rs sd -> is_Some (sd !! r) -> Stable o (r :: rs) sd.
Proof.
  intros (Hr & Hd & Ha) Hnew. split; [done | split; [done |]].
  intros r' [->|Hin]%elem_of_cons; [done | by apply Ha].
Qed.

Lemma Stable_less o rs r sd : Stable o (r :: rs) sd -> Stable o rs sd.
Proof.
  intros (Hr & Hd & Ha). split; [done | split; [done |]].
  intros r' Hin. apply Ha. by right.
Qed.

End Shape.

(** ** The registry operations as predicate transformers *)

Section Operations.

Context `{Game} {F : Prop}.

Lemma set_squadData_squadData f c :
  _squadData (set_squadData f c) = f (_squadData c).
Proof. reflexivity. Qed.

Lemma wpx_squadExists name Q c :
  Q (bool_decide (is_Some (_squadData c !! name))) c ->
  wpx F (squadExists name) Q c.
Proof. done. Qed.

Lemma wpx_getSquad name Q c :
  is_Some (_squadData c !! name) -> Q name c -> wpx F (getSquad name) Q c.
Proof.
  intros Ha HQ. unfold getSquad. apply wpx_bind, wpx_squadExists.
  by rewrite bool_decide_eq_true_2.
Qed.

Lemma wpx_getSquad_cases name Q c :
  (is_Some (_squadData c !! name) -> Q name c) ->
  (_squadData c !! name = None -> F) ->
  wpx F (getSquad name) Q c.
Proof.
  intros Hyes Hno. unfold getSquad. apply wpx_bind, wpx_squadExists.
  case_bool_decide as He; [by apply Hyes |].
  apply Hno. by apply eq_None_not_Some.
Qed.

Lemma wpx_deref r s Q c :
  _squadData c !! r = Some s -> Q s c -> wpx F (deref r) Q c.
Proof.
  intros Hr HQ. unfold deref. apply wpx_bind, wpx_gets. by rewrite Hr.
Qed.

Lemma wpx_getUnits r s Q c :
  _squadData c !! r = Some s -> Q (squad_units s) c -> wpx F (getUnits r) Q c.
Proof. intros Hr HQ. unfold getUnits. apply wpx_bind. by eapply wpx_deref. Qed.

Lemma wpx_getSquadOrder r s Q c :
  _squadData c !! r = Some s -> Q (squad_order s) c ->
  wpx F (getSquadOrder r) Q c.
Proof.
  intros Hr HQ. unfold getSquadOrder. apply wpx_bind. by eapply wpx_deref.
Qed.

Lemma wpx_containsUnit r u s Q c :
  _squadData c !! r = Some s -> Q (bool_decide (u ∈ squad_units s)) c ->
  wpx F (containsUnit r u) Q c.
Proof.
  intros Hr HQ. unfold containsUnit. apply wpx_bind. by eapply wpx_getUnits.
Qed.

Lemma wpx_isEmpty r s Q c :
  _squadData c !! r = Some s -> Q (bool_decide (squad_units s = ∅)) c ->
  wpx F (isEmpty r) Q c.
Proof.
  intros Hr HQ. unfold isEmpty. apply wpx_bind. by eapply wpx_getUnits.
Qed.

Lemma wpx_canAssign u r s Q c :
  _squadData c !! r = Some s -> Q (canAssign (_squadData c) u s) c ->
  wpx F (canAssignUnitToSquad u r) Q c.
Proof.
  intros Hr HQ. unfold canAssignUnitToSquad.
  apply wpx_bind. eapply wpx_deref; [done |]. by apply wpx_bind, wpx_gets.
Qed.

Lemma assignUnitToSquad_run u r c :
  assignUnitToSquad u r c = Some (tt, set_squadData (reassign u r) c).
Proof.
  unfold assignUnitToSquad, reassign, bind, gets, removeUnit, addUnit, modify,
    set_squadData.
  simpl. by destruct (getUnitSquad (_squadData c) u).
Qed.

Lemma wpx_assign u r Q c :
  Q tt (set_squadData (reassign u r) c) -> wpx F (assignUnitToSquad u r) Q c.
Proof. intros HQ. unfold wpx. by rewrite assignUnitToSquad_run. Qed.

(** A unit that can go to a squad of the lowest priority is in no squad. *)
Lemma canAssign_lowest sd u s :
  canAssign sd u s = true -> squad_priority s = 0%nat ->
  forall n q, sd !! n = Some q -> u ∉ squad_units q.
Proof.
  intros Hc Hp n q Hn Hu. apply bool_decide_eq_true in Hc.
  specialize (Hc n q Hn Hu). lia.
Qed.

Lemma canAssign_unowned sd u s :
  (forall n q, sd !! n = Some q -> u ∉ squad_units q) -> canAssign sd u s = true.
Proof.
  intros Hfree. apply bool_decide_eq_true. intros n q Hn Hu.
  by destruct (Hfree n q Hn).
Qed.

(** A unit taken out of its squad is in no squad. *)
Lemma unowned_after_remove sd n s u :
  exclusive sd -> sd !! n = Some s -> u ∈ squad_units s ->
  forall m q, alter (with_units (fun us => us ∖ {[u]})) n sd !! m = Some q ->
              u ∉ squad_units q.
Proof.
  intros Hex Hn Hu m q Hm Hq. rewrite lookup_alter in Hm.
  case_decide as Hnm.
  - rewrite Hn in Hm. simplify_eq/=. set_solver.
  - by pose proof (Hex _ _ _ _ _ Hm Hn Hq Hu).
Qed.

(** A unit that cannot go to a squad is in some squad. *)
Lemma canAssign_false_assigned sd u s :
  canAssign sd u s = false -> assigned sd u.
Proof.
  intros Hc. apply bool_decide_eq_false in Hc.
  apply map_not_Forall in Hc; [|apply _].
  destruct Hc as (n & q & Hn & Hq). exists n, q. split; [done |].
  destruct (decide (u ∈ squad_units q)); [done |]. by destruct Hq.
Qed.

End Operations.

(** ** The policies keep the registry invariant *)

Lemma Stable_alive `{Game} o rs r sd :
  Stable o rs sd -> r ∈ rs -> is_Some (sd !! r).
Proof. intros (_ & _ & Ha). apply Ha. Qed.

Lemma Stable_idle `{Game} o r sd : Stable o r sd -> is_Some (sd !! "Idle").
Proof. intros ([_ (s & Hs & _) _ _ _ _] & _). by exists s. Qed.

Lemma Stable_ground `{Game} o r sd : Stable o r sd -> is_Some (sd !! "Ground").
Proof. by intros ([] & _). Qed.

Lemma Stable_flying `{Game} o r sd : Stable o r sd -> is_Some (sd !! "Flying").
Proof. by intros ([] & _). Qed.

Lemma Stable_recon `{Game} o r sd : Stable o r sd -> is_Some (sd !! "Recon").
Proof. by intros ([] & _). Qed.

Create HintDb alive discriminated.
#[global] Hint Resolve Stable_alive Stable_idle Stable_ground Stable_flying
  Stable_recon : alive.
#[global] Hint Resolve Stable_remove Stable_clear Stable_reassign
  Stable_setSquadOrder : alive.
#[global] Hint Extern 1 (_ ≠ _) => discriminate : alive.
#[global] Hint Extern 1 (_ ∈ _ :: _) =>
  solve [repeat first [apply list_elem_of_here | apply list_elem_of_further]]
  : alive.

(** One step through a member function. *)
Ltac wp_alive c r k :=
  let Ha := fresh "Ha" in
  let s := fresh "s" in
  assert (Ha : is_Some (_squadData c !! r)) by eauto with alive;
  destruct Ha as [s Ha]; k Ha.

Ltac wp_step :=
  lazymatch goal with
  | |- wpx _ (bind _ _) _ _ => apply (proj2 (wpx_bind _ _ _ _))
  | |- wpx _ (ret _) _ _ => apply (proj2 (wpx_ret _ _ _))
  | |- wpx _ (gets _) _ _ => apply (proj2 (wpx_gets _ _ _))
  | |- wpx _ (modify _) _ _ => apply (proj2 (wpx_modify _ _ _))
  | |- wpx _ (when _ _) _ _ => apply (proj2 (wpx_when _ _ _ _))
  | |- wpx _ (andM _ _) _ _ => apply (proj2 (wpx_andM _ _ _ _))
  | |- wpx _ (assignUnitToSquad _ _) _ _ => apply wpx_assign
  | |- wpx _ (squadExists _) _ _ => apply wpx_squadExists
  | |- wpx _ (addUnit _ _) _ _ => unfold addUnit; apply (proj2 (wpx_modify _ _ _))
  | |- wpx _ (removeUnit _ _) _ _ =>
      unfold removeUnit; apply (proj2 (wpx_modify _ _ _))
  | |- wpx _ (clear _) _ _ => unfold clear; apply (proj2 (wpx_modify _ _ _))
  | |- wpx _ (setSquadOrder _ _) _ _ =>
      unfold setSquadOrder; apply (proj2 (wpx_modify _ _ _))
  | |- wpx _ (getSquad ?r) _ ?c =>
      wp_alive c r ltac:(fun Ha => apply wpx_getSquad; [by eexists |])
  | |- wpx _ (canAssignUnitToSquad _ ?r) _ ?c =>
      wp_alive c r ltac:(fun Ha => eapply wpx_canAssign; [exact Ha |])
  | |- wpx _ (getUnits ?r) _ ?c =>
      wp_alive c r ltac:(fun Ha => eapply wpx_getUnits; [exact Ha |])
  | |- wpx _ (getSquadOrder ?r) _ ?c =>
      wp_alive c r ltac:(fun Ha => eapply wpx_getSquadOrder; [exact Ha |])
  | |- wpx _ (containsUnit ?r _) _ ?c =>
      wp_alive c r ltac:(fun Ha => eapply wpx_containsUnit; [exact Ha |])
  | |- wpx _ (isEmpty ?r) _ ?c =>
      wp_alive c r ltac:(fun Ha => eapply wpx_isEmpty; [exact Ha |])
  | |- wpx _ (deref ?r) _ ?c =>
      wp_alive c r ltac:(fun Ha => eapply wpx_deref; [exact Ha |])
  | |- wpx _ (let _ := _ in _) _ _ => cbv zeta
  | |- wpx _ (if ?b then _ else _) _ _ => destruct b eqn:?
  | |- wpx _ (match ?x with _ => _ end) _ _ => destruct x eqn:?
  | |- wpx _ (let '(_, _) := ?x in _) _ _ => destruct x eqn:?
  | |- if ?b then _ else _ => destruct b eqn:?
  end; cbn beta.

Ltac wp_go := repeat wp_step.

(** The same, through loops that keep the invariant [I] of the state; a
    state that has been written to is named afresh once [I] holds of it. *)
Ltac wp_name I :=
  lazymatch goal with
  | |- wpx _ _ _ ?st =>
      tryif is_var st then fail
      else (let Hn := fresh "Hst" in
            assert (Hn : I st) by (simpl; eauto with alive);
            cbn beta in Hn; revert Hn; generalize st;
            let c' := fresh "c" in intros c' Hn)
  end.

Ltac wp_loop I :=
  lazymatch goal with
  | |- wpx _ (for_each _ _ _) _ _ =>
      eapply wpx_mono;
      [ apply (wpx_for_each (fun _ => I));
        [ try eassumption | intros ? ? ? _ ? ]
      | intros ? ? ? ]
  | |- wpx _ (for_ _ _) _ _ =>
      eapply wpx_mono;
      [ apply (wpx_for_ I); [ try eassumption | intros ? ? _ ? ]
      | intros ? ? ? ]
  end; cbn beta in *.

Ltac wp_inv I := repeat first [ wp_name I | wp_step | wp_loop I ].

(** The same, with a tactic of the caller tried first at every step. *)
Ltac wp_inv_with I tac :=
  repeat first [ tac | wp_name I | wp_step | wp_loop I ].

Section Policies.

Context `{Game} {F : Prop}.

(** A negative scout defense radius is the one configuration in which the
    commander asks for a squad it never made. *)
Hypothesis radius_ok : Config_Micro_ScoutDefenseRadius < 0 -> F.

Lemma updateIdleSquad_Stable o rs c :
  Stable o rs (_squadData c) ->
  wpx F updateIdleSquad (fun _ c' => Stable o rs (_squadData c')) c.
Proof.
  intros Hst. unfold updateIdleSquad.
  wp_inv (fun c' => Stable o rs (_squadData c')); simpl; eauto with alive.
  lazymatch goal with
  | Hst1 : Stable _ _ ?sd,
    Hc : canAssign _ _ ?s = true, Hs : _ !! "Idle" = Some ?s |- _ =>
      destruct Hst1 as (Hr & Hd & Ha1);
      destruct (ready_idle _ Hr) as (si & Hsi & Hp);
      assert (s = si) by congruence; subst si;
      eapply same_shape_Stable; [apply same_shape_alter_units | | by split];
      apply exclusive_add; [apply Hr |];
      intros n q Hn Hu; by destruct (canAssign_lowest _ _ _ Hc Hp n q Hn)
  end.
Qed.

Lemma updateScoutDefenseSquad_Stable w o rs c :
  Stable o rs (_squadData c) ->
  wpx F (updateScoutDefenseSquad w)
      (fun _ c' => Stable o rs (_squadData c')) c.
Proof.
  intros Hst. unfold updateScoutDefenseSquad. wp_step. wp_step.
  wp_step; [by wp_step |].
  apply orb_false_iff in Heqb as [Hrad _]. apply Z.eqb_neq in Hrad.
  wp_step. apply wpx_getSquad_cases.
  2:{ intros Hnone. apply radius_ok.
      destruct (Z_lt_le_dec Config_Micro_ScoutDefenseRadius 0); [done |].
      assert (Hpos : 0 < Config_Micro_ScoutDefenseRadius) by lia.
      destruct Hst as (Hr & _). destruct (ready_scout _ Hr Hpos). congruence. }
  intros Halive. apply (Stable_more _ _ _ _ Hst) in Halive. clear Hst.
  eapply (wpx_mono _ (fun _ c' =>
                        Stable o ("ScoutDefense" :: rs) (_squadData c'))).
  - wp_inv (fun c' => Stable o ("ScoutDefense" :: rs) (_squadData c'));
      simpl; eauto with alive.
  - intros [] c1 Hst1. by eapply Stable_less.
Qed.

Lemma updateReconSquad_Stable w o rs c :
  Stable o rs (_squadData c) ->
  wpx F (updateReconSquad w) (fun _ c' => Stable o rs (_squadData c')) c.
Proof.
  intros Hst. unfold updateReconSquad, chooseReconTarget.
  wp_inv (fun c' => Stable o rs (_squadData c')); simpl; eauto with alive.
Qed.

(** A unit evicted from the flying squad can go to the ground squad: the
    assertion "can't go to ground" holds. *)
Lemma evict_Stable o rs (x : Unit) flying ground sf c :
  Stable o rs (_squadData c) ->
  _squadData c !! flying = Some sf -> x ∈ squad_units sf ->
  is_Some (_squadData c !! ground) ->
  wpx F (removeUnit flying x ;;
         can <- canAssignUnitToSquad x ground ;;
         UAB_ASSERT can)
      (fun _ c' => Stable o rs (_squadData c')) c.
Proof.
  intros Hst Hf Hx [sg Hg]. wp_step. wp_step. wp_step.
  set (sd' := alter (with_units (fun us => us ∖ {[x]})) flying (_squadData c)).
  assert (Hg' : is_Some (sd' !! ground)).
  { eapply same_shape_is_Some; [apply same_shape_alter_units | by eexists]. }
  destruct Hg' as [sg' Hg'].
  eapply wpx_canAssign; [exact Hg' |].
  simpl. fold sd'. rewrite canAssign_unowned.
  - simpl. subst sd'. wp_step. simpl. eauto with alive.
  - eapply unowned_after_remove; [apply Hst | done | done].
Qed.

Lemma updateAttackSquads_Stable w o rs c :
  Stable o rs (_squadData c) ->
  wpx F (updateAttackSquads w) (fun _ c' => Stable o rs (_squadData c')) c.
Proof.
  intros Hst. unfold updateAttackSquads.
  wp_inv_with (fun c' => Stable o rs (_squadData c'))
    ltac:(idtac; lazymatch goal with
          | |- wpx _ (bind (removeUnit _ _) _) _ _ =>
              eapply (wpx_mono _ (fun _ c' => Stable o rs (_squadData c')));
              [ eapply evict_Stable;
                [ eassumption | eassumption
                | by eapply bool_decide_eq_true_1 | eauto with alive ]
              | intros ? ? ? ]
          end);
    simpl; eauto with alive.
Qed.

End Policies.

(** ** The drop squad only moves forward *)

Section DropPolicy.

Context `{Game} {F : Prop}.

Lemma dropStep_refl o : dropStep o o.
Proof. destruct o as [od|]; simpl; [|done]. exists od. auto. Qed.

Lemma Stable_setDropOrder o rs o' sd :
  Stable o rs sd -> is_Some (sd !! "Drop") ->
  Stable (Some o') rs (alter (with_order o') "Drop" sd).
Proof.
  intros (Hr & Hd & Ha) [sdrop Hdrop]. split; [|split].
  - by apply Ready_setSquadOrder.
  - unfold dropOrder. rewrite lookup_alter_eq, Hdrop. done.
  - intros r Hin. destruct (Ha r Hin) as [t Ht]. rewrite lookup_alter.
    case_decide; [subst r|by eexists]. rewrite Ht. by eexists.
Qed.

Lemma updateDropSquads_Stable w o rs c :
  Stable o rs (_squadData c) ->
  wpx F (updateDropSquads w)
      (fun _ c' => exists o', Stable o' rs (_squadData c') /\ dropStep o o') c.
Proof.
  intros Hst. unfold updateDropSquads. wp_step. wp_step.
  case_bool_decide as Hdrop; simpl.
  2:{ wp_step. exists o. split; [done | apply dropStep_refl]. }
  assert (Hst' := Stable_more _ _ _ _ Hst Hdrop).
  destruct Hdrop as [sdrop Hdrop].
  assert (Ho : o = Some (squad_order sdrop)).
  { destruct Hst as (_ & <- & _). unfold dropOrder. by rewrite Hdrop. }
  wp_step. apply wpx_getSquad; [by eexists |].
  wp_step. eapply wpx_getSquadOrder; [exact Hdrop |].
  case_bool_decide as Hkind.
  { wp_step. exists o. split; [done | apply dropStep_refl]. }
  wp_step. eapply wpx_getUnits; [exact Hdrop |].
  destruct (dropCensus w (in_order (squad_units sdrop)))
    as [[transportUnit spots] anyUnloaded].
  assert (Hrecruit :
    wpx F (us <- gets _combatUnits ;;
           for_each (in_order us)
             (fun unit (acc : option Unit * Z) =>
                let '(transportUnit, transportSpotsRemaining) := acc in
                let type := getType w unit in
                can <- andM (negb (bool_decide (is_Some transportUnit))
                             && (0 <? spaceProvided type) && isFlying w unit)
                            (canAssignUnitToSquad unit "Drop") ;;
                if can then
                  assignUnitToSquad unit "Drop" ;;
                  ret (Next (Some unit, transportSpotsRemaining))
                else
                  can' <- andM ((spaceRequired type <=? transportSpotsRemaining)
                                && unitIsGoodToDrop w unit)
                               (canAssignUnitToSquad unit "Drop") ;;
                  if can' then
                    assignUnitToSquad unit "Drop" ;;
                    ret (Next (transportUnit,
                               transportSpotsRemaining - spaceRequired type))
                  else ret (Next acc))
             (transportUnit, spots) ;;
           ret tt)
      (fun _ c' => exists o', Stable o' rs (_squadData c') /\ dropStep o o') c).
  { eapply (wpx_mono _ (fun _ c' => Stable o ("Drop" :: rs) (_squadData c'))).
    - wp_inv (fun c' => Stable o ("Drop" :: rs) (_squadData c'));
        simpl; eauto with alive.
    - intros [] c' Hc'. exists o. split; [by eapply Stable_less |].
      apply dropStep_refl. }
  destruct transportUnit as [transport|]; [|exact Hrecruit].
  destruct (spots =? 0); [|exact Hrecruit].
  clear Hrecruit. subst o.
  destruct anyUnloaded; wp_step; simpl;
    (eexists; split;
     [ eapply Stable_setDropOrder; [exact Hst | by eexists]
     | simpl; eexists; split; [done |]; split; [done | auto] ]).
Qed.

End DropPolicy.

(** ** The base defense squads *)

Section DefensePolicy.

Context `{Game} {F : Prop}.

Lemma wpx_assert (b : bool) Q c :
  b = true -> Q tt c -> wpx F (UAB_ASSERT b) Q c.
Proof. by intros ->. Qed.

(** [findClosestDefender] reads and does not write; a worker is returned
    only if workers are pulled. *)
Lemma wpx_findClosestDefender w o rs d pos flying pullWorkers Q c :
  Stable o rs (_squadData c) -> d ∈ rs ->
  (forall found,
     (forall u, found = Some u -> isWorker (getType w u) = true ->
                pullWorkers = true) ->
     Q found c) ->
  wpx F (findClosestDefender w d pos flying pullWorkers) Q c.
Proof.
  intros Hst Hd HQ. unfold findClosestDefender. wp_step. wp_step. wp_step.
  eapply (wpx_mono _ (fun cl c' => c' = c /\ closest_ok w pullWorkers cl)).
  - apply wpx_for_each.
    + split; [done |]. split; intros u Hu; simpl in Hu; done.
    + intros u cl c1 _ [-> [Hdef Hwork]].
      wp_go; simpl; (split; [done |]); try (by split);
        split; simpl; intros u' Hu'; simplify_eq; eauto.
      apply orb_false_iff in Heqb2 as [Hpull _].
      by apply negb_false_iff in Hpull.
  - intros cl c' [-> [Hdef Hwork]]. wp_step. apply HQ.
    intros u Hfound Hworker.
    destruct (closestWorker cl) as [worker|] eqn:Hcw.
    + destruct (_ || _) in Hfound; simplify_eq; [by eapply Hwork |].
      apply Hdef in Hfound. congruence.
    + apply Hdef in Hfound. congruence.
Qed.

Lemma updateDefenseSquadUnits_Stable w o rs d flyingNeeded groundNeeded
    pullWorkers c :
  Stable o rs (_squadData c) -> d ∈ rs ->
  wpx F (updateDefenseSquadUnits w d flyingNeeded groundNeeded pullWorkers)
      (fun _ c' => Stable o rs (_squadData c')) c.
Proof.
  intros Hst Hd. unfold updateDefenseSquadUnits.
  wp_step; [wp_step; simpl; eauto with alive |].
  wp_step. wp_step.
  destruct (countDefenders w (in_order (squad_units s)))
    as [[flyingAdded groundAdded] workersInGroup].
  wp_step.
  eapply (wpx_mono _ (fun _ c' => Stable o rs (_squadData c'))).
  { apply (wpx_while _ (fun added => Z.to_nat (flyingNeeded - added)));
      [done | lia |].
    intros added c1 Hst1. wp_step; [by wp_step |].
    apply Z.leb_gt in Heqb0.
    wp_step. wp_step. wp_step.
    eapply wpx_findClosestDefender; [done | done |].
    intros [u|] Hfound; [|by wp_step].
    wp_step. apply wpx_assert.
    { destruct (isWorker (getType w u)) eqn:Hw; [|done].
      by specialize (Hfound u eq_refl Hw). }
    wp_go. simpl. split; [eauto with alive | lia]. }
  intros _ c1 Hst1. wp_step.
  eapply (wpx_mono _ (fun _ c' => Stable o rs (_squadData c'))).
  { apply (wpx_while _ (fun added =>
             Z.to_nat (groundNeeded - (added - workersInGroup))));
      [done | lia |].
    intros added c2 Hst2. wp_step; [by wp_step |].
    apply Z.leb_gt in Heqb0.
    wp_step. wp_step. wp_step.
    eapply wpx_findClosestDefender; [done | done |].
    intros [u|] Hfound; [|by wp_step].
    destruct (isWorker (getType w u)) eqn:Hw.
    - wp_step. apply wpx_assert; [by apply (Hfound u) |].
      wp_go; simpl; [done |]. split; [eauto with alive | lia].
    - wp_go; simpl; (split; [eauto with alive | lia]). }
  intros groundAdded' c2 Hst2. wp_step.
  eapply (wpx_mono _ (fun _ c' => Stable o rs (_squadData c'))).
  { apply (wpx_while _ (fun added => Z.to_nat (added - groundNeeded)));
      [done | lia |].
    intros added c3 Hst3. wp_step. wp_step.
    destruct (groundNeeded <? added) eqn:Hlt; [|by wp_step].
    apply Z.ltb_lt in Hlt.
    wp_go; simpl; [|done]. split; [eauto with alive | lia]. }
  intros _ c3 Hst3. by wp_step.
Qed.

End DefensePolicy.

Section RegionPolicy.

Context `{Game} {F : Prop}.

Lemma baseDefenseSquadName_not_Drop p : baseDefenseSquadName p ≠ "Drop".
Proof. unfold baseDefenseSquadName. simpl. discriminate. Qed.

Lemma clearIfExists_Stable o rs name c :
  Stable o rs (_squadData c) ->
  wpx F (clearIfExists name) (fun _ c' => Stable o rs (_squadData c')) c.
Proof.
  intros Hst. unfold clearIfExists. wp_step. wp_step.
  case_bool_decide as He; [|by wp_step].
  wp_step. apply wpx_getSquad; [done |]. wp_step. simpl. eauto with alive.
Qed.

Lemma defendRegion_Stable w o rs enemyRegion mainRegion myRegion c :
  Stable o rs (_squadData c) ->
  wpx F (defendRegion w enemyRegion mainRegion myRegion)
      (fun _ c' => Stable o rs (_squadData c')) c.
Proof.
  intros Hst. unfold defendRegion.
  set (squadName := baseDefenseSquadName (region_getCenter w myRegion)).
  wp_step; [by wp_step |]. wp_step; [by wp_step |].
  wp_step; [by apply clearIfExists_Stable |].
  wp_step.
  set (enemies := filter _ (enemy_getUnits w)).
  eapply (wpx_mono _ (fun _ c' => Stable o rs (_squadData c'))).
  { wp_go; simpl; eauto with alive. }
  intros enemyUnitsInRegion c1 Hst1. clear dependent c.
  wp_step; [by apply clearIfExists_Stable |].
  wp_step. wp_step. wp_step.
  eapply (wpx_mono _ (fun _ c' => c' = c1)).
  { wp_go; simpl; eauto with alive. }
  intros order ? ->. wp_step. wp_step. wp_step.
  eapply (wpx_mono _ (fun _ c' =>
            Stable o (squadName :: rs) (_squadData c'))).
  { destruct (bool_decide (is_Some (_squadData c1 !! squadName))) eqn:He;
      simpl.
    - apply bool_decide_eq_true in He.
      wp_step. apply wpx_getSquad; [done |]. wp_step. simpl.
      apply Stable_setSquadOrder; [apply baseDefenseSquadName_not_Drop |].
      by apply Stable_more.
    - apply bool_decide_eq_false in He.
      unfold addSquad. wp_step. wp_step.
      rewrite bool_decide_eq_false_2 by done. wp_step. simpl.
      apply Stable_more; [|rewrite lookup_insert_eq; by eexists].
      apply Stable_addSquad;
        [apply baseDefenseSquadName_not_Drop | | done | done].
      by apply eq_None_not_Some. }
  intros _ c2 Hst2. wp_step. wp_step. wp_step.
  apply wpx_assert.
  { apply bool_decide_eq_true_2. eauto with alive. }
  wp_step. wp_step. wp_step. wp_step.
  eapply (wpx_mono _ (fun _ c' =>
            Stable o (squadName :: rs) (_squadData c'))).
  { apply updateDefenseSquadUnits_Stable; [done | eauto with alive]. }
  intros _ c3 Hst3. by eapply Stable_less.
Qed.

Lemma updateBaseDefenseSquads_Stable w o rs c :
  Stable o rs (_squadData c) ->
  wpx F (updateBaseDefenseSquads w)
      (fun _ c' => Stable o rs (_squadData c')) c.
Proof.
  intros Hst. unfold updateBaseDefenseSquads. wp_step. wp_step.
  wp_step; [by wp_step |]. wp_step.
  eapply (wpx_mono _ (fun _ c' => Stable o rs (_squadData c'))).
  { apply wpx_for_; [done |]. intros r c1 _ Hst1.
    by apply defendRegion_Stable. }
  intros _ c1 Hst1. wp_step. wp_step.
  set (names := squadNames (_squadData c1)).
  eapply (wpx_mono _ (fun _ c' =>
            Stable o rs (_squadData c') /\
            forall n, n ∈ names -> is_Some (_squadData c' !! n))).
  { apply wpx_for_.
    - split; [done |]. intros n Hn. by apply elem_of_squadNames.
    - intros name c2 Hin [Hst2 Hnames].
      destruct (Hnames name Hin) as [squad Hsquad].
      wp_step. eapply wpx_deref; [exact Hsquad |].
      wp_step; [by wp_step |]. wp_step; [|by wp_step].
      wp_step. apply wpx_getSquad; [by eexists |]. wp_step. simpl.
      split; [eauto with alive |].
      intros n Hn. eapply same_shape_is_Some;
        [apply same_shape_alter_units | by apply Hnames]. }
  by intros _ c2 [Hst2 _].
Qed.

End RegionPolicy.

(** ** One frame *)

Section Frame.

Context `{Game} {F : Prop}.

Hypothesis radius_ok : Config_Micro_ScoutDefenseRadius < 0 -> F.

Lemma dropStep_trans o1 o2 o3 :
  dropStep o1 o2 -> dropStep o2 o3 -> dropStep o1 o3.
Proof.
  destruct o1 as [od1|]; simpl.
  - intros (od2 & -> & Hd12 & Hk12) (od3 & -> & Hd23 & Hk23).
    exists od3. split; [done |]. split.
    + intros Hd. rewrite <- (Hd12 Hd). apply Hd23. by rewrite (Hd12 Hd).
    + destruct Hk23 as [->|Hk23]; [done | by right].
  - by intros -> ->.
Qed.

Lemma dropStep_kind o o' : dropKindOK o -> dropStep o o' -> dropKindOK o'.
Proof.
  intros Hk Hs od' ->. destruct o as [od|]; simpl in Hs; [|done].
  destruct Hs as (od'' & [= <-] & _ & [->|Hnew]); [by apply Hk | tauto].
Qed.

Lemma Stable_pruned o rs (f : gset Unit -> gset Unit) sd :
  (forall us, f us ⊆ us) ->
  Stable o rs sd -> Stable o rs (with_units f <$> sd).
Proof.
  intros Hf Hst. eapply same_shape_Stable; [| |done].
  - intros n. rewrite lookup_fmap. by destruct (sd !! n).
  - eapply exclusive_shrink; [|apply Hst].
    intros n s' Hn. rewrite lookup_fmap in Hn.
    destruct (sd !! n) as [s|]; simplify_eq/=.
    exists s. split; [done | apply Hf].
Qed.

Lemma exclusive_no_units sd :
  map_Forall (fun _ s => squad_units s = ∅) sd -> exclusive sd.
Proof.
  intros Hall n1 n2 s1 s2 u H1 _ Hu _. rewrite (Hall _ _ H1) in Hu.
  set_solver.
Qed.

(** The squads as [initializeSquads] makes them. *)
Lemma initializeSquads_Ready w c :
  _squadData c = ∅ ->
  wpx F (initializeSquads w)
      (fun _ c' => _initialized c' = true /\ Ready (_squadData c')
                   /\ dropKindOK (dropOrder (_squadData c'))) c.
Proof.
  intros Hempty. unfold initializeSquads, addSquad, squadExists.
  destruct c as [sd us ini ag rt lc wa]. simpl in Hempty. subst sd.
  destruct (0 <? Config_Micro_ScoutDefenseRadius) eqn:Hrad;
    destruct (dropIsPlanned w) eqn:Hdrop;
    unfold wpx; simpl; rewrite ?Hrad, ?Hdrop; simpl;
    (split; [done |]); (split; [split |]); simpl;
    try (by eexists); try (by eexists; split; [done|]);
    try (intros ?; by apply Z.ltb_lt in Hrad || lia);
    try (apply exclusive_no_units;
         repeat (apply map_Forall_insert_2; [done |]);
         apply map_Forall_empty).
  all: intros od Hod; unfold dropOrder in Hod;
    repeat (rewrite lookup_insert_ne in Hod by discriminate);
    rewrite ?lookup_insert_eq, ?lookup_empty in Hod;
    simplify_eq/=; auto.
Qed.

End Frame.

(** ** What the policies leave alone *)

Section Frames.

Context `{Game}.

Lemma fixed_refl c : fixed c c.
Proof. done. Qed.

Lemma wlp_readonly {A} (m : M A) Q c :
  readonly m -> (forall a, Q a c) -> wlp m Q c.
Proof.
  intros Hro HQ. apply wlp_run. intros a c' Hrun.
  rewrite (Hro _ _ _ Hrun). apply HQ.
Qed.

Lemma readonly_wlp {A} (m : M A) :
  (forall c, wlp m (fun _ c' => c' = c) c) -> readonly m.
Proof.
  intros Hw c a c' Hrun. exact (proj1 (wlp_run _ _ _) (Hw c) a c' Hrun).
Qed.

Lemma readonly_getSquad n : readonly (getSquad n).
Proof.
  apply readonly_wlp. intros c. unfold getSquad, squadExists.
  apply wpx_bind, wpx_gets. by case_bool_decide.
Qed.

Lemma readonly_deref r : readonly (deref r).
Proof.
  apply readonly_wlp. intros c. unfold deref.
  apply wpx_bind, wpx_gets. by destruct (_ !! _).
Qed.

Lemma readonly_bind_ret {A B} (m : M A) (f : A -> B) :
  readonly m -> readonly (x <- m ;; ret (f x)).
Proof.
  intros Hro. apply readonly_wlp. intros c. apply wpx_bind.
  by apply wlp_readonly.
Qed.

Lemma readonly_getUnits r : readonly (getUnits r).
Proof. apply readonly_bind_ret, readonly_deref. Qed.

Lemma readonly_getSquadOrder r : readonly (getSquadOrder r).
Proof. apply readonly_bind_ret, readonly_deref. Qed.

Lemma readonly_containsUnit r u : readonly (containsUnit r u).
Proof. apply readonly_bind_ret, readonly_getUnits. Qed.

Lemma readonly_isEmpty r : readonly (isEmpty r).
Proof. apply readonly_bind_ret, readonly_getUnits. Qed.

Lemma readonly_canAssign u r : readonly (canAssignUnitToSquad u r).
Proof.
  apply readonly_wlp. intros c. unfold canAssignUnitToSquad.
  apply wpx_bind, wlp_readonly; [apply readonly_deref |]. intros s.
  by apply wpx_bind, wpx_gets.
Qed.

Lemma readonly_assert b : readonly (UAB_ASSERT b).
Proof.
  intros c a c' Hrun. destruct b; unfold UAB_ASSERT, ret, fatal in Hrun;
    congruence.
Qed.

Lemma readonly_findClosestDefender w d pos flying pullWorkers :
  readonly (findClosestDefender w d pos flying pullWorkers).
Proof.
  apply readonly_wlp. intros c. unfold findClosestDefender.
  apply wpx_bind, wpx_gets, wpx_bind.
  eapply (wpx_mono _ (fun _ c' => c' = c)); [|by intros cl ? ->].
  apply wpx_for_each; [done |]. intros u cl ? _ ->.
  destruct (_ || _); [done |].
  apply wpx_bind, wlp_readonly; [apply readonly_canAssign |].
  intros can. destruct can; simpl; [|done].
  repeat (destruct (_ : bool); try done).
Qed.

(** A [while] loop keeps what every round keeps, if it ends. *)
Lemma wlp_while {S} (I : S -> CombatCommander -> Prop) (fuel : nat)
    (body : S -> M (LoopStep S)) s c :
  I s c ->
  (forall s c, I s c -> wlp (body s) (fun r c' => I (step_val r) c') c) ->
  wlp (while_ fuel body s) I c.
Proof.
  revert s c. induction fuel as [|fuel IH]; intros s c Hs Hbody; [done |].
  simpl. apply wpx_bind. eapply wpx_mono; [by apply Hbody |].
  intros [s'|s'] c' Hr; simpl in *; [by apply IH | done].
Qed.

End Frames.

Create HintDb readonly discriminated.
#[global] Hint Resolve readonly_getSquad readonly_deref readonly_getUnits
  readonly_getSquadOrder readonly_containsUnit readonly_isEmpty
  readonly_canAssign readonly_assert readonly_findClosestDefender : readonly.

(** One step through a member function, for what holds if it ends. *)
Ltac wl_step :=
  lazymatch goal with
  | |- wpx _ (bind _ _) _ _ => apply (proj2 (wpx_bind _ _ _ _))
  | |- wpx _ (ret _) _ _ => apply (proj2 (wpx_ret _ _ _))
  | |- wpx _ (gets _) _ _ => apply (proj2 (wpx_gets _ _ _))
  | |- wpx _ (modify _) _ _ => apply (proj2 (wpx_modify _ _ _))
  | |- wpx _ (when _ _) _ _ => apply (proj2 (wpx_when _ _ _ _))
  | |- wpx _ (andM _ _) _ _ => apply (proj2 (wpx_andM _ _ _ _))
  | |- wpx _ fatal _ _ => exact I
  | |- wpx _ (assignUnitToSquad _ _) _ _ => apply wpx_assign
  | |- wpx _ (squadExists _) _ _ => apply wpx_squadExists
  | |- wpx _ (addUnit _ _) _ _ => unfold addUnit; apply (proj2 (wpx_modify _ _ _))
  | |- wpx _ (removeUnit _ _) _ _ =>
      unfold removeUnit; apply (proj2 (wpx_modify _ _ _))
  | |- wpx _ (clear _) _ _ => unfold clear; apply (proj2 (wpx_modify _ _ _))
  | |- wpx _ (setSquadOrder _ _) _ _ =>
      unfold setSquadOrder; apply (proj2 (wpx_modify _ _ _))
  | |- wpx _ (let _ := _ in _) _ _ => cbv zeta
  | |- wpx _ (if ?b then _ else _) _ _ => destruct b eqn:?
  | |- wpx _ (match ?x with _ => _ end) _ _ => destruct x eqn:?
  | |- wpx _ (let '(_, _) := ?x in _) _ _ => destruct x eqn:?
  | |- if ?b then _ else _ => destruct b eqn:?
  | |- wpx _ _ _ _ =>
      apply wlp_readonly; [solve [auto with readonly] | intros ?]
  end; cbn beta.

Ltac wl_loop I :=
  lazymatch goal with
  | |- wpx _ (for_each _ _ _) _ _ =>
      eapply wpx_mono;
      [ apply (wpx_for_each (fun _ => I));
        [ try eassumption | intros ? ? ? _ ? ]
      | intros ? ? ? ]
  | |- wpx _ (for_ _ _) _ _ =>
      eapply wpx_mono;
      [ apply (wpx_for_ I); [ try eassumption | intros ? ? _ ? ]
      | intros ? ? ? ]
  | |- wpx _ (while_ _ _ _) _ _ =>
      eapply wpx_mono;
      [ apply (wlp_while (fun _ => I));
        [ try eassumption | intros ? ? ? ]
      | intros ? ? ? ]
  end; cbn beta in *.

Ltac wl_inv I := repeat first [ wl_step | wl_loop I ].

Section FixedFields.

Context `{Game}.

Lemma updateIdleSquad_fixed c :
  wlp updateIdleSquad (fun _ c' => fixed c c') c.
Proof.
  unfold updateIdleSquad. wl_inv (fixed c); try assumption; done.
Qed.

Lemma updateDropSquads_fixed w c :
  wlp (updateDropSquads w) (fun _ c' => fixed c c') c.
Proof.
  unfold updateDropSquads. wl_inv (fixed c); try assumption; done.
Qed.

Lemma updateScoutDefenseSquad_fixed w c :
  wlp (updateScoutDefenseSquad w) (fun _ c' => fixed c c') c.
Proof.
  unfold updateScoutDefenseSquad. wl_inv (fixed c); try assumption; done.
Qed.

Lemma updateDefenseSquadUnits_fixed w d fn gn pw c0 c :
  fixed c0 c ->
  wlp (updateDefenseSquadUnits w d fn gn pw) (fun _ c' => fixed c0 c') c.
Proof.
  intros Hfix. unfold updateDefenseSquadUnits.
  wl_inv (fixed c0); try assumption; done.
Qed.

Lemma defendRegion_fixed w er mr r c0 c :
  fixed c0 c ->
  wlp (defendRegion w er mr r) (fun _ c' => fixed c0 c') c.
Proof.
  intros Hfix. unfold defendRegion, clearIfExists, addSquad.
  repeat first
    [ lazymatch goal with
      | |- wpx _ (updateDefenseSquadUnits _ _ _ _ _) _ _ =>
          apply updateDefenseSquadUnits_fixed
      end
    | wl_step ];
    try assumption; done.
Qed.

Lemma updateBaseDefenseSquads_fixed w c :
  wlp (updateBaseDefenseSquads w) (fun _ c' => fixed c c') c.
Proof.
  unfold updateBaseDefenseSquads.
  repeat first
    [ lazymatch goal with
      | |- wpx _ (defendRegion _ _ _ _) _ _ => apply defendRegion_fixed
      end
    | wl_step | wl_loop (fixed c) ];
    try assumption; done.
Qed.

Lemma updateReconSquad_fixed w c :
  wlp (updateReconSquad w) (fun _ c' => fixed c c') c.
Proof.
  unfold updateReconSquad, chooseReconTarget.
  wl_inv (fixed c); try assumption; done.
Qed.

Lemma updateAttackSquads_fixed w c :
  wlp (updateAttackSquads w) (fun _ c' => fixed c c') c.
Proof.
  unfold updateAttackSquads. wl_inv (fixed c); try assumption; done.
Qed.

End FixedFields.

(** ** The frame as a whole *)

Section WholeFrame.

Context `{Game} {F : Prop}.

Hypothesis radius_ok : Config_Micro_ScoutDefenseRadius < 0 -> F.

Lemma wpx_wlp {A} (m : M A) (Q Q' : A -> CombatCommander -> Prop) c :
  wpx F m Q c -> wlp m Q' c -> wpx F m (fun a c' => Q a c' /\ Q' a c') c.
Proof. unfold wpx. destruct (m c) as [[a c']|]; auto. Qed.

Lemma fixed_trans c1 c2 c3 : fixed c1 c2 -> fixed c2 c3 -> fixed c1 c3.
Proof. intros (? & ? & ?) (? & ? & ?). repeat split; congruence. Qed.

Lemma allocate_Stable w o c :
  Stable o [] (_squadData c) ->
  wpx F (allocate w)
      (fun _ c' => (exists o', Stable o' [] (_squadData c') /\ dropStep o o')
                   /\ fixed c c') c.
Proof.
  intros Hst. unfold allocate.
  apply wpx_bind. eapply wpx_mono.
  { apply wpx_wlp;
      [by apply updateIdleSquad_Stable | apply updateIdleSquad_fixed]. }
  intros _ c1 [Hst1 Hf1]. cbn beta.
  apply wpx_bind. eapply wpx_mono.
  { apply wpx_wlp;
      [by apply updateDropSquads_Stable | apply updateDropSquads_fixed]. }
  intros _ c2 [(o' & Hst2 & Hstep) Hf2]. cbn beta.
  apply wpx_bind. eapply wpx_mono.
  { apply wpx_wlp;
      [by apply updateScoutDefenseSquad_Stable
      | apply updateScoutDefenseSquad_fixed]. }
  intros _ c3 [Hst3 Hf3]. cbn beta.
  apply wpx_bind. eapply wpx_mono.
  { apply wpx_wlp;
      [by apply updateBaseDefenseSquads_Stable
      | apply updateBaseDefenseSquads_fixed]. }
  intros _ c4 [Hst4 Hf4]. cbn beta.
  apply wpx_bind. eapply wpx_mono.
  { apply wpx_wlp;
      [by apply updateReconSquad_Stable | apply updateReconSquad_fixed]. }
  intros _ c5 [Hst5 Hf5]. cbn beta.
  eapply wpx_mono.
  { apply wpx_wlp;
      [by apply updateAttackSquads_Stable | apply updateAttackSquads_fixed]. }
  intros _ c6 [Hst6 Hf6]. cbn beta. split.
  - by exists o'.
  - repeat (eapply fixed_trans; [eassumption |]). apply fixed_refl.
Qed.

Lemma update_allocate w :
  update w =
  (initialized <- gets _initialized ;;
   when (negb initialized) (initializeSquads w) ;;
   modify (set_combatUnits (combatUnits w)) ;;
   when (Z.rem (getFrameCount w) 8 =? 1) (allocate w) ;;
   SquadData_update w).
Proof. reflexivity. Qed.

(** After the squads are made, a frame keeps the invariant, and moves the
    drop squad's order forward only. *)
Lemma frame_Stable w o c :
  Stable o [] (_squadData c) ->
  wpx F (modify (set_combatUnits (combatUnits w)) ;;
         when (Z.rem (getFrameCount w) 8 =? 1) (allocate w) ;;
         SquadData_update w)
      (fun _ c' => (exists o', Stable o' [] (_squadData c') /\ dropStep o o')
                   /\ _initialized c' = _initialized c) c.
Proof.
  intros Hst. wp_step. wp_step. wp_step. wp_step.
  assert (Hlast : forall o' c1,
            Stable o' [] (_squadData c1) -> dropStep o o' ->
            _initialized c1 = _initialized c ->
            wpx F (SquadData_update w)
              (fun _ c' =>
                 (exists o', Stable o' [] (_squadData c') /\ dropStep o o')
                 /\ _initialized c' = _initialized c) c1).
  { intros o' c1 Hst1 Hstep Hini. unfold SquadData_update. wp_step. simpl.
    split; [|done]. exists o'. split; [|done].
    apply Stable_pruned; [|done]. intros us u.
    rewrite elem_of_filter. tauto. }
  destruct (Z.rem (getFrameCount w) 8 =? 1).
  - eapply wpx_mono; [apply allocate_Stable; exact Hst |].
    intros _ c1 [(o' & Hst1 & Hstep) (_ & Hini & _)]. cbn beta.
    by apply (Hlast o').
  - apply (Hlast o); [done | apply dropStep_refl | done].
Qed.

Lemma Stable_nil sd : Ready sd -> Stable (dropOrder sd) [] sd.
Proof.
  intros Hr. split; [done | split; [done |]].
  intros r Hin. by apply elem_of_nil in Hin.
Qed.

Lemma update_Inv w c :
  Inv c ->
  wpx F (update w)
      (fun _ c' =>
         Inv c' /\ _initialized c' = true
         /\ (_initialized c = true ->
             dropStep (dropOrder (_squadData c)) (dropOrder (_squadData c'))))
      c.
Proof.
  intros Hinv. rewrite update_allocate. wp_step. wp_step. wp_step. wp_step.
  unfold Inv in Hinv. destruct (_initialized c) eqn:Hini; simpl.
  - destruct Hinv as [Hready Hkind].
    eapply wpx_mono.
    { apply (frame_Stable w (dropOrder (_squadData c))).
      by apply Stable_nil. }
    intros _ c' [(o' & (Hr & Hd & _) & Hstep) Hini']. cbn beta.
    rewrite Hini in Hini'. subst o'. split; [|done].
    unfold Inv. rewrite Hini'. split; [done |]. by eapply dropStep_kind.
  - eapply wpx_mono; [by apply initializeSquads_Ready |].
    intros _ c1 (Hini1 & Hready & Hkind). cbn beta.
    eapply wpx_mono.
    { apply (frame_Stable w (dropOrder (_squadData c1))).
      by apply Stable_nil. }
    intros _ c' [(o' & (Hr & Hd & _) & Hstep) Hini']. cbn beta.
    rewrite Hini1 in Hini'. subst o'. split; [|done].
    unfold Inv. rewrite Hini'. split; [done |]. by eapply dropStep_kind.
Qed.

End WholeFrame.

(** ** The fields the policies leave alone *)

Section HeldFields.

Context `{Game}.

Lemma Held_Stable o rs c0 c : Held o rs c0 c -> Stable o rs (_squadData c).
Proof. by intros [? _]. Qed.

Lemma Held_set o rs c0 c g :
  Held o rs c0 c -> Stable o rs (g (_squadData c)) ->
  Held o rs c0 (set_squadData g c).
Proof. intros [_ Hf] Hst. by split. Qed.

End HeldFields.

#[global] Hint Resolve Held_Stable Held_set : alive.

(** ** Workers pulled and released *)

Section WorkerPull.

Context `{Game} {F : Prop}.

(** [pullWorkers] ends: its queue gets shorter with every worker pulled. *)
Lemma pullWorkers_Held w n o rs c :
  Stable o rs (_squadData c) ->
  wpx F (pullWorkers w n) (fun _ c' => Held o rs c c') c.
Proof.
  intros Hst. unfold pullWorkers.
  assert (Hheld : Held o rs c c) by (split; [done | apply fixed_refl]).
  wp_step. wp_step. wp_step. wp_step. wp_step.
  eapply (wpx_mono _ (fun _ c' => Held o rs c c')).
  { apply wpx_for_each; [done |]. intros u workers c1 _ Hheld1.
    wp_inv (Held o rs c); eauto with alive. }
  intros workers c1 Hheld1. cbn beta. wp_step.
  eapply (wpx_mono _ (fun _ c' => Held o rs c c')).
  { apply (wpx_while (fun _ c' => Held o rs c c')
                     (fun s => length (snd s))); [done | simpl; lia |].
    intros [nLeft queue] c2 Hheld2. destruct queue as [|worker rest].
    - by wp_step.
    - destruct (0 <? nLeft); [|by wp_step].
      wp_step. wp_step. wp_step. simpl. split; [|lia].
      eauto with alive. }
  intros _ c2 Hheld2. by wp_step.
Qed.

Lemma releaseWorkers_Held w o rs c :
  Stable o rs (_squadData c) ->
  wpx F (releaseWorkers w) (fun _ c' => Held o rs c c') c.
Proof.
  intros Hst. unfold releaseWorkers, Squad_releaseWorkers.
  assert (Hheld : Held o rs c c) by (split; [done | apply fixed_refl]).
  wp_step. wp_step. wp_step. apply Held_set; [done |].
  apply Stable_shrink; [|done]. intros us u. rewrite elem_of_filter. tauto.
Qed.

(** Before the squads are made there is no ground squad to ask for. *)
Lemma getSquad_unmade {A} name (k : string -> M A) c :
  _squadData c = ∅ -> (r <- getSquad name ;; k r) c = None.
Proof.
  intros Hsd. unfold getSquad, squadExists, bind, gets, ret, fatal.
  rewrite Hsd, lookup_empty. by rewrite bool_decide_eq_false_2 by by intros [].
Qed.

End WorkerPull.

(** * The claims *)

(** ** Reachable states *)

Section Reachable.

Context `{Game}.

Lemma Inv_new : Inv CombatCommander_new.
Proof. reflexivity. Qed.

(** A member function that keeps [Held], and that stops when the squads are
    not made yet, keeps the invariant. *)
Lemma workers_Inv (m : M unit) c c' :
  Inv c ->
  (forall o, Stable o [] (_squadData c) ->
             wlp m (fun _ c' => Held o [] c c') c) ->
  (_squadData c = ∅ -> m c = None) ->
  m c = Some (tt, c') ->
  Inv c'
  /\ (_initialized c = true ->
      _initialized c' = true
      /\ dropStep (dropOrder (_squadData c)) (dropOrder (_squadData c'))).
Proof.
  intros Hinv Hm Hunmade Hrun. unfold Inv in Hinv.
  destruct (_initialized c) eqn:Hini.
  - destruct Hinv as [Hready Hkind].
    specialize (Hm _ (Stable_nil _ Hready)).
    unfold wpx in Hm. rewrite Hrun in Hm.
    destruct Hm as [(Hr & Hd & _) (_ & Hini' & _)].
    rewrite Hini in Hini'. split.
    + unfold Inv. rewrite Hini'. split; [done |]. by rewrite Hd.
    + intros _. split; [done |]. rewrite Hd. apply dropStep_refl.
  - rewrite (Hunmade Hinv) in Hrun. discriminate.
Qed.

Lemma step_Inv c c' :
  Inv c -> step c c' ->
  Inv c'
  /\ (_initialized c = true ->
      _initialized c' = true
      /\ dropStep (dropOrder (_squadData c)) (dropOrder (_squadData c'))).
Proof.
  intros Hinv [w Hrun|b Hrun|w n Hrun|w Hrun].
  - pose proof (update_Inv (F:=True) (fun _ => I) w c Hinv) as Hw.
    apply (proj1 (wlp_run _ _ _)) with (a:=tt) (c':=c') in Hw; [|done].
    destruct Hw as (Hinv' & Hini' & Hstep). auto.
  - unfold setAggression, modify in Hrun. simplify_eq.
    split; [exact Hinv |]. intros Hini. split; [done | apply dropStep_refl].
  - eapply workers_Inv; [exact Hinv | | | exact Hrun].
    + intros o. apply pullWorkers_Held.
    + apply getSquad_unmade.
  - eapply workers_Inv; [exact Hinv | | | exact Hrun].
    + intros o. apply releaseWorkers_Held.
    + apply getSquad_unmade.
Qed.

Lemma steps_Inv c c' : Inv c -> rtc step c c' -> Inv c'.
Proof.
  intros Hinv Hsteps. induction Hsteps as [c|c c1 c2 Hs Hsteps IH]; [done |].
  apply IH. by destruct (step_Inv _ _ Hinv Hs).
Qed.

Lemma reachable_Inv c : reachable c -> Inv c.
Proof. apply steps_Inv, Inv_new. Qed.

Lemma Inv_exclusive c : Inv c -> exclusive (_squadData c).
Proof.
  unfold Inv. destruct (_initialized c).
  - intros [Hr _]. apply Hr.
  - intros -> n1 n2 s1 s2 u H1. by rewrite lookup_empty in H1.
Qed.

Lemma steps_dropStep c c' :
  Inv c -> _initialized c = true -> rtc step c c' ->
  Inv c' /\ _initialized c' = true
  /\ dropStep (dropOrder (_squadData c)) (dropOrder (_squadData c')).
Proof.
  intros Hinv Hini Hsteps. induction Hsteps as [c|c c1 c2 Hs Hsteps IH].
  - split; [done |]. split; [done | apply dropStep_refl].
  - destruct (step_Inv _ _ Hinv Hs) as [Hinv1 Hd].
    destruct (Hd Hini) as [Hini1 Hs1].
    destruct (IH Hinv1 Hini1) as (Hinv2 & Hini2 & Hs2).
    split; [done |]. split; [done |]. by eapply dropStep_trans.
Qed.

(** With a scout defense radius that is not negative, a frame never stops
    on a fatal assertion and its loops end. *)
Lemma update_total w c :
  0 <= Config_Micro_ScoutDefenseRadius -> reachable c ->
  exists c', update w c = Some (tt, c').
Proof.
  intros Hrad Hr. apply reachable_Inv in Hr.
  assert (Hok : Config_Micro_ScoutDefenseRadius < 0 -> False) by lia.
  pose proof (update_Inv (F:=False) Hok w c Hr) as Hw.
  apply wp_run in Hw as ([] & c' & Hrun & _). by exists c'.
Qed.

(** C1. In every state the commander reaches, frame after frame, no unit is
    a member of two squads; and a transfer by [assignUnitToSquad], which
    takes the unit out of its current squad and then puts it into the target,
    leaves the unit in no squad but the target and no unit in two squads. *)
Theorem squads_never_share_a_unit c :
  reachable c ->
  exclusive (_squadData c)
  /\ forall u r c',
       assignUnitToSquad u r c = Some (tt, c') ->
       exclusive (_squadData c') /\ only_in (_squadData c') u r.
Proof.
  intros Hr. apply reachable_Inv, Inv_exclusive in Hr. split; [done |].
  intros u r c' Hrun. rewrite assignUnitToSquad_run in Hrun. simplify_eq.
  simpl. split; [by apply exclusive_reassign |].
  unfold reassign. intros n s Hn Hu.
  rewrite lookup_alter in Hn. case_decide; [done |].
  by eapply (only_in_removed (_squadData c) u r).
Qed.

Lemma dropStep_phase o o' od :
  dropKindOK o -> dropStep o o' -> o = Some od ->
  exists od' p p',
    o' = Some od'
    /\ dropPhase (order_type od) = Some p
    /\ dropPhase (order_type od') = Some p'
    /\ (p <= p')%nat
    /\ (order_type od = SquadOrder_Drop -> od' = od).
Proof.
  intros Hk Hs ->. simpl in Hs. destruct Hs as (od' & -> & Hd & Hnew).
  specialize (Hk od eq_refl).
  destruct (decide (order_type od = SquadOrder_Drop)) as [Hdrop|Hnd].
  - rewrite (Hd Hdrop). exists od, 2%nat, 2%nat. rewrite Hdrop. auto.
  - exists od', (default 0%nat (dropPhase (order_type od))),
      (default 0%nat (dropPhase (order_type od'))).
    split; [done |].
    destruct Hk as [Hk|[Hk|Hk]]; [| |done];
      destruct Hnew as [Hn|[Hn|Hn]];
      rewrite ?Hn, ?Hk; simpl; repeat split; try lia; try done; auto.
Qed.

(** C3. From a state the commander has reached, over any number of further
    frames, the order of the drop squad stays in the phases Hold (0), Load
    (1), Drop (2) and its phase never decreases; once the order is a Drop
    order it stays the very same order, and [updateDropSquads] leaves the
    whole state as it is. *)
Theorem drop_order_moves_forward c c' od :
  reachable c -> rtc step c c' ->
  dropOrder (_squadData c) = Some od ->
  (exists od' p p',
     dropOrder (_squadData c') = Some od'
     /\ dropPhase (order_type od) = Some p
     /\ dropPhase (order_type od') = Some p'
     /\ (p <= p')%nat
     /\ (order_type od = SquadOrder_Drop -> od' = od))
  /\ (order_type od = SquadOrder_Drop ->
      forall w, updateDropSquads w c = Some (tt, c)).
Proof.
  intros Hr Hsteps Hod. apply reachable_Inv in Hr.
  assert (Hini : _initialized c = true).
  { unfold Inv in Hr. destruct (_initialized c); [done |].
    rewrite Hr in Hod. unfold dropOrder in Hod.
    by rewrite lookup_empty in Hod. }
  destruct (steps_dropStep _ _ Hr Hini Hsteps) as (_ & _ & Hstep).
  split.
  - eapply dropStep_phase; [| exact Hstep | exact Hod].
    unfold Inv in Hr. rewrite Hini in Hr. apply Hr.
  - intros Hdrop w. unfold dropOrder in Hod.
    destruct (_squadData c !! "Drop") as [sdrop|] eqn:Hsq; simplify_eq/=.
    unfold updateDropSquads, squadExists, getSquad, getSquadOrder, deref,
      bind, gets, ret. simpl. rewrite Hsq. simpl.
    rewrite bool_decide_eq_true_2 by by eexists. simpl.
    rewrite Hsq. by rewrite bool_decide_eq_true_2.
Qed.

End Reachable.

(** ** Ground defenders needed (C7) *)

Section GroundNeed.

Context `{Game}.

Lemma ceil_times_1_2_div n : ceil_times_1_2 n = - ((- (n * 12)) `div` 10).
Proof.
  unfold ceil_times_1_2, Qceiling, Qfloor. simpl. reflexivity.
Qed.






End GroundNeed.

(** ** The attack point and remembered buildings (C10) *)

Section AttackLocation.

Context `{Game}.

(** C10. Step 2 of [getAttackLocation] is open to a squad that cannot
    attack ground when the enemy is Terran: for such a squad (step 1 is not
    even tried), if some remembered enemy building has a valid last position
    not flagged as vacated, the result is the last position of the first
    such building. *)
Theorem attack_location_terran_building w name us :
  squad_canAttackGround w name us = false ->
  enemy_getRace w = Terran ->
  (exists kv, kv ∈ getUnitInfo w /\ knownBuilding (snd kv) = true) ->
  exists kv,
    List.find (fun kv => knownBuilding (snd kv)) (getUnitInfo w) = Some kv
    /\ kv ∈ getUnitInfo w
    /\ isBuilding (ui_type (snd kv)) = true
    /\ isValid (ui_lastPosition (snd kv)) = true
    /\ ui_goneFromLastPosition (snd kv) = false
    /\ getAttackLocation w (Some (name, us)) = ui_lastPosition (snd kv).
Proof.
  intros Hcap Hrace (kv0 & Hin & Hknown).
  destruct (List.find (fun kv => knownBuilding (snd kv)) (getUnitInfo w))
    as [kv|] eqn:Hfind.
  - exists kv. apply find_some in Hfind as Hkv. destruct Hkv as [Hkin Hk].
    unfold knownBuilding in Hk.
    apply andb_true_iff in Hk as [Hk Hgone].
    apply andb_true_iff in Hk as [Hb Hv].
    apply negb_true_iff in Hgone.
    repeat (split; [done || by apply list_elem_of_In |]).
    unfold getAttackLocation. rewrite Hcap, Hrace. simpl. by rewrite Hfind.
  - apply list_elem_of_In in Hin.
    pose proof (find_none _ _ Hfind kv0 Hin) as Hno. simpl in Hno. congruence.
Qed.

End AttackLocation.

(** ** The drop squad and the admission check (C5) *)

Section DropAdmission.

Context `{Game}.

Lemma canAssignUnitToSquad_run u r c s :
  _squadData c !! r = Some s ->
  canAssignUnitToSquad u r c = Some (canAssign (_squadData c) u s, c).
Proof.
  intros Hr. unfold canAssignUnitToSquad, deref, bind, gets, ret.
  by rewrite Hr.
Qed.

(** C5, as written, fails: the Drop priority is the highest, not lower. *)
Lemma drop_priority_is_not_lower : ~ drop_exempt_despite_lower_priority.
Proof. intros (_ & Hlt & _). unfold DropPriority, AttackPriority in Hlt. lia. Qed.

(** C5, amended. Members of the Drop squad cannot be taken for a squad of
    base defense priority, and it is the priority comparison that protects
    them: the Drop priority (5) is above the base defense (3) and attack (1)
    priorities; a unit whose squads all have a priority below the requesting
    squad's can be taken, whatever the squads are called. *)
Theorem drop_members_kept_by_priority c u sdrop r target :
  _squadData c !! "Drop" = Some sdrop ->
  squad_priority sdrop = DropPriority ->
  u ∈ squad_units sdrop ->
  _squadData c !! r = Some target ->
  canAssignUnitToSquad u r c
  = Some (bool_decide
            (forall n q, _squadData c !! n = Some q -> u ∈ squad_units q ->
                         (squad_priority q < squad_priority target)%nat), c)
  /\ (squad_priority target = BaseDefensePriority ->
      canAssignUnitToSquad u r c = Some (false, c))
  /\ (BaseDefensePriority < DropPriority)%nat
  /\ (AttackPriority < DropPriority)%nat.
Proof.
  intros Hdrop Hprio Hu Hr. rewrite (canAssignUnitToSquad_run _ _ _ _ Hr).
  split; [done |]. split; [|unfold BaseDefensePriority, AttackPriority,
                             DropPriority; lia].
  intros Htarget. f_equal. f_equal. apply bool_decide_eq_false.
  intros Hall. specialize (Hall "Drop" sdrop Hdrop Hu).
  rewrite Hprio, Htarget in Hall.
  unfold DropPriority, BaseDefensePriority in Hall. lia.
Qed.

End DropAdmission.

(** ** The drop squad departs (C4) *)

Section DropDeparture.

Context `{Game}.

Lemma wp_run_unit (m : M unit) (P : CombatCommander -> Prop) c :
  wp m (fun _ c' => P c') c -> exists c', m c = Some (tt, c') /\ P c'.
Proof. intros Hw. apply wp_run in Hw as ([] & c' & Hrun & HP). eauto. Qed.

Lemma dropCensus_from w l t0 s0 a0 :
  exists t',
    fold_left
      (fun (acc : option Unit * Z * bool) unit =>
         let '(transportUnit, transportSpotsRemaining, anyUnloadedUnits) := acc in
         if unit_exists w unit then
           if isFlying w unit && (0 <? spaceProvided (getType w unit))
           then (Some unit, transportSpotsRemaining, anyUnloadedUnits)
           else (transportUnit,
                 transportSpotsRemaining - spaceRequired (getType w unit),
                 if negb (isLoaded w unit) then true else anyUnloadedUnits)
         else acc)
      l (t0, s0, a0)
    = (t',
       s0 - foldr Z.add 0
              (List.map (fun unit => spaceRequired (getType w unit))
                 (List.filter (isCargo w) l)),
       a0 || existsb (fun u => isCargo w u && negb (isLoaded w u)) l)
    /\ (is_Some t0
        \/ (exists u, u ∈ l /\ unit_exists w u = true
                      /\ isTransport w u = true) ->
        is_Some t').
Proof.
  revert t0 s0 a0. induction l as [|u l IH]; intros t0 s0 a0; simpl.
  - exists t0. split.
    + f_equal; [f_equal; lia | by rewrite orb_false_r].
    + intros [Hs|(u & Hu & _)]; [done | by apply elem_of_nil in Hu].
  - destruct (unit_exists w u) eqn:Hex.
    + destruct (isFlying w u && (0 <? spaceProvided (getType w u))) eqn:Ht.
      * assert (Hc : isCargo w u = false).
        { unfold isCargo, isTransport. by rewrite Hex, Ht. }
        rewrite Hc. simpl.
        destruct (IH (Some u) s0 a0) as (t' & -> & Hsome).
        exists t'. split; [done |]. intros _. apply Hsome. by left.
      * assert (Hc : isCargo w u = true).
        { unfold isCargo, isTransport. by rewrite Hex, Ht. }
        rewrite Hc. simpl.
        destruct (IH t0 (s0 - spaceRequired (getType w u))
                    (if negb (isLoaded w u) then true else a0))
          as (t' & -> & Hsome).
        exists t'. split.
        -- f_equal; [f_equal; lia |].
           destruct (isLoaded w u); simpl; [done |]. by rewrite orb_true_r.
        -- intros [Hs|(v & Hv & Hvex & Hvt)]; apply Hsome; [by left |].
           apply elem_of_cons in Hv as [->|Hv].
           ++ unfold isTransport in Hvt. congruence.
           ++ right. by exists v.
    + assert (Hc : isCargo w u = false).
      { unfold isCargo. by rewrite Hex. }
      rewrite Hc. simpl.
      destruct (IH t0 s0 a0) as (t' & -> & Hsome).
      exists t'. split; [done |].
      intros [Hs|(v & Hv & Hvex & Hvt)]; apply Hsome; [by left |].
      apply elem_of_cons in Hv as [->|Hv]; [congruence |].
      right. by exists v.
Qed.

(** C4. If the drop squad has a transport among its units, the units that
    are not transports require exactly the 8 spots, and each of them is
    loaded (of the units that exist: the others are passed over), then
    [updateDropSquads] ends with a Drop order on the squad: the order it
    already had, or the order to go and drop at the drop location. *)
Theorem full_loaded_drop_squad_departs w c sdrop :
  _squadData c !! "Drop" = Some sdrop ->
  (exists t, t ∈ squad_units sdrop
             /\ unit_exists w t = true /\ isTransport w t = true) ->
  cargoRequired w (squad_units sdrop) = 8 ->
  (forall u, u ∈ squad_units sdrop -> isCargo w u = true ->
             isLoaded w u = true) ->
  exists c',
    updateDropSquads w c = Some (tt, c')
    /\ order_type <$> dropOrder (_squadData c') = Some SquadOrder_Drop
    /\ (order_type (squad_order sdrop) = SquadOrder_Drop -> c' = c)
    /\ (order_type (squad_order sdrop) <> SquadOrder_Drop ->
        c' = set_squadData
               (alter (with_order (mkSquadOrder SquadOrder_Drop
                                     (getDropLocation w) 300 "Go drop!"))
                      "Drop") c).
Proof.
  intros Hdrop (t & Ht & Hex & Htr) Hcargo Hloaded.
  apply wp_run_unit. unfold updateDropSquads.
  wp_step. apply wpx_squadExists.
  rewrite bool_decide_eq_true_2 by by eexists. simpl.
  wp_step. apply wpx_getSquad; [by eexists |].
  wp_step. eapply wpx_getSquadOrder; [exact Hdrop |].
  case_bool_decide as Hkind.
  { wp_step. unfold dropOrder. rewrite Hdrop. simpl. rewrite Hkind.
    repeat split; done. }
  wp_step. eapply wpx_getUnits; [exact Hdrop |].
  unfold dropCensus.
  destruct (dropCensus_from w (in_order (squad_units sdrop)) None 8 false)
    as (t' & -> & Hsome).
  fold (cargoRequired w (squad_units sdrop)). rewrite Hcargo. simpl.
  destruct Hsome as [transport ->].
  { right. exists t. split; [by apply elem_of_in_order | done]. }
  assert (Hnone : existsb (fun u => isCargo w u && negb (isLoaded w u))
                          (in_order (squad_units sdrop)) = false).
  { apply not_true_is_false. intros Hsome.
    apply existsb_exists in Hsome as (u & Hu & Hcu).
    apply andb_true_iff in Hcu as [Hc Hl].
    apply list_elem_of_In, elem_of_in_order in Hu.
    rewrite (Hloaded u Hu Hc) in Hl. done. }
  rewrite Hnone. wp_step. simpl. unfold dropOrder.
  rewrite lookup_alter_eq, Hdrop. simpl. repeat split; done.
Qed.

End DropDeparture.

(** ** Chasing the lone worker scout (C8) *)

Section ScoutChase.

Context `{Game}.




End ScoutChase.

(** ** The orders of the main attack squads (C9) *)

Section AttackOrdersProof.

Context `{Game} {F : Prop}.

Lemma evict_Held o rs c0 (x : Unit) flying ground sf c :
  Held o rs c0 c ->
  _squadData c !! flying = Some sf -> x ∈ squad_units sf ->
  is_Some (_squadData c !! ground) ->
  wpx F (removeUnit flying x ;;
         can <- canAssignUnitToSquad x ground ;;
         UAB_ASSERT can)
      (fun _ c' => Held o rs c0 c') c.
Proof.
  intros [Hst Hfix] Hf Hx Hg.
  eapply wpx_mono.
  - apply wpx_wlp.
    + by eapply (evict_Stable (F:=F)).
    + instantiate (1 := fun _ c' => fixed c0 c').
      wl_inv (fixed c0); try assumption; done.
  - by intros [] c' [? ?].
Qed.

Lemma orderOf_set_other c n m o :
  n <> m ->
  orderOf (set_squadData (alter (with_order o) n) c) m = orderOf c m.
Proof. intros Hne. unfold orderOf. simpl. by rewrite lookup_alter_ne. Qed.

Lemma orderOf_set c n o :
  is_Some (_squadData c !! n) ->
  orderOf (set_squadData (alter (with_order o) n) c) n = Some o.
Proof.
  intros [s Hs]. unfold orderOf. simpl. by rewrite lookup_alter_eq, Hs.
Qed.

Lemma updateAttackSquads_orders w o rs c :
  Stable o rs (_squadData c) ->
  wpx F (updateAttackSquads w)
      (fun _ c' => Stable o rs (_squadData c')
                   /\ attackOrders w (_goAggressive c) c') c.
Proof.
  intros Hst. unfold updateAttackSquads.
  assert (Hheld : Held o rs c c) by (split; [done | apply fixed_refl]).
  do 11 wp_step.
  eapply (wpx_mono _ (fun _ c' => Held o rs c c')).
  { apply wpx_for_each; [done |]. intros u dets c1 _ Hheld1.
    wp_inv_with (Held o rs c)
      ltac:(idtac; lazymatch goal with
            | |- wpx _ (bind (removeUnit _ _) _) _ _ =>
                eapply (wpx_mono _ (fun _ c' => Held o rs c c'));
                [ eapply evict_Held;
                  [ eassumption | eassumption
                  | by eapply bool_decide_eq_true_1 | eauto with alive ]
                | intros ? ? ? ]
            end);
      eauto with alive. }
  intros dets c1 [Hst1 (_ & _ & Hag)]. cbn beta.
  wp_step. wp_step. rewrite Hag. unfold attackOrders.
  assert (Hg : is_Some (_squadData c1 !! "Ground")) by eauto with alive.
  assert (Hf : is_Some (_squadData c1 !! "Flying")) by eauto with alive.
  destruct (_goAggressive c).
  - destruct Hg as [sg Hg].
    wp_step. eapply wpx_getUnits; [exact Hg |]. wp_step. wp_step.
    assert (Hf' : is_Some (_squadData
                    (set_squadData
                       (alter (with_order
                          (mkSquadOrder SquadOrder_Attack
                             (getAttackLocation w
                                (Some ("Ground", squad_units sg)))
                             AttackRadius "Attack enemy base")) "Ground") c1)
                    !! "Flying")).
    { simpl. by rewrite lookup_alter_ne. }
    destruct Hf' as [sf Hf'].
    wp_step. eapply wpx_getUnits; [exact Hf' |]. wp_step.
    split; [simpl; eauto with alive |]. split.
    + exists (squad_units sg). rewrite orderOf_set_other by done.
      apply orderOf_set. by eexists.
    + exists (squad_units sf). apply orderOf_set. by eexists.
  - destruct (defensivePosition w) as [defendPosition radius]. simpl.
    wp_step. wp_step. wp_step.
    split; [simpl; eauto with alive |]. split.
    + rewrite orderOf_set_other by done. by apply orderOf_set.
    + apply orderOf_set. simpl. rewrite lookup_alter_ne by done. done.
Qed.

End AttackOrdersProof.

(** ** Played states are reachable *)

Section Played.

Context `{Game}.

Lemma handle_reachable c e : reachable c -> reachable (handle c e).
Proof.
  intros Hc. unfold reachable.
  destruct e as [w|b|w n|w]; unfold handle, run.
  - destruct (update w c) as [[[] c']|] eqn:Hrun; [|done].
    eapply rtc_r; [exact Hc |]. by eapply step_update.
  - destruct (setAggression b c) as [[[] c']|] eqn:Hrun; [|done].
    eapply rtc_r; [exact Hc |]. by eapply step_setAggression.
  - destruct (pullWorkers w n c) as [[[] c']|] eqn:Hrun; [|done].
    eapply rtc_r; [exact Hc |]. by eapply step_pullWorkers.
  - destruct (releaseWorkers w c) as [[[] c']|] eqn:Hrun; [|done].
    eapply rtc_r; [exact Hc |]. by eapply step_releaseWorkers.
Qed.

Lemma play_from_reachable es c :
  reachable c -> reachable (fold_left handle es c).
Proof.
  revert c. induction es as [|e es IH]; intros c Hc; [done |].
  simpl. by apply IH, handle_reachable.
Qed.

Lemma play_reachable es : reachable (play es).
Proof. apply play_from_reachable, rtc_refl. Qed.

Lemma play_steps es es' : rtc step (play es) (play (es ++ es')).
Proof.
  unfold play. rewrite fold_left_app.
  generalize (fold_left handle es CombatCommander_new). clear es.
  induction es' as [|e es' IH]; intros c; [done |].
  simpl. transitivity (handle c e); [|apply IH].
  destruct e as [w|b|w n|w]; unfold handle, run.
  - destruct (update w c) as [[[] c']|] eqn:Hrun; [|done].
    apply rtc_once. by eapply step_update.
  - destruct (setAggression b c) as [[[] c']|] eqn:Hrun; [|done].
    apply rtc_once. by eapply step_setAggression.
  - destruct (pullWorkers w n c) as [[[] c']|] eqn:Hrun; [|done].
    apply rtc_once. by eapply step_pullWorkers.
  - destruct (releaseWorkers w c) as [[[] c']|] eqn:Hrun; [|done].
    apply rtc_once. by eapply step_releaseWorkers.
Qed.

Lemma reachable_Ready c :
  reachable c -> _initialized c = true -> Ready (_squadData c).
Proof.
  intros Hc Hini. apply reachable_Inv in Hc. unfold Inv in Hc.
  rewrite Hini in Hc. apply Hc.
Qed.

End Played.

(** ** The idle squad (C6) *)

Section Idle.

Context `{Game}.

Lemma idled_assigned sd sd' walked u :
  idled sd sd' walked -> assigned sd u -> assigned sd' u.
Proof.
  intros (_ & Hother & (s & s' & Hs & Hs' & _ & _ & Hsub & _) & _) (n & q & Hn & Hu).
  destruct (decide (n = "Idle")) as [->|Hne].
  - exists "Idle", s'. split; [done |]. rewrite Hs in Hn. simplify_eq.
    by apply Hsub.
  - exists n, q. by rewrite Hother.
Qed.

Lemma idled_start sd s :
  exclusive sd -> sd !! "Idle" = Some s -> idled sd sd [].
Proof.
  intros Hex Hs. split; [done |]. split; [done |]. split.
  - exists s, s. repeat split; try done. intros u Hu. by left.
  - intros u Hu. by apply elem_of_nil in Hu.
Qed.

Lemma idled_skip sd sd' walked u :
  idled sd sd' walked -> assigned sd' u -> idled sd sd' (walked ++ [u]).
Proof.
  intros (Hex & Hother & (s & s' & Hs & Hs' & Hp & Ho & Hsub & Hnew) & Hw) Hu.
  split; [done |]. split; [done |]. split.
  - exists s, s'. repeat split; try done. intros v Hv.
    destruct (Hnew v Hv) as [?|[? ?]]; [by left | right].
    split; [|done]. apply elem_of_app. by left.
  - intros v Hv. apply elem_of_app in Hv as [Hv|Hv]; [by apply Hw |].
    apply list_elem_of_singleton in Hv. by subst v.
Qed.

Lemma idled_take sd sd' walked u :
  idled sd sd' walked ->
  (forall n q, sd' !! n = Some q -> u ∉ squad_units q) ->
  idled sd (alter (with_units (fun us => us ∪ {[u]})) "Idle" sd')
        (walked ++ [u]).
Proof.
  intros Hid Hfree.
  pose proof (idled_assigned _ _ _ u Hid) as Hmono.
  destruct Hid as (Hex & Hother & (s & s' & Hs & Hs' & Hp & Ho & Hsub & Hnew) & Hw).
  split; [|split; [|split]].
  - apply exclusive_add; [done |]. intros n q Hn Hu. by destruct (Hfree n q Hn).
  - intros n Hne. rewrite lookup_alter_ne by done. by apply Hother.
  - exists s, (with_units (fun us => us ∪ {[u]}) s').
    rewrite lookup_alter_eq, Hs'. repeat split; try done.
    + simpl. set_solver.
    + simpl. intros v Hv. apply elem_of_union in Hv as [Hv|Hv].
      * destruct (Hnew v Hv) as [?|[? ?]]; [by left | right].
        split; [|done]. apply elem_of_app. by left.
      * apply elem_of_singleton in Hv. subst v. right. split.
        -- apply elem_of_app. right. by apply list_elem_of_singleton.
        -- intros Ha. destruct (Hmono Ha) as (n & q & Hn & Hu).
           by destruct (Hfree n q Hn).
  - intros v Hv. apply elem_of_app in Hv as [Hv|Hv].
    + destruct (Hw v Hv) as (n & q & Hn & Hu).
      destruct (decide (n = "Idle")) as [->|Hne].
      * exists "Idle", (with_units (fun us => us ∪ {[u]}) s').
        rewrite lookup_alter_eq, Hs'. split; [done |]. simpl.
        rewrite Hs' in Hn. simplify_eq. set_solver.
      * exists n, q. by rewrite lookup_alter_ne.
    + apply list_elem_of_singleton in Hv. subst v.
      exists "Idle", (with_units (fun us => us ∪ {[u]}) s').
      rewrite lookup_alter_eq, Hs'. split; [done |]. simpl. set_solver.
Qed.

(** [updateIdleSquad] ends, and takes the units that are in no squad. *)
Lemma updateIdleSquad_idled c :
  Ready (_squadData c) ->
  wp updateIdleSquad
     (fun _ c' =>
        _combatUnits c' = _combatUnits c
        /\ idled (_squadData c) (_squadData c') (in_order (_combatUnits c))) c.
Proof.
  intros Hr. destruct (ready_idle _ Hr) as (s & Hs & Hp).
  unfold updateIdleSquad. wp_step. apply wpx_getSquad; [by eexists |].
  wp_step. wp_step.
  apply (wpx_for_walked
           (fun walked c' =>
              _combatUnits c' = _combatUnits c
              /\ idled (_squadData c) (_squadData c') walked)).
  - split; [done |]. eapply idled_start; [apply Hr | exact Hs].
  - intros walked u c1 [Hcu Hid]. cbn beta.
    pose proof Hid as (_ & _ & (s0 & s1 & Hs0 & Hs1 & Hp1 & _) & _).
    wp_step. eapply wpx_canAssign; [exact Hs1 |].
    destruct (canAssign (_squadData c1) u s1) eqn:Hcan.
    + unfold when, addUnit. wp_step. simpl. split; [done |].
      apply idled_take; [done |].
      eapply canAssign_lowest; [exact Hcan |]. rewrite Hp1.
      rewrite Hs in Hs0. simplify_eq. exact Hp.
    + unfold when. wp_step. split; [done |].
      apply idled_skip; [done |]. by eapply canAssign_false_assigned.
Qed.

(** C6, amended. The idle policy is the first of a frame's allocation, not
    the last: the frame is [updateIdleSquad] on the frame's combat units,
    followed by the other policies.  When the idle policy has run, every
    combat unit is in exactly one squad: the squads other than the idle squad
    are as they were; the units that were in no squad are in the idle squad,
    whose priority is the lowest; and the idle squad has taken no other
    unit. *)
Theorem idle_policy_takes_the_unassigned w c0 :
  reachable c0 -> _initialized c0 = true ->
  Z.rem (getFrameCount w) 8 = 1 ->
  let us := combatUnits w in
  exists c' idle idle',
    updateIdleSquad (set_combatUnits us c0) = Some (tt, c')
    /\ update w c0
       = (updateDropSquads w ;; updateScoutDefenseSquad w ;;
          updateBaseDefenseSquads w ;; updateReconSquad w ;;
          updateAttackSquads w ;; SquadData_update w)%cc c'
    /\ _combatUnits c' = us
    /\ (forall u, u ∈ us ->
          exists n s, _squadData c' !! n = Some s /\ u ∈ squad_units s
                      /\ only_in (_squadData c') u n)
    /\ (forall n, n <> "Idle" -> _squadData c' !! n = _squadData c0 !! n)
    /\ _squadData c0 !! "Idle" = Some idle
    /\ _squadData c' !! "Idle" = Some idle'
    /\ squad_priority idle' = IdlePriority
    /\ (forall u, u ∈ squad_units idle' <->
                  u ∈ squad_units idle
                  \/ (u ∈ us /\ ~ assigned (_squadData c0) u)).
Proof.
  intros Hreach Hini Hframe us.
  pose proof (reachable_Ready _ Hreach Hini) as Hr.
  set (c := set_combatUnits us c0).
  assert (Hrc : Ready (_squadData c)) by done.
  destruct (ready_idle _ Hr) as (sidle & Hsidle & Hprio).
  pose proof (updateIdleSquad_idled c Hrc) as Hwp.
  unfold wpx in Hwp.
  destruct (updateIdleSquad c) as [[[] c']|] eqn:Hrun; [|done].
  destruct Hwp as [Hcu Hid].
  pose proof Hid as (Hex & Hother & (s & s' & Hs & Hs' & Hp & Ho & Hsub & Hnew)
                     & Hw).
  change (_squadData c) with (_squadData c0) in *.
  change (_combatUnits c) with us in *.
  rewrite Hsidle in Hs. simplify_eq.
  exists c', s, s'. split; [done |]. split.
  { unfold update, bind, gets, when, modify, ret. rewrite Hini, Hframe.
    cbn [negb Z.eqb Pos.eqb]. fold c. rewrite Hrun.
    destruct (updateDropSquads w c') as [[[] c1]|]; [|done].
    destruct (updateScoutDefenseSquad w c1) as [[[] c2]|]; [|done].
    destruct (updateBaseDefenseSquads w c2) as [[[] c3]|]; [|done].
    destruct (updateReconSquad w c3) as [[[] c4]|]; [|done].
    by destruct (updateAttackSquads w c4) as [[[] c5]|]. }
  repeat split; try done.
  - intros u Hu. destruct (Hw u) as (n & q & Hn & Hq).
    { by apply elem_of_in_order. }
    exists n, q. repeat split; try done.
    intros m p Hm Hp'. by eapply Hex.
  - congruence.
  - intros Hu. destruct (Hnew u Hu) as [?|[Hin Hfree]]; [by left | right].
    split; [|done]. by apply elem_of_in_order in Hin.
  - intros [Hu|[Hu Hfree]]; [by apply Hsub |].
    destruct (Hw u) as (n & q & Hn & Hq).
    { by apply elem_of_in_order. }
    destruct (decide (n = "Idle")) as [->|Hne]; [congruence |].
    destruct Hfree. exists n, q. by rewrite <- Hother.
Qed.

End Idle.

(** ** The defensive posture (C9) *)

Section DefensivePosture.

Context `{Game}.

(** The front line: the wall's gap center with a quarter of the radius if
    there is a wall; if not, the natural if we own it, else the main. *)
Lemma defensivePosition_cases w :
  defensivePosition w
  = if wall_exists w then (wall_gapCenter w, 100)
    else (base_getPosition w
            (match getMyNaturalLocation w with
             | Some natural =>
                 if bool_decide (getBaseOwner w natural = Player_self)
                 then natural else getMyMainBaseLocation w
             | None => getMyMainBaseLocation w
             end), 400).
Proof.
  unfold defensivePosition. destruct (wall_exists w); [done |].
  destruct (getMyNaturalLocation w) as [natural|]; [|done].
  repeat case_bool_decide; done || congruence.
Qed.

(** C9, amended. Under a defensive posture [updateAttackSquads] gives both
    the ground and the flying squad an order at the same place with the same
    radius: without a wall, the natural expansion if the player owns it,
    else the main base, with radius 400; with a wall, the wall's gap center
    with the radius quartered, 100.  The ground squad's order is
    hold-against-wall if there is a wall and plain hold if not; the flying
    squad's order is plain hold in both cases. *)
Theorem defensive_orders_ground_and_flying w c :
  Ready (_squadData c) -> _goAggressive c = false ->
  exists c' ground flying,
    updateAttackSquads w c = Some (tt, c')
    /\ orderOf c' "Ground" = Some ground
    /\ orderOf c' "Flying" = Some flying
    /\ order_type ground
       = (if wall_exists w then SquadOrder_HoldWall else SquadOrder_Hold)
    /\ order_type flying = SquadOrder_Hold
    /\ order_position ground = order_position flying
    /\ order_radius ground = order_radius flying
    /\ (wall_exists w = true ->
        order_position ground = wall_gapCenter w
        /\ order_radius ground = Z.quot DefensivePositionRadius 4)
    /\ (wall_exists w = false ->
        order_radius ground = DefensivePositionRadius
        /\ order_position ground
           = base_getPosition w
               (match getMyNaturalLocation w with
                | Some natural =>
                    if bool_decide (getBaseOwner w natural = Player_self)
                    then natural else getMyMainBaseLocation w
                | None => getMyMainBaseLocation w
                end)).
Proof.
  intros Hr Hdef.
  pose proof (updateAttackSquads_orders (F:=False) w _ [] c (Stable_nil _ Hr))
    as Hwp.
  unfold wpx in Hwp.
  destruct (updateAttackSquads w c) as [[[] c']|] eqn:Hrun; [|done].
  destruct Hwp as [_ Horders]. rewrite Hdef in Horders.
  destruct Horders as [Hg Hf].
  eexists c', _, _. split; [done |]. split; [exact Hg |]. split; [exact Hf |].
  simpl. rewrite defensivePosition_cases.
  destruct (wall_exists w); simpl; repeat split; done.
Qed.

End DefensivePosture.

(** ** The weight of the recon squad (C2) *)

Section ReconCap.

Context `{Game}.

(** The cap is as the claim has it. *)
Lemma reconWeightLimit_cases available :
  reconWeightLimit available
  = if available <? 24 then 0 else Z.min 12 (2 + (available - 24) / 6).
Proof.
  unfold reconWeightLimit.
  destruct (Z.leb_spec 24 available); destruct (Z.ltb_spec available 24);
    try lia; [|done].
  rewrite Z.quot_div_nonneg by lia.
  destruct (Z.ltb_spec 12 (2 + (available - 24) / 6)); lia.
Qed.

End ReconCap.

(** * The claims on concrete games *)

Section Scenarios.

#[local] Existing Instance BroodWar.

Lemma released_probe_frame :
  update (probes 9 {[1%nat]} ∅) probe_pulled
  = Some (tt, play [Posture false; Frame (probes 1 {[1%nat]} {[50%nat]});
                    Frame (probes 9 {[1%nat]} ∅)]).
Proof. vm_compute. reflexivity. Qed.

(** C6, as written, fails: the base defense squad, which runs after the
    idle policy, releases the probe it had pulled, and no later policy takes
    a worker. *)
Lemma released_worker_is_left_unassigned : ~ no_unit_left_unassigned.
Proof.
  intros Hall.
  pose proof (Hall (probes 9 {[1%nat]} ∅) probe_pulled _
                (play_reachable _) eq_refl released_probe_frame 1%nat)
    as Hone.
  destruct Hone as (n & s & Hn & Hu); [by vm_compute | done |].
  eapply (getUnitSquad_None
            (_squadData (play [Posture false;
                               Frame (probes 1 {[1%nat]} {[50%nat]});
                               Frame (probes 9 {[1%nat]} ∅)])) 1%nat);
    [by vm_compute | exact Hn | exact Hu].
Qed.

(** C6 at a frame with the pulled probe (unit 1) and a new probe (unit 2):
    the idle policy leaves every unit in exactly one squad. *)
Lemma idle_policy_takes_the_unassigned_witness :
  exists c',
    updateIdleSquad
      (set_combatUnits {[1%nat; 2%nat]} probe_pulled) = Some (tt, c')
    /\ forall u, u ∈ ({[1%nat; 2%nat]} : gset Unit) ->
         exists n s, _squadData c' !! n = Some s /\ u ∈ squad_units s
                     /\ only_in (_squadData c') u n.
Proof.
  destruct (idle_policy_takes_the_unassigned
              (probes 9 {[1%nat; 2%nat]} ∅) probe_pulled)
    as (c' & idle & idle' & Hrun & _ & _ & Hall & _).
  - apply play_reachable.
  - vm_compute. reflexivity.
  - reflexivity.
  - exists c'. split; [exact Hrun | exact Hall].
Defined.

(** C1 on the squads of the infantry after their first allocation. *)
Lemma squads_never_share_a_unit_witness :
  exclusive (_squadData (play [Frame (infantry 0); Frame (infantry 1)])).
Proof.
  apply (squads_never_share_a_unit
           (play [Frame (infantry 0); Frame (infantry 1)])).
  apply play_reachable.
Defined.

(** C3 from the collecting drop squad to the dropped one, two allocations
    later. *)
Lemma drop_order_moves_forward_witness :
  exists od' p p',
    dropOrder
      (_squadData (play [Frame (raiders 1 false); Frame (raiders 9 false);
                         Frame (raiders 17 true)])) = Some od'
    /\ dropPhase (order_type (squad_order (squadOf raiders_collecting "Drop")))
       = Some p
    /\ dropPhase (order_type od') = Some p'
    /\ (p <= p')%nat.
Proof.
  destruct (drop_order_moves_forward
              raiders_collecting
              (play ([Frame (raiders 1 false)]
                     ++ [Frame (raiders 9 false); Frame (raiders 17 true)]))
              (squad_order (squadOf raiders_collecting "Drop")))
    as [(od' & p & p' & Hd & Hp & Hp' & Hle & _) _].
  - apply play_reachable.
  - apply play_steps.
  - vm_compute. reflexivity.
  - exists od', p, p'. repeat split; assumption.
Defined.

(** C4 on the shuttle and its four dark templars, all of them loaded. *)
Lemma full_loaded_drop_squad_departs_witness :
  exists c',
    updateDropSquads (raiders 17 true) raiders_loading = Some (tt, c')
    /\ order_type <$> dropOrder (_squadData c') = Some SquadOrder_Drop.
Proof.
  destruct (full_loaded_drop_squad_departs
              (raiders 17 true) raiders_loading
              (squadOf raiders_loading "Drop"))
    as (c' & Hrun & Hdrop & _).
  - vm_compute. reflexivity.
  - exists 1%nat. split; [by vm_compute |]. split; reflexivity.
  - vm_compute. reflexivity.
  - intros u _ Hcargo. destruct (Nat.eqb_spec u 1) as [->|Hne].
    + vm_compute in Hcargo. discriminate.
    + unfold raiders, scene. simpl. by apply Nat.eqb_neq in Hne as ->.
  - exists c'. by split.
Defined.

(** C5 on a dark templar of the collecting drop squad, asked for by the
    base defense squad. *)
Lemma drop_members_kept_by_priority_witness :
  canAssignUnitToSquad 2%nat "Base Defense 200 200" raiders_collecting
  = Some (false, raiders_collecting).
Proof.
  apply (drop_members_kept_by_priority
           raiders_collecting 2%nat
           (squadOf raiders_collecting "Drop")
           "Base Defense 200 200"
           (squadOf raiders_collecting "Base Defense 200 200")).
  - vm_compute. reflexivity.
  - reflexivity.
  - by vm_compute.
  - vm_compute. reflexivity.
  - reflexivity.
Defined.


(** C9, as written, fails: behind a wall the flying squad's order is plain
    hold. *)
Lemma flying_squad_holds_plainly : ~ both_squads_hold_alike.
Proof.
  intros Hall.
  destruct (Hall (walled 1) wall_manned
              (run (updateAttackSquads (walled 1)) wall_manned))
    as (ground & flying & _ & Hflying & _ & Hkind & _).
  - apply reachable_Ready; [apply play_reachable | by vm_compute].
  - by vm_compute.
  - vm_compute. reflexivity.
  - vm_compute in Hflying. injection Hflying as <-. discriminate Hkind.
Qed.

(** C9 on the zealots and the corsair behind the wall. *)
Lemma defensive_orders_ground_and_flying_witness :
  exists c' ground flying,
    updateAttackSquads (walled 1) wall_manned = Some (tt, c')
    /\ orderOf c' "Ground" = Some ground
    /\ orderOf c' "Flying" = Some flying
    /\ order_type ground = SquadOrder_HoldWall
    /\ order_type flying = SquadOrder_Hold
    /\ order_position ground = mkPosition 640 480
    /\ order_radius ground = 100.
Proof.
  destruct (defensive_orders_ground_and_flying (walled 1) wall_manned)
    as (c' & ground & flying & Hrun & Hg & Hf & Hgk & Hfk & _ & _ & Hwall & _).
  - apply reachable_Ready; [apply play_reachable | by vm_compute].
  - by vm_compute.
  - destruct (Hwall eq_refl) as [Hpos Hrad].
    exists c', ground, flying. repeat split; assumption.
Defined.

(** C10 on the corsair, which cannot attack ground, against a Terran enemy
    whose command center is remembered. *)
Lemma attack_location_terran_building_witness :
  getAttackLocation (walled 1) (Some ("Flying", {[3%nat]}))
  = mkPosition 3500 3500.
Proof.
  destruct (attack_location_terran_building (walled 1) "Flying" {[3%nat]})
    as (kv & Hfind & _ & _ & _ & _ & Hloc).
  - by vm_compute.
  - reflexivity.
  - exists (90%nat,
            mkUnitInfo Terran_Command_Center (mkPosition 3500 3500) false).
    split; [apply list_elem_of_here | reflexivity].
  - rewrite Hloc. vm_compute in Hfind. by injection Hfind as <-.
Defined.

(** C2 on thirteen marines and two medics, whose weights sum to 30: the cap
    is 3, and [updateReconSquad] puts a marine and a medic, of weight 4,
    into the recon squad.  The loop that adds marines stops at one, for a
    second would exceed the cap; the loop that adds medics asks only whether
    the cap is reached already. *)
Theorem recon_medic_exceeds_cap :
  let w := infantry 1 in
  let c := run updateIdleSquad infantry_arrived in
  Ready (_squadData c)
  /\ reconWeight w (in_order (_combatUnits c)) = 30
  /\ reconWeightLimit 30 = 3
  /\ (exists c' recon,
        updateReconSquad w c = Some (tt, c')
        /\ _squadData c' !! "Recon" = Some recon
        /\ squad_units recon = {[1%nat; 14%nat]}
        /\ reconWeight w (in_order (squad_units recon)) = 4)
  /\ ~ recon_weight_within_cap.
Proof.
  intros w c.
  assert (Hready : Ready (_squadData c)).
  { assert (Hr0 : Ready (_squadData infantry_arrived)).
    { apply reachable_Ready; [apply play_reachable | by vm_compute]. }
    pose proof (updateIdleSquad_Stable (F:=False) _ [] infantry_arrived
                  (Stable_nil _ Hr0)) as Hwp.
    unfold wpx in Hwp. unfold c, run.
    destruct (updateIdleSquad infantry_arrived) as [[[] c1]|]; [|done].
    apply Hwp. }
  assert (Hrun : updateReconSquad w c
                 = Some (tt, run (updateReconSquad w) c))
    by (vm_compute; reflexivity).
  assert (Hrecon : _squadData (run (updateReconSquad w) c) !! "Recon"
                   = Some (squadOf (run (updateReconSquad w) c) "Recon"))
    by (vm_compute; reflexivity).
  split; [exact Hready |]. split; [by vm_compute |]. split; [reflexivity |].
  split.
  - eexists _, _. split; [exact Hrun |]. split; [exact Hrecon |].
    split; by vm_compute.
  - intros Hall. specialize (Hall w c _ _ Hready Hrun Hrecon).
    vm_compute in Hall. by apply Hall.
Qed.

End Scenarios.

(** * More properties of the commander *)

(** ** Target selection *)

Section Targets.

Context `{Game}.

Lemma baseScore_from hasGround hasAir (force : list UnitInfo) acc :
  fold_left
    (fun score enemy =>
       if countsAsDefense hasGround hasAir (ui_type enemy)
       then score - 1 else score) force acc
  = acc - Z.of_nat (length (List.filter
                (fun enemy => countsAsDefense hasGround hasAir (ui_type enemy))
                force)).
Proof.
  revert acc. induction force as [|e force IH]; intros acc; simpl; [lia |].
  rewrite IH. destruct (countsAsDefense hasGround hasAir (ui_type e)); simpl; lia.
Qed.

Lemma baseScore_low w hasGround hasAir base :
  - Z.of_nat (length (getNearbyForce w (base_getPosition w base)))
  <= baseScore w hasGround hasAir base.
Proof.
  unfold baseScore. rewrite baseScore_from.
  pose proof (filter_length_le
                (fun enemy => countsAsDefense hasGround hasAir (ui_type enemy))
                (getNearbyForce w (base_getPosition w base))).
  lia.
Qed.

(** X1. The score of an enemy base is 0 or negative: it is minus the number
    of the units near the base that count as its defense, so it is 0 exactly
    when none counts, and never below minus the number of units near the
    base. *)
Theorem baseScore_counts_defenders w hasGround hasAir base :
  let force := getNearbyForce w (base_getPosition w base) in
  let defenders :=
    List.filter (fun enemy => countsAsDefense hasGround hasAir (ui_type enemy))
                force in
  baseScore w hasGround hasAir base = - Z.of_nat (length defenders)
  /\ - Z.of_nat (length force) <= baseScore w hasGround hasAir base <= 0
  /\ (baseScore w hasGround hasAir base = 0 <-> defenders = []).
Proof.
  intros force defenders. unfold baseScore. rewrite baseScore_from.
  fold force. fold defenders.
  pose proof (filter_length_le
                (fun enemy => countsAsDefense hasGround hasAir (ui_type enemy))
                force) as Hle.
  fold defenders in Hle.
  split; [lia |]. split; [lia |]. split.
  - intros H0. destruct defenders; [done | simpl in H0; lia].
  - by intros ->.
Qed.

(** X2. The test for the spellcaster in the count of a base's defenders,
    [enemy.type == enemy.type == Protoss_High_Templar], compares the outcome
    of the first comparison with the type: unless the high templar had the
    type id 1, it holds of no type, and a unit counts as defense only by what
    it can attack.  A squad with neither ground nor air units then sees no
    defender at all. *)
Theorem spellcaster_test_is_dead hasGround hasAir t :
  getID Protoss_High_Templar <> 1 ->
  countsAsDefense hasGround hasAir t
  = (isBuilding t
     || type_eqb t Terran_Siege_Tank_Tank_Mode
     || type_eqb t Terran_Siege_Tank_Siege_Mode
     || type_eqb t Protoss_Reaver || type_eqb t Zerg_Lurker
     || type_eqb t Zerg_Guardian)
    && (hasGround && TypeCanAttackGround t || hasAir && TypeCanAttackAir t)
  /\ countsAsDefense false false t = false
  /\ (TypeCanAttackGround t = false -> TypeCanAttackAir t = false ->
      countsAsDefense hasGround hasAir t = false).
Proof.
  intros Hid.
  assert (Hdead : (Z.b2z (type_eqb t t) =? getID Protoss_High_Templar) = false).
  { unfold type_eqb. rewrite bool_decide_eq_true_2 by done.
    change (Z.b2z true) with 1. apply Z.eqb_neq. congruence. }
  unfold countsAsDefense. rewrite Hdead, !orb_false_r.
  split; [done |]. split.
  - simpl. apply andb_false_r.
  - intros -> ->. by rewrite !andb_false_r.
Qed.

Lemma weakest_from w hasGround hasAir (bases : list BaseLocation)
    (best : option BaseLocation) (bestScore : Z) :
  let step := fun (acc : option BaseLocation * Z) base =>
    if bool_decide (getBaseOwner w base = Player_enemy)
    then let score := baseScore w hasGround hasAir base in
         if snd acc <? score then (Some base, score) else acc
    else acc in
  let r := fold_left step bases (best, bestScore) in
  (r = (best, bestScore)
   /\ forall b, b ∈ bases -> getBaseOwner w b = Player_enemy ->
                baseScore w hasGround hasAir b <= bestScore)
  \/ (exists base before after,
        r = (Some base, baseScore w hasGround hasAir base)
        /\ bases = before ++ base :: after
        /\ getBaseOwner w base = Player_enemy
        /\ bestScore < baseScore w hasGround hasAir base
        /\ (forall b, b ∈ before -> getBaseOwner w b = Player_enemy ->
                      baseScore w hasGround hasAir b
                      < baseScore w hasGround hasAir base)
        /\ (forall b, b ∈ after -> getBaseOwner w b = Player_enemy ->
                      baseScore w hasGround hasAir b
                      <= baseScore w hasGround hasAir base)).
Proof.
  intros step. revert best bestScore.
  induction bases as [|x bases IH]; intros best bestScore r.
  - left. split; [done |]. intros b Hb. by apply elem_of_nil in Hb.
  - subst r. cbn [fold_left].
    assert (Hstep :
      step (best, bestScore) x
      = if bool_decide (getBaseOwner w x = Player_enemy)
        then if bestScore <? baseScore w hasGround hasAir x
             then (Some x, baseScore w hasGround hasAir x)
             else (best, bestScore)
        else (best, bestScore)) by reflexivity.
    rewrite Hstep. clear Hstep.
    destruct (bool_decide (getBaseOwner w x = Player_enemy)) eqn:Hown.
    + apply bool_decide_eq_true in Hown.
      destruct (bestScore <? baseScore w hasGround hasAir x) eqn:Hlt.
      * apply Z.ltb_lt in Hlt.
        destruct (IH (Some x) (baseScore w hasGround hasAir x))
          as [[Hr Hall]|(b & l1 & l2 & Hr & -> & Hb & Hgt & Hbefore & Hafter)].
        -- right. exists x, [], bases. split; [exact Hr |].
           split; [done |]. split; [done |]. split; [done |]. split; [|done].
           intros b Hb. by apply elem_of_nil in Hb.
        -- right. exists b, (x :: l1), l2. split; [exact Hr |].
           split; [done |]. split; [done |]. split; [lia |]. split; [|done].
           intros b' Hb' Hown'. apply elem_of_cons in Hb' as [->|Hb'];
             [lia | by apply Hbefore].
      * apply Z.ltb_ge in Hlt.
        destruct (IH best bestScore)
          as [[Hr Hall]|(b & l1 & l2 & Hr & -> & Hb & Hgt & Hbefore & Hafter)].
        -- left. split; [exact Hr |]. intros b Hb Hown'.
           apply elem_of_cons in Hb as [->|Hb]; [done | by apply Hall].
        -- right. exists b, (x :: l1), l2. split; [exact Hr |].
           split; [done |]. split; [done |]. split; [done |]. split; [|done].
           intros b' Hb' Hown'. apply elem_of_cons in Hb' as [->|Hb'];
             [lia | by apply Hbefore].
    + apply bool_decide_eq_false in Hown.
      destruct (IH best bestScore)
        as [[Hr Hall]|(b & l1 & l2 & Hr & -> & Hb & Hgt & Hbefore & Hafter)].
      * left. split; [exact Hr |]. intros b Hb Hown'.
        apply elem_of_cons in Hb as [->|Hb]; [done | by apply Hall].
      * right. exists b, (x :: l1), l2. split; [exact Hr |].
        split; [done |]. split; [done |]. split; [done |]. split; [|done].
        intros b' Hb' Hown'. apply elem_of_cons in Hb' as [->|Hb'];
          [done | by apply Hbefore].
Qed.

Lemma getAttackLocation_weakest w squad :
  match squad with
  | Some (name, us) => squad_canAttackGround w name us = true
  | None => True
  end ->
  (exists b, b ∈ getBaseLocations w /\ getBaseOwner w b = Player_enemy
             /\ Z.of_nat (length (getNearbyForce w (base_getPosition w b)))
                < 99999) ->
  let hasGround :=
    match squad with Some (n, us) => squad_hasGround w n us | None => true end in
  let hasAir :=
    match squad with Some (n, us) => squad_hasAir w n us | None => false end in
  exists base,
    getAttackLocation w squad = base_getPosition w base
    /\ base ∈ getBaseLocations w
    /\ weakest w hasGround hasAir (in_order (getBaseLocations w)) base.
Proof.
  intros Hcan (b0 & Hb0 & Hown0 & Hforce0) hasGround hasAir.
  destruct (weakest_from w hasGround hasAir (in_order (getBaseLocations w))
              None (-99999))
    as [[_ Hall]|(base & l1 & l2 & Hr & Hl & Hown & Hgt & Hbefore & Hafter)].
  - exfalso. specialize (Hall b0 (proj2 (elem_of_in_order _ _) Hb0) Hown0).
    pose proof (baseScore_low w hasGround hasAir b0). lia.
  - exists base. split; [|split].
    + unfold getAttackLocation.
      assert (Hw : weakestEnemyBase w hasGround hasAir = Some base).
      { unfold weakestEnemyBase. cbv zeta in Hr |- *.
        change (fst ?p = Some base) with (fst p = fst (Some base, baseScore w hasGround hasAir base)).
        by f_equal. }
      destruct squad as [[n us]|]; simpl in *.
      * fold hasGround. fold hasAir. by rewrite Hcan, Hw.
      * subst hasGround hasAir. simpl in Hw. by rewrite Hw.
    + apply elem_of_in_order. rewrite Hl. apply elem_of_app. right. left.
    + split; [done |]. split; [done |]. by exists l1, l2.
Qed.

(** X3. Step 1 of [getAttackLocation]: for a squad that can attack ground
    (or no squad), when the enemy owns a base near which it has fewer than
    99999 units, the attack point is the position of an enemy base whose
    score is the highest, the base with the weakest defense; of several such
    bases it is the first in the walk over the base locations. *)
Theorem attack_location_is_weakest_base w squad :
  match squad with
  | Some (name, us) => squad_canAttackGround w name us = true
  | None => True
  end ->
  (exists b, b ∈ getBaseLocations w /\ getBaseOwner w b = Player_enemy
             /\ Z.of_nat (length (getNearbyForce w (base_getPosition w b)))
                < 99999) ->
  let hasGround :=
    match squad with Some (n, us) => squad_hasGround w n us | None => true end in
  let hasAir :=
    match squad with Some (n, us) => squad_hasAir w n us | None => false end in
  exists base,
    getAttackLocation w squad = base_getPosition w base
    /\ base ∈ getBaseLocations w
    /\ weakest w hasGround hasAir (in_order (getBaseLocations w)) base.
Proof. apply getAttackLocation_weakest. Qed.

End Targets.

(** ** Reconnaissance *)

Section Recon.

Context `{Game}.

(** X4. The recon squad's allowance is between 0 and the maximum weight of
    12 and grows with the weight that is available: it is 0 below an
    available weight of 24, at least 2 from there on, and 12 from an
    available weight of 84 on. *)
Theorem reconWeightLimit_range_and_growth a b :
  0 <= reconWeightLimit a <= 12
  /\ (reconWeightLimit a = 0 <-> a < 24)
  /\ (24 <= a -> 2 <= reconWeightLimit a)
  /\ (reconWeightLimit a = 12 <-> 84 <= a)
  /\ (a <= b -> reconWeightLimit a <= reconWeightLimit b).
Proof.
  assert (Hq : forall x, 24 <= x ->
            Z.quot (x - 24) 6 = (x - 24) / 6) by
    (intros x Hx; apply Z.quot_div_nonneg; lia).
  assert (Hlim : forall x,
            reconWeightLimit x
            = if x <? 24 then 0 else Z.min 12 (2 + (x - 24) / 6)).
  { intros x. unfold reconWeightLimit.
    destruct (Z.leb_spec 24 x); destruct (Z.ltb_spec x 24); try lia; [|done].
    rewrite Hq by done.
    destruct (Z.ltb_spec 12 (2 + (x - 24) / 6)); lia. }
  rewrite !Hlim.
  destruct (Z.ltb_spec a 24) as [Ha|Ha]; destruct (Z.ltb_spec b 24) as [Hb|Hb].
  - repeat split; intros; try lia.
  - repeat split; intros; try lia.
    pose proof (Z.div_pos (b - 24) 6). lia.
  - pose proof (Z.div_pos (a - 24) 6).
    repeat split; intros; try lia.
    + apply Z.min_l_iff in H1. 
      destruct (Z_lt_le_dec a 84); [|done].
      assert ((a - 24) / 6 < 10) by (apply Z.div_lt_upper_bound; lia). lia.
    + apply Z.min_l. 
      assert (10 <= (a - 24) / 6) by (apply Z.div_le_lower_bound; lia). lia.
  - pose proof (Z.div_pos (a - 24) 6).
    repeat split; intros; try lia.
    + apply Z.min_l_iff in H1.
      destruct (Z_lt_le_dec a 84); [|done].
      assert ((a - 24) / 6 < 10) by (apply Z.div_lt_upper_bound; lia). lia.
    + apply Z.min_l.
      assert (10 <= (a - 24) / 6) by (apply Z.div_le_lower_bound; lia). lia.
    + assert ((a - 24) / 6 <= (b - 24) / 6) by (apply Z.div_le_mono; lia).
      lia.
Qed.

(** X5. The place [getReconLocation] chooses is the position of a base that
    is neutral and that the ground distance map reaches from our main base,
    and the invalid position when there is no such base. *)
Theorem getReconLocation_picks_a_free_base w :
  let free := fun base =>
    getBaseOwner w base = Player_neutral
    /\ getGroundTileDistance w (base_getPosition w base)
         (base_getPosition w (getMyMainBaseLocation w)) <> -1 in
  ((forall base, base ∈ getBaseLocations w -> ~ free base) ->
   getReconLocation w = Positions_Invalid)
  /\ ((exists base, base ∈ getBaseLocations w /\ free base) ->
      exists base, base ∈ getBaseLocations w /\ free base
                   /\ getReconLocation w = base_getPosition w base).
Proof.
  intros free. unfold getReconLocation.
  set (mainPosition := base_getPosition w (getMyMainBaseLocation w)).
  set (p := fun base =>
         bool_decide (getBaseOwner w base = Player_neutral)
         && negb (getGroundTileDistance w (base_getPosition w base) mainPosition
                  =? -1)).
  assert (Hp : forall base, p base = true <-> free base).
  { intros base. unfold p, free. rewrite andb_true_iff, negb_true_iff.
    rewrite bool_decide_eq_true, Z.eqb_neq. done. }
  set (choices := List.filter p (in_order (getBaseLocations w))).
  assert (Hin : forall base, In base choices <->
                             base ∈ getBaseLocations w /\ free base).
  { intros base. unfold choices. rewrite filter_In, Hp.
    by rewrite <- list_elem_of_In, elem_of_in_order. }
  split.
  - intros Hnone. destruct choices as [|first rest] eqn:Hch; [done |].
    destruct (proj1 (Hin first)) as [Hb Hf]; [by left |].
    by destruct (Hnone first).
  - intros (base & Hb & Hf).
    destruct choices as [|first rest] eqn:Hch.
    { by destruct (proj2 (Hin base)). }
    set (i := (Random_next w mod length (first :: rest))%nat).
    assert (Hi : (i < length (first :: rest))%nat).
    { apply Nat.mod_upper_bound. simpl. lia. }
    exists (nth i (first :: rest) first).
    pose proof (nth_In (first :: rest) first Hi) as Hnth.
    apply Hin in Hnth as [? ?]. done.
Qed.

End Recon.

(** ** Flying defenders *)

Section FlyingNeed.

Context `{Game}.


End FlyingNeed.

(** ** Workers *)

Section Workers.

Context `{Game}.

Lemma StronglySorted_list_filter {A} (R : relation A) (p : A -> bool) l :
  StronglySorted R l -> StronglySorted R (List.filter p l).
Proof.
  induction 1 as [|x l Hs IH Hall]; simpl; [constructor |].
  destruct (p x); [|done]. constructor; [done |].
  rewrite Forall_forall in Hall |- *. intros y Hy.
  apply Hall. apply list_elem_of_In. apply list_elem_of_In in Hy.
  by apply filter_In in Hy as [? _].
Qed.

Lemma closest_worker_from w (distanceTo : Unit -> Unit -> Z) (target : Unit)
    (l : list Unit) found d :
  closestMineralWorker
    (fold_left
       (fun (l : ClosestWorker) unit =>
          if isWorker (getType w unit) && WorkerManager_isFree w unit then
            let dist := distanceTo unit target in
            let dist := if isCarryingMinerals w unit then dist + 96 else dist in
            if dist <? closestDist l
            then mkClosestWorker (Some unit) (closestDist l)
            else l
          else l)
       l (mkClosestWorker found d))
  = match last (List.filter
                  (fun unit =>
                     isWorker (getType w unit) && WorkerManager_isFree w unit
                     && ((if isCarryingMinerals w unit
                          then distanceTo unit target + 96
                          else distanceTo unit target) <? d))
                  l) with
    | Some unit => Some unit
    | None => found
    end.
Proof.
  revert found. induction l as [|u l IH]; intros found; [done |].
  cbn [fold_left List.filter].
  destruct (isWorker (getType w u) && WorkerManager_isFree w u); simpl;
    [|apply IH].
  destruct ((if isCarryingMinerals w u
             then distanceTo u target + 96 else distanceTo u target) <? d);
    [|apply IH].
  rewrite IH, last_cons. by destruct (last _).
Qed.

(** X7. [findClosestWorkerToTarget] does not return the closest worker: it
    returns the last, in the walk over the given units, of the free workers
    whose distance to the target (96 more when carrying minerals) is below
    the scout defense radius plus 128, whatever the distances of the others;
    none if there is no such worker.  It leaves the commander as it is, and
    stops on its assertion when there is no target. *)
Theorem findClosestWorkerToTarget_returns_the_last w distanceTo us target c :
  findClosestWorkerToTarget w distanceTo us (Some target) c
  = Some (last (List.filter (pullable w distanceTo target) (in_order us)), c)
  /\ findClosestWorkerToTarget w distanceTo us None c = None
  /\ forall worker,
       last (List.filter (pullable w distanceTo target) (in_order us))
       = Some worker ->
       worker ∈ us /\ pullable w distanceTo target worker = true
       /\ forall other, other ∈ us ->
            pullable w distanceTo target other = true ->
            (other <= worker)%nat.
Proof.
  split; [|split; [done |]].
  - unfold findClosestWorkerToTarget, UAB_ASSERT, bind, ret. simpl.
    f_equal. f_equal.
    etransitivity; [apply (closest_worker_from w distanceTo target) |].
    unfold pullable. by destruct (last _).
  - intros worker Hlast. apply last_Some in Hlast as [l' Hl'].
    assert (Hin : worker ∈ List.filter (pullable w distanceTo target)
                                       (in_order us)).
    { rewrite Hl'. apply elem_of_app. right. by apply list_elem_of_singleton. }
    apply list_elem_of_In, filter_In in Hin as [Hin Hp].
    apply list_elem_of_In, elem_of_in_order in Hin.
    split; [done |]. split; [done |].
    intros other Hother Hpo.
    assert (Hino : other ∈ List.filter (pullable w distanceTo target)
                                       (in_order us)).
    { apply list_elem_of_In, filter_In. split; [|done].
      by apply list_elem_of_In, elem_of_in_order. }
    rewrite Hl' in Hino. apply elem_of_app in Hino as [Hino|Hino].
    + assert (Hs : StronglySorted le (l' ++ [worker])).
      { rewrite <- Hl'. apply StronglySorted_list_filter.
        apply (StronglySorted_merge_sort le). }
      eapply (StronglySorted_app_1_elem_of le); [exact Hs | exact Hino |].
      by apply list_elem_of_singleton.
    + apply list_elem_of_singleton in Hino. subst. done.
Qed.

End Workers.

(** ** Workers pulled into the attack squad *)

Section PullWorkers.

Context `{Game}.








End PullWorkers.

(** ** A frame *)

Section WholeFrames.

Context `{Game}.

Lemma allocate_fixed w c : wlp (allocate w) (fun _ c' => fixed c c') c.
Proof.
  unfold allocate.
  apply wpx_bind. eapply wpx_mono; [apply updateIdleSquad_fixed |].
  intros [] c1 Hf1. cbn beta.
  apply wpx_bind. eapply wpx_mono; [apply updateDropSquads_fixed |].
  intros [] c2 Hf2. cbn beta.
  apply wpx_bind. eapply wpx_mono; [apply updateScoutDefenseSquad_fixed |].
  intros [] c3 Hf3. cbn beta.
  apply wpx_bind. eapply wpx_mono; [apply updateBaseDefenseSquads_fixed |].
  intros [] c4 Hf4. cbn beta.
  apply wpx_bind. eapply wpx_mono; [apply updateReconSquad_fixed |].
  intros [] c5 Hf5. cbn beta.
  eapply wpx_mono; [apply updateAttackSquads_fixed |].
  intros [] c6 Hf6. cbn beta.
  repeat (eapply fixed_trans; [eassumption |]). apply fixed_refl.
Qed.

(** A frame writes the combat units it is given, and leaves the posture to
    [setAggression]. *)
Lemma update_writes w c :
  wlp (update w)
      (fun _ c' => _goAggressive c' = _goAggressive c
                   /\ _combatUnits c' = combatUnits w) c.
Proof.
  rewrite update_allocate. wl_step. wl_step. wl_step.
  eapply (wpx_mono _ (fun _ c' => _goAggressive c' = _goAggressive c)).
  { wl_step. wl_step; [|done]. unfold initializeSquads, addSquad.
    wl_inv (fun c' : CombatCommander => _goAggressive c' = _goAggressive c);
      try assumption; done. }
  intros [] c1 Hag1. cbn beta. wl_step. wl_step. wl_step. wl_step.
  assert (Hlast : forall c2,
            _goAggressive c2 = _goAggressive c ->
            _combatUnits c2 = combatUnits w ->
            wlp (SquadData_update w)
              (fun _ c' => _goAggressive c' = _goAggressive c
                           /\ _combatUnits c' = combatUnits w) c2).
  { intros c2 Hag2 Hcu2. unfold SquadData_update. wl_step. done. }
  destruct (Z.rem (getFrameCount w) 8 =? 1).
  - eapply wpx_mono; [apply allocate_fixed |].
    intros [] c2 (Hcu & _ & Hag). cbn beta. simpl in *.
    apply Hlast; congruence.
  - by apply Hlast.
Qed.

(** X9. With a scout defense radius that is not negative, a frame from any
    state the commander has reached ends: none of the assertions in the six
    policies and in the registry fails, and every loop ends.  The frame
    leaves the squads made, the combat units as given and the posture as it
    was, and the state it ends in is reached. *)
Theorem frame_never_fails w c :
  0 <= Config_Micro_ScoutDefenseRadius -> reachable c ->
  exists c',
    update w c = Some (tt, c')
    /\ reachable c'
    /\ _initialized c' = true
    /\ _combatUnits c' = combatUnits w
    /\ _goAggressive c' = _goAggressive c.
Proof.
  intros Hrad Hr.
  destruct (update_total w c Hrad Hr) as [c' Hrun].
  exists c'. split; [done |]. split.
  { eapply rtc_r; [exact Hr |]. by eapply step_update. }
  pose proof (update_writes w c) as Hw.
  apply (proj1 (wlp_run _ _ _)) with (a:=tt) (c':=c') in Hw as [Hag Hcu];
    [|done].
  apply reachable_Inv in Hr.
  assert (Hok : Config_Micro_ScoutDefenseRadius < 0 -> False) by lia.
  pose proof (update_Inv (F:=False) Hok w c Hr) as Hi.
  unfold wpx in Hi. rewrite Hrun in Hi. destruct Hi as (_ & Hini & _).
  done.
Qed.

End WholeFrames.

(** ** The scout defense squad and the drop squad *)

Section ScoutAndDrop.

Context `{Game}.

(** The transport the census of the drop squad ends with is the last
    transport of the squad. *)
Lemma dropCensus_last_transport w (l : list Unit) t0 s0 a0 :
  fst (fst (fold_left
    (fun (acc : option Unit * Z * bool) unit =>
       let '(transportUnit, transportSpotsRemaining, anyUnloadedUnits) := acc in
       if unit_exists w unit then
         if isFlying w unit && (0 <? spaceProvided (getType w unit))
         then (Some unit, transportSpotsRemaining, anyUnloadedUnits)
         else (transportUnit,
               transportSpotsRemaining - spaceRequired (getType w unit),
               if negb (isLoaded w unit) then true else anyUnloadedUnits)
       else acc)
    l (t0, s0, a0)))
  = match last (List.filter
                  (fun unit => unit_exists w unit && isTransport w unit) l) with
    | Some transport => Some transport
    | None => t0
    end.
Proof.
  revert t0 s0 a0. induction l as [|u l IH]; intros t0 s0 a0; [done |].
  cbn [fold_left List.filter]. unfold isTransport at 1.
  destruct (unit_exists w u); simpl; [|apply IH].
  destruct (isFlying w u && (0 <? spaceProvided (getType w u))); simpl;
    [|apply IH].
  rewrite IH, last_cons. by destruct (last _).
Qed.

Lemma dropCensus_transport w (l : list Unit) t0 :
  (exists u, u ∈ l /\ unit_exists w u = true /\ isTransport w u = true) ->
  exists transport,
    fst (fst (fold_left
      (fun (acc : option Unit * Z * bool) unit =>
         let '(transportUnit, transportSpotsRemaining, anyUnloadedUnits) := acc in
         if unit_exists w unit then
           if isFlying w unit && (0 <? spaceProvided (getType w unit))
           then (Some unit, transportSpotsRemaining, anyUnloadedUnits)
           else (transportUnit,
                 transportSpotsRemaining - spaceRequired (getType w unit),
                 if negb (isLoaded w unit) then true else anyUnloadedUnits)
         else acc)
      l (t0, 8, false))) = Some transport
    /\ transport ∈ l
    /\ unit_exists w transport = true
    /\ isTransport w transport = true.
Proof.
  intros (v & Hv & Hvex & Hvt). rewrite dropCensus_last_transport.
  destruct (last _) as [transport|] eqn:Hlast.
  - exists transport. split; [done |].
    apply last_Some_elem_of, list_elem_of_In, filter_In in Hlast
      as [Hin Hp].
    apply andb_true_iff in Hp as [? ?]. by apply list_elem_of_In in Hin.
  - apply last_None in Hlast.
    assert (Hvin : v ∈ List.filter
                     (fun unit => unit_exists w unit && isTransport w unit) l).
    { apply list_elem_of_In, filter_In. split; [by apply list_elem_of_In |].
      by rewrite Hvex, Hvt. }
    rewrite Hlast in Hvin. by apply elem_of_nil in Hvin.
Qed.

(** X10. The scout defense squad is disbanded as soon as the home region
    holds an enemy unit that is no scout: any unit but an overlord that is
    not a worker, or a worker while an enemy worker has attacked within the
    last 120 frames.  [updateScoutDefenseSquad] then empties the squad and
    leaves its order and all other squads as they are. *)
Theorem threat_disbands_scout_defense w c myRegion scoutDefense threat :
  Config_Micro_ScoutDefenseRadius <> 0 ->
  _combatUnits c <> ∅ ->
  _squadData c !! "ScoutDefense" = Some scoutDefense ->
  getRegion w (base_getTilePosition w (getMyMainBaseLocation w))
  = Some myRegion ->
  isValid (region_getCenter w myRegion) = true ->
  threat ∈ enemy_getUnits w ->
  inRegion w threat myRegion = true ->
  getType w threat <> Zerg_Overlord ->
  (isWorker (getType w threat) = false
   \/ getFrameCount w - 120 < _enemyWorkerAttackedAt c) ->
  exists c' scoutDefense',
    updateScoutDefenseSquad w c = Some (tt, c')
    /\ _squadData c' !! "ScoutDefense" = Some scoutDefense'
    /\ squad_units scoutDefense' = ∅
    /\ squad_order scoutDefense' = squad_order scoutDefense
    /\ forall n, n <> "ScoutDefense" -> _squadData c' !! n = _squadData c !! n.
Proof.
  intros Hrad Hunits Hsq Hregion Hvalid Hin Hreg Hover Hthreat.
  assert (Hwp : wp (updateScoutDefenseSquad w)
            (fun _ c' =>
               exists scoutDefense',
                 _squadData c' !! "ScoutDefense" = Some scoutDefense'
                 /\ squad_units scoutDefense' = ∅
                 /\ squad_order scoutDefense' = squad_order scoutDefense
                 /\ forall n, n <> "ScoutDefense" ->
                              _squadData c' !! n = _squadData c !! n) c).
  { unfold updateScoutDefenseSquad. wp_step. wp_step.
    rewrite (proj2 (Z.eqb_neq _ _) Hrad), bool_decide_eq_false_2 by done.
    simpl. wp_step. apply wpx_getSquad; [by eexists |].
    rewrite Hregion, Hvalid. simpl. wp_step. wp_step.
    assert (Hchase :
      existsb
        (fun unit =>
           inRegion w unit myRegion
           && (negb (type_eqb (getType w unit) Zerg_Overlord)
               && (negb (isWorker (getType w unit))
                   || (getFrameCount w - 120 <? _enemyWorkerAttackedAt c))))
        (in_order (enemy_getUnits w)) = true).
    { apply existsb_exists. exists threat. split.
      - by apply list_elem_of_In, elem_of_in_order.
      - rewrite Hreg. simpl. unfold type_eqb.
        rewrite bool_decide_eq_false_2 by done. simpl.
        destruct Hthreat as [->|Hlt]; [done |].
        apply Z.ltb_lt in Hlt. rewrite Hlt. apply orb_true_r. }
    rewrite Hchase. simpl.
    wp_step. eapply wpx_isEmpty; [exact Hsq |].
    case_bool_decide as Hempty; simpl.
    - exists scoutDefense. done.
    - unfold clear. wp_step. simpl. exists (with_units (fun _ => ∅) scoutDefense).
      rewrite lookup_alter_eq, Hsq. repeat split; try done.
      intros n Hn. by rewrite lookup_alter_ne. }
  apply wp_run_unit in Hwp as (c' & Hrun & s' & Hs'). by exists c', s'.
Qed.

(** X11. The drop squad loads up when it is complete: with a transport
    among its units and units that require exactly the 8 spots, of which
    some unit is not loaded yet, [updateDropSquads] gives a squad that is
    not ordered to drop yet the order to load, at the place of a transport
    of the squad and with the attack radius; the squad keeps its units, and
    nothing else changes. *)
Theorem complete_drop_squad_loads_up w c sdrop straggler :
  _squadData c !! "Drop" = Some sdrop ->
  order_type (squad_order sdrop) <> SquadOrder_Drop ->
  (exists t, t ∈ squad_units sdrop
             /\ unit_exists w t = true /\ isTransport w t = true) ->
  cargoRequired w (squad_units sdrop) = 8 ->
  straggler ∈ squad_units sdrop ->
  isCargo w straggler = true ->
  isLoaded w straggler = false ->
  exists transport,
    transport ∈ squad_units sdrop
    /\ unit_exists w transport = true
    /\ isTransport w transport = true
    /\ updateDropSquads w c
       = Some (tt, set_squadData
                     (alter (with_order
                               (mkSquadOrder SquadOrder_Load
                                  (getPosition w transport) AttackRadius
                                  "Load up"))
                            "Drop") c).
Proof.
  intros Hdrop Hkind (t & Ht & Hex & Htr) Hcargo Hin Hc Hl.
  destruct (dropCensus_transport w (in_order (squad_units sdrop)) None
              (ex_intro _ t (conj (proj2 (elem_of_in_order _ _) Ht)
                                  (conj Hex Htr))))
    as (transport & Hfound & Htin & Htex & Httr).
  exists transport. apply elem_of_in_order in Htin.
  split; [done |]. split; [done |]. split; [done |].
  assert (Hwp : wp (updateDropSquads w)
            (fun _ c' =>
               c' = set_squadData
                      (alter (with_order
                                (mkSquadOrder SquadOrder_Load
                                   (getPosition w transport) AttackRadius
                                   "Load up"))
                             "Drop") c) c).
  { unfold updateDropSquads.
    wp_step. apply wpx_squadExists.
    rewrite bool_decide_eq_true_2 by by eexists. simpl.
    wp_step. apply wpx_getSquad; [by eexists |].
    wp_step. eapply wpx_getSquadOrder; [exact Hdrop |].
    rewrite bool_decide_eq_false_2 by done.
    wp_step. eapply wpx_getUnits; [exact Hdrop |].
    unfold dropCensus.
    destruct (dropCensus_from w (in_order (squad_units sdrop)) None 8 false)
      as (t' & Hcensus & _).
    rewrite Hcensus in Hfound |- *. simpl in Hfound. subst t'.
    fold (cargoRequired w (squad_units sdrop)). rewrite Hcargo. simpl.
    assert (Hsome : existsb (fun u => isCargo w u && negb (isLoaded w u))
                            (in_order (squad_units sdrop)) = true).
    { apply existsb_exists. exists straggler. split.
      - by apply list_elem_of_In, elem_of_in_order.
      - by rewrite Hc, Hl. }
    rewrite Hsome. unfold setSquadOrder. wp_step. done. }
  apply wp_run_unit in Hwp as (c' & Hrun & ->). done.
Qed.

End ScoutAndDrop.

(** ** The idle squad, again, and the attack orders *)

Section IdleAgain.

Context `{Game}.

(** The idle policy passes over units that are in a squad. *)
Lemma idle_walk_assigned (l : list Unit) idle c :
  _squadData c !! "Idle" = Some idle ->
  squad_priority idle = IdlePriority ->
  (forall u, u ∈ l -> assigned (_squadData c) u) ->
  for_ l (fun unit =>
            can <- canAssignUnitToSquad unit "Idle" ;;
            when can (addUnit "Idle" unit)) c
  = Some (tt, c).
Proof.
  intros Hidle Hprio. induction l as [|u l IH]; intros Hall; [done |].
  cbn [for_]. unfold bind at 1. unfold bind at 1.
  rewrite (canAssignUnitToSquad_run _ _ _ _ Hidle).
  assert (Hcan : canAssign (_squadData c) u idle = false).
  { apply bool_decide_eq_false. intros Hforall.
    destruct (Hall u) as (n & q & Hn & Hu); [by left |].
    specialize (Hforall n q Hn Hu). simpl in Hforall.
    rewrite Hprio in Hforall. unfold IdlePriority in Hforall. lia. }
  rewrite Hcan. simpl. apply IH. intros v Hv. apply Hall. by right.
Qed.

(** X12. The idle policy is idempotent: when it has run, every combat unit
    is in a squad, and running it again changes nothing. *)
Theorem idle_policy_twice c :
  Ready (_squadData c) ->
  exists c',
    updateIdleSquad c = Some (tt, c')
    /\ (forall u, u ∈ _combatUnits c' -> assigned (_squadData c') u)
    /\ updateIdleSquad c' = Some (tt, c').
Proof.
  intros Hr. destruct (ready_idle _ Hr) as (idle & Hidle & Hprio).
  pose proof (updateIdleSquad_idled c Hr) as Hwp. unfold wpx in Hwp.
  destruct (updateIdleSquad c) as [[[] c']|] eqn:Hrun; [|done].
  destruct Hwp as [Hcu (Hex & Hother & (s & s' & Hs & Hs' & Hp & _) & Hw)].
  assert (Hall : forall u, u ∈ _combatUnits c' -> assigned (_squadData c') u).
  { intros u Hu. apply Hw. apply elem_of_in_order. by rewrite <- Hcu. }
  exists c'. split; [done |]. split; [done |].
  unfold updateIdleSquad, getSquad, squadExists.
  unfold bind at 1. unfold bind at 1. unfold gets at 1.
  rewrite bool_decide_eq_true_2 by by eexists.
  unfold ret at 1. cbn iota beta. unfold bind at 1. unfold gets at 1.
  cbn iota beta.
  apply (idle_walk_assigned _ s'); [done | |].
  - rewrite Hp. rewrite Hidle in Hs. by simplify_eq.
  - intros u Hu. apply Hall. by apply elem_of_in_order.
Qed.

End IdleAgain.

Section Aggressive.

Context `{Game} {F : Prop}.

Lemma updateAttackSquads_attack w o rs c :
  Stable o rs (_squadData c) -> _goAggressive c = true ->
  wpx F (updateAttackSquads w)
      (fun _ c' =>
         exists ground flying,
           _squadData c' !! "Ground" = Some ground
           /\ _squadData c' !! "Flying" = Some flying
           /\ squad_order ground
              = mkSquadOrder SquadOrder_Attack
                  (getAttackLocation w (Some ("Ground", squad_units ground)))
                  AttackRadius "Attack enemy base"
           /\ squad_order flying
              = mkSquadOrder SquadOrder_Attack
                  (getAttackLocation w (Some ("Flying", squad_units flying)))
                  AttackRadius "Attack enemy base") c.
Proof.
  intros Hst Hag0. unfold updateAttackSquads.
  assert (Hheld : Held o rs c c) by (split; [done | apply fixed_refl]).
  do 11 wp_step.
  eapply (wpx_mono _ (fun _ c' => Held o rs c c')).
  { apply wpx_for_each; [done |]. intros u dets c1 _ Hheld1.
    wp_inv_with (Held o rs c)
      ltac:(idtac; lazymatch goal with
            | |- wpx _ (bind (removeUnit _ _) _) _ _ =>
                eapply (wpx_mono _ (fun _ c' => Held o rs c c'));
                [ eapply evict_Held;
                  [ eassumption | eassumption
                  | by eapply bool_decide_eq_true_1 | eauto with alive ]
                | intros ? ? ? ]
            end);
      eauto with alive. }
  intros dets c1 [Hst1 (_ & _ & Hag)]. cbn beta.
  wp_step. wp_step. rewrite Hag, Hag0.
  assert (Hg : is_Some (_squadData c1 !! "Ground")) by eauto with alive.
  assert (Hf : is_Some (_squadData c1 !! "Flying")) by eauto with alive.
  destruct Hg as [sg Hg]. destruct Hf as [sf Hf].
  wp_step. eapply wpx_getUnits; [exact Hg |]. wp_step. wp_step.
  wp_step. eapply wpx_getUnits.
  { simpl. rewrite lookup_alter_ne by done. exact Hf. }
  wp_step. simpl.
  eexists _, _. split.
  { rewrite lookup_alter_ne by done. rewrite lookup_alter_eq, Hg. done. }
  split.
  { rewrite lookup_alter_eq, lookup_alter_ne by done. rewrite Hf. done. }
  done.
Qed.

End Aggressive.

Section AggressiveOrders.

Context `{Game}.

(** X13. Under an aggressive posture [updateAttackSquads] orders the ground
    squad and the flying squad to attack, with the attack radius of 800,
    each at the attack point chosen for the units it then has.  When the
    ground squad can attack ground and the enemy holds a base, that point is
    the position of the enemy base with the weakest defense. *)
Theorem aggressive_squads_attack w c :
  Ready (_squadData c) -> _goAggressive c = true ->
  exists c' ground flying,
    updateAttackSquads w c = Some (tt, c')
    /\ _squadData c' !! "Ground" = Some ground
    /\ _squadData c' !! "Flying" = Some flying
    /\ squad_order ground
       = mkSquadOrder SquadOrder_Attack
           (getAttackLocation w (Some ("Ground", squad_units ground)))
           AttackRadius "Attack enemy base"
    /\ squad_order flying
       = mkSquadOrder SquadOrder_Attack
           (getAttackLocation w (Some ("Flying", squad_units flying)))
           AttackRadius "Attack enemy base"
    /\ (squad_canAttackGround w "Ground" (squad_units ground) = true ->
        (exists b, b ∈ getBaseLocations w /\ getBaseOwner w b = Player_enemy
           /\ Z.of_nat (length (getNearbyForce w (base_getPosition w b)))
              < 99999) ->
        exists base,
          order_position (squad_order ground) = base_getPosition w base
          /\ weakest w (squad_hasGround w "Ground" (squad_units ground))
                     (squad_hasAir w "Ground" (squad_units ground))
                     (in_order (getBaseLocations w)) base).
Proof.
  intros Hr Hag.
  pose proof (updateAttackSquads_attack (F:=False) w _ [] c
                (Stable_nil _ Hr) Hag) as Hwp.
  apply wp_run_unit in Hwp as (c' & Hrun & ground & flying & Hg & Hf & Hog & Hof).
  exists c', ground, flying. repeat (split; [done |]).
  intros Hcan Hbase.
  destruct (getAttackLocation_weakest w
              (Some ("Ground", squad_units ground)) Hcan Hbase)
    as (base & Hloc & _ & Hweak).
  exists base. rewrite Hog. simpl. by split.
Qed.

End AggressiveOrders.

(** ** The defender chosen *)

Section ClosestDefender.

Context `{Game}.

Lemma nearest_from (dist : Unit -> Z) (l : list Unit) (found : option Unit)
    (d : Z) :
  let step := fun (acc : option Unit * Z) u =>
    if dist u <? snd acc then (Some u, dist u) else acc in
  let r := fold_left step l (found, d) in
  (r = (found, d) /\ forall v, v ∈ l -> d <= dist v)
  \/ (exists u before after,
        r = (Some u, dist u) /\ l = before ++ u :: after /\ dist u < d
        /\ (forall v, v ∈ before -> dist u < dist v)
        /\ (forall v, v ∈ after -> dist u <= dist v)).
Proof.
  intros step. revert found d.
  induction l as [|x l IH]; intros found d r.
  - left. split; [done |]. intros v Hv. by apply elem_of_nil in Hv.
  - subst r. cbn [fold_left].
    assert (Hstep : step (found, d) x
                    = if dist x <? d then (Some x, dist x) else (found, d))
      by reflexivity.
    rewrite Hstep. clear Hstep.
    destruct (dist x <? d) eqn:Hlt.
    + apply Z.ltb_lt in Hlt.
      destruct (IH (Some x) (dist x))
        as [[Hr Hall]|(u & l1 & l2 & Hr & -> & Hu & Hbefore & Hafter)].
      * right. exists x, [], l. split; [exact Hr |]. split; [done |].
        split; [done |]. split; [|done].
        intros v Hv. by apply elem_of_nil in Hv.
      * right. exists u, (x :: l1), l2. split; [exact Hr |].
        split; [done |]. split; [lia |]. split; [|done].
        intros v Hv. apply elem_of_cons in Hv as [->|Hv];
          [lia | by apply Hbefore].
    + apply Z.ltb_ge in Hlt.
      destruct (IH found d)
        as [[Hr Hall]|(u & l1 & l2 & Hr & -> & Hu & Hbefore & Hafter)].
      * left. split; [exact Hr |]. intros v Hv.
        apply elem_of_cons in Hv as [->|Hv]; [done | by apply Hall].
      * right. exists u, (x :: l1), l2. split; [exact Hr |].
        split; [done |]. split; [done |]. split; [|done].
        intros v Hv. apply elem_of_cons in Hv as [->|Hv];
          [lia | by apply Hbefore].
Qed.

Lemma nearest_fold (dist : Unit -> Z) (l : list Unit) :
  let r := fold_left
             (fun (acc : option Unit * Z) u =>
                if dist u <? snd acc then (Some u, dist u) else acc)
             l (None, 99999) in
  nearest dist l (fst r)
  /\ snd r = match fst r with Some u => dist u | None => 99999 end.
Proof.
  intros r. subst r.
  destruct (nearest_from dist l None 99999)
    as [[-> Hall]|(u & l1 & l2 & -> & -> & Hu & Hbefore & Hafter)]; simpl.
  - done.
  - split; [|done]. split; [done |]. by exists l1, l2.
Qed.

(** The locals of [findClosestDefender] after a walk are those of two
    walks, one over the fighters and one over the workers. *)
Lemma closest_split w (dist : Unit -> Z) (elig : Unit -> bool)
    (pullWorkers : bool) (l : list Unit) cl :
  let step := fun (cl : Closest) unit =>
    if elig unit then
      if isWorker (getType w unit) then
        if negb pullWorkers || (1000 <? dist unit) then cl
        else if dist unit <? minWorkerDistance cl
        then mkClosest (closestDefender cl) (minDistance cl)
                       (Some unit) (dist unit)
        else cl
      else if dist unit <? minDistance cl
      then mkClosest (Some unit) (dist unit)
                     (closestWorker cl) (minWorkerDistance cl)
      else cl
    else cl in
  let argmin := fun (acc : option Unit * Z) u =>
    if dist u <? snd acc then (Some u, dist u) else acc in
  let r := fold_left step l cl in
  (closestDefender r, minDistance r)
  = fold_left argmin
      (List.filter (fun u => elig u && negb (isWorker (getType w u))) l)
      (closestDefender cl, minDistance cl)
  /\ (closestWorker r, minWorkerDistance r)
     = fold_left argmin
         (List.filter
            (fun u => elig u && isWorker (getType w u)
                      && pullWorkers && (dist u <=? 1000)) l)
         (closestWorker cl, minWorkerDistance cl).
Proof.
  intros step argmin. revert cl.
  induction l as [|u l IH]; intros cl r; [done |].
  subst r. cbn [fold_left List.filter].
  assert (Hstep : step cl u =
    if elig u then
      if isWorker (getType w u) then
        if negb pullWorkers || (1000 <? dist u) then cl
        else if dist u <? minWorkerDistance cl
        then mkClosest (closestDefender cl) (minDistance cl)
                       (Some u) (dist u)
        else cl
      else if dist u <? minDistance cl
      then mkClosest (Some u) (dist u)
                     (closestWorker cl) (minWorkerDistance cl)
      else cl
    else cl) by reflexivity.
  rewrite Hstep. clear Hstep.
  destruct (elig u); simpl; [|apply IH].
  destruct (isWorker (getType w u)); simpl.
  - destruct pullWorkers; simpl; [|apply IH].
    rewrite Z.leb_antisym.
    destruct (1000 <? dist u); simpl; [apply IH |].
    destruct (IH (if dist u <? minWorkerDistance cl
                  then mkClosest (closestDefender cl) (minDistance cl)
                                 (Some u) (dist u)
                  else cl)) as [Hd Hw].
    change (argmin (closestWorker cl, minWorkerDistance cl) u)
      with (if dist u <? minWorkerDistance cl then (Some u, dist u)
            else (closestWorker cl, minWorkerDistance cl)).
    destruct (dist u <? minWorkerDistance cl); simpl in *; by split.
  - destruct (IH (if dist u <? minDistance cl
                  then mkClosest (Some u) (dist u)
                                 (closestWorker cl) (minWorkerDistance cl)
                  else cl)) as [Hd Hw].
    change (argmin (closestDefender cl, minDistance cl) u)
      with (if dist u <? minDistance cl then (Some u, dist u)
            else (closestDefender cl, minDistance cl)).
    destruct (dist u <? minDistance cl); simpl in *; by split.
Qed.

(** The loop of [findClosestDefender] reads. *)
Lemma findClosestDefender_walk w c name squad pos flyingDefender pullWorkers
    (l : list Unit) cl :
  _squadData c !! name = Some squad ->
  for_each l
    (fun unit (c : Closest) =>
       if flyingDefender && negb (CanAttackAir w unit)
          || negb flyingDefender && negb (CanAttackGround w unit)
       then ret (Next c) else
       can <- canAssignUnitToSquad unit name ;;
       if negb can then ret (Next c) else
       let dist := getDistance w unit pos in
       if isWorker (getType w unit) then
         if negb pullWorkers || (1000 <? dist) then ret (Next c)
         else if dist <? minWorkerDistance c
         then ret (Next (mkClosest (closestDefender c) (minDistance c)
                                   (Some unit) dist))
         else ret (Next c)
       else if dist <? minDistance c
       then ret (Next (mkClosest (Some unit) dist
                                 (closestWorker c) (minWorkerDistance c)))
       else ret (Next c))
    cl c
  = Some (fold_left
            (fun (cl : Closest) unit =>
               if defender w c squad flyingDefender unit then
                 if isWorker (getType w unit) then
                   if negb pullWorkers || (1000 <? getDistance w unit pos)
                   then cl
                   else if getDistance w unit pos <? minWorkerDistance cl
                   then mkClosest (closestDefender cl) (minDistance cl)
                                  (Some unit) (getDistance w unit pos)
                   else cl
                 else if getDistance w unit pos <? minDistance cl
                 then mkClosest (Some unit) (getDistance w unit pos)
                                (closestWorker cl) (minWorkerDistance cl)
                 else cl
               else cl)
            l cl, c).
Proof.
  intros Hsq. revert cl. induction l as [|u l IH]; intros cl; [done |].
  cbn [for_each fold_left]. unfold bind at 1. unfold defender at 2.
  destruct flyingDefender; simpl.
  - destruct (CanAttackAir w u); simpl; [|apply IH].
    unfold bind at 1. rewrite (canAssignUnitToSquad_run _ _ _ _ Hsq).
    destruct (canAssign (_squadData c) u squad); simpl; [|apply IH].
    destruct (isWorker (getType w u)).
    + destruct (negb pullWorkers || (1000 <? getDistance w u pos));
        [apply IH |].
      destruct (getDistance w u pos <? minWorkerDistance cl); apply IH.
    + destruct (getDistance w u pos <? minDistance cl); apply IH.
  - destruct (CanAttackGround w u); simpl; [|apply IH].
    unfold bind at 1. rewrite (canAssignUnitToSquad_run _ _ _ _ Hsq).
    destruct (canAssign (_squadData c) u squad); simpl; [|apply IH].
    destruct (isWorker (getType w u)).
    + destruct (negb pullWorkers || (1000 <? getDistance w u pos));
        [apply IH |].
      destruct (getDistance w u pos <? minWorkerDistance cl); apply IH.
    + destruct (getDistance w u pos <? minDistance cl); apply IH.
Qed.

(** X14. [findClosestDefender] reads the commander and writes nothing.  Of
    the combat units that can attack what is asked for and that the defense
    squad may take, it finds the nearest fighter and, if workers are pulled,
    the nearest worker within 1000 of the place (nearer than 99999 both, the
    first in the walk among equals).  It returns the worker if there is no
    fighter, or if the worker is nearer than the fighter and the fighter
    more than 200 away; else the fighter; and nothing if there is
    neither. *)
Theorem findClosestDefender_finds_the_nearest w c name squad pos
    flyingDefender pullWorkers :
  _squadData c !! name = Some squad ->
  let dist := fun unit => getDistance w unit pos in
  let able := defender w c squad flyingDefender in
  let fighters :=
    List.filter (fun u => able u && negb (isWorker (getType w u)))
                (in_order (_combatUnits c)) in
  let workers :=
    List.filter (fun u => able u && isWorker (getType w u)
                          && pullWorkers && (dist u <=? 1000))
                (in_order (_combatUnits c)) in
  exists fighter worker,
    nearest dist fighters fighter
    /\ nearest dist workers worker
    /\ findClosestDefender w name pos flyingDefender pullWorkers c
       = Some (match worker, fighter with
               | Some wk, Some f =>
                   if (dist wk <? dist f) && (200 <? dist f)
                   then Some wk else Some f
               | Some wk, None => Some wk
               | None, _ => fighter
               end, c).
Proof.
  intros Hsq dist able fighters workers.
  set (start := mkClosest None 99999 None 99999).
  pose proof (findClosestDefender_walk w c name squad pos flyingDefender
                pullWorkers (in_order (_combatUnits c)) start Hsq) as Hwalk.
  match type of Hwalk with _ = Some (?X, _) => set (R := X) in Hwalk end.
  pose proof (closest_split w dist able pullWorkers
                (in_order (_combatUnits c)) start) as Hsplit.
  cbv zeta in Hsplit. fold fighters in Hsplit. fold workers in Hsplit.
  match type of Hsplit with
  | (closestDefender ?X, _) = _ /\ _ => change X with R in Hsplit
  end.
  destruct Hsplit as [Hf Hw]. simpl in Hf, Hw.
  destruct (nearest_fold dist fighters) as [Hnf Hdf].
  destruct (nearest_fold dist workers) as [Hnw Hdw].
  cbv zeta in Hnf, Hdf, Hnw, Hdw.
  rewrite <- Hf in Hnf, Hdf. rewrite <- Hw in Hnw, Hdw. simpl in *.
  exists (closestDefender R), (closestWorker R).
  split; [exact Hnf |]. split; [exact Hnw |].
  unfold findClosestDefender. unfold bind at 1. unfold gets at 1.
  cbn iota beta. unfold bind at 1.
  match type of Hwalk with
  | ?L = _ =>
      match goal with
      | |- context [for_each ?l ?b ?s ?c0] => change (for_each l b s c0) with L
      end
  end.
  rewrite Hwalk. cbn iota beta. unfold ret. f_equal. f_equal.
  destruct (closestWorker R) as [wk|]; [|done].
  destruct (closestDefender R) as [f|]; simpl.
  - rewrite Hdw, Hdf. done.
  - done.
Qed.

End ClosestDefender.

(** ** The sweep of the defense squads *)

Section Sweep.

Context `{Game} {F : Prop}.

(** A range-for keeps what its rounds keep, of the part walked and of the
    container. *)
Lemma wpx_for_walked_in {A} (I : list A -> CombatCommander -> Prop)
    (l : list A) (body : A -> M unit) c :
  I [] c ->
  (forall walked x c, x ∈ l -> I walked c ->
     wpx F (body x) (fun _ c' => I (walked ++ [x]) c') c) ->
  wpx F (for_ l body) (fun _ c' => I l c') c.
Proof.
  intros H0 Hbody.
  assert (G : forall rest walked c,
             (forall x, x ∈ rest -> x ∈ l) -> I walked c ->
             wpx F (for_ rest body) (fun _ c' => I (walked ++ rest) c') c).
  { induction rest as [|x rest IH]; intros walked c0 Hsub Hw; simpl.
    - by rewrite app_nil_r.
    - apply wpx_bind. eapply wpx_mono.
      + apply Hbody; [apply Hsub; left | exact Hw].
      + intros [] c' Hr. cbn beta.
        assert (Hsub' : forall y, y ∈ rest -> y ∈ l)
          by (intros y Hy; apply Hsub; by right).
        specialize (IH _ _ Hsub' Hr). by rewrite <- app_assoc in IH. }
  apply (G l [] c); done.
Qed.

Lemma updateBaseDefenseSquads_sweep w o rs c :
  Stable o rs (_squadData c) -> _combatUnits c <> ∅ ->
  wpx F (updateBaseDefenseSquads w)
      (fun _ c' =>
         forall name s, _squadData c' !! name = Some s -> faces_enemy w s) c.
Proof.
  intros Hst Hunits. unfold updateBaseDefenseSquads. wp_step. wp_step.
  rewrite bool_decide_eq_false_2 by done. wp_step.
  eapply (wpx_mono _ (fun _ c' => Stable o rs (_squadData c'))).
  { apply wpx_for_; [done |]. intros r c1 _ Hst1.
    by apply defendRegion_Stable. }
  intros [] c1 Hst1. cbn beta. wp_step. wp_step.
  set (names := squadNames (_squadData c1)).
  eapply (wpx_mono _ (fun _ c' =>
            (forall n, is_Some (_squadData c' !! n) <-> n ∈ names)
            /\ forall n s, n ∈ names -> _squadData c' !! n = Some s ->
                           faces_enemy w s)).
  { apply (wpx_for_walked_in
             (fun walked c' =>
                (forall n, is_Some (_squadData c' !! n) <-> n ∈ names)
                /\ forall n s, n ∈ walked -> _squadData c' !! n = Some s ->
                               faces_enemy w s)).
    - split.
      + intros n. symmetry. apply elem_of_squadNames.
      + intros n s Hn. by apply elem_of_nil in Hn.
    - intros walked name c2 Hin [Hdom Hgood]. cbn beta.
      destruct (proj2 (Hdom name) Hin) as [squad Hsquad].
      wp_step. eapply wpx_deref; [exact Hsquad |].
      destruct (negb (bool_decide
                        (order_type (squad_order squad) = SquadOrder_Defend))
                || bool_decide (squad_units squad = ∅)) eqn:Hskip.
      { wp_step. split; [done |]. intros n s Hn Hs.
        apply elem_of_app in Hn as [Hn|Hn]; [by eapply Hgood |].
        apply list_elem_of_singleton in Hn. subst n.
        rewrite Hsquad in Hs. simplify_eq. intros Hkind Hne.
        apply orb_true_iff in Hskip as [Hskip|Hskip].
        - apply negb_true_iff, bool_decide_eq_false in Hskip. done.
        - apply bool_decide_eq_true in Hskip. done. }
      destruct (existsb
                  (fun unit =>
                     getDistance w unit (order_position (squad_order squad))
                     <? order_radius (squad_order squad))
                  (in_order (enemy_getUnits w))) eqn:Hrange; simpl.
      + wp_step. split; [done |]. intros n s Hn Hs.
        apply elem_of_app in Hn as [Hn|Hn]; [by eapply Hgood |].
        apply list_elem_of_singleton in Hn. subst n.
        rewrite Hsquad in Hs. simplify_eq. intros _ _.
        apply existsb_exists in Hrange as (enemy & He & Hlt).
        exists enemy. split.
        * by apply list_elem_of_In, elem_of_in_order in He.
        * by apply Z.ltb_lt.
      + wp_step. apply wpx_getSquad; [by eexists |].
        unfold clear. wp_step. simpl. split.
        * intros n. rewrite <- Hdom.
          destruct (decide (n = name)) as [->|Hne].
          -- rewrite lookup_alter_eq, Hsquad. simpl. split; by eexists.
          -- by rewrite lookup_alter_ne.
        * intros n s Hn Hs.
          destruct (decide (n = name)) as [->|Hne].
          -- rewrite lookup_alter_eq, Hsquad in Hs. simpl in Hs.
             simplify_eq. intros _ Hne. done.
          -- rewrite lookup_alter_ne in Hs by done.
             apply elem_of_app in Hn as [Hn|Hn]; [by eapply Hgood |].
             apply list_elem_of_singleton in Hn. done. }
  intros [] c2 [Hdom Hgood] name s Hs. cbn beta in *.
  eapply Hgood; [|exact Hs]. apply Hdom. by eexists.
Qed.

End Sweep.

Section SweepTheorem.

Context `{Game}.

(** X15. When [updateBaseDefenseSquads] has run with combat units, no squad
    with a Defend order is out without an enemy: every squad of the registry
    that has such an order and has units, base defense squad or scout
    defense squad, has an enemy unit within the radius of its order; the
    others have been emptied. *)
Theorem defense_squads_face_an_enemy w c :
  Ready (_squadData c) -> _combatUnits c <> ∅ ->
  exists c',
    updateBaseDefenseSquads w c = Some (tt, c')
    /\ forall name s, _squadData c' !! name = Some s -> faces_enemy w s.
Proof.
  intros Hr Hunits. apply wp_run_unit.
  apply (updateBaseDefenseSquads_sweep (F:=False) w _ [] c
           (Stable_nil _ Hr) Hunits).
Qed.

End SweepTheorem.

(** ** The weight of the recon squad *)

Section ReconWeight.

Context `{Game} {F : Prop}.

Lemma reconWeight_from w us z :
  fold_left (fun acc unit => acc + weighReconUnit (getType w unit)) us z
  = z + reconWeight w us.
Proof.
  unfold reconWeight. revert z.
  induction us as [|u us IH]; intros z; simpl; [lia |].
  rewrite IH, (IH (0 + _)). lia.
Qed.

Lemma reconWeight_cons w u us :
  reconWeight w (u :: us) = weighReconUnit (getType w u) + reconWeight w us.
Proof. unfold reconWeight at 1. simpl. by rewrite reconWeight_from. Qed.

Lemma reconWeight_Permutation w us vs :
  us ≡ₚ vs -> reconWeight w us = reconWeight w vs.
Proof.
  induction 1 as [|u us vs _ IH|u v us|us vs ws _ IH1 _ IH2].
  - done.
  - by rewrite !reconWeight_cons, IH.
  - rewrite !reconWeight_cons. lia.
  - by rewrite IH1.
Qed.

Lemma reconWeight_empty w : reconWeight w (in_order ∅) = 0.
Proof. unfold in_order. by rewrite elements_empty. Qed.

(** A unit that joins a squad adds its weight. *)
Lemma reconWeight_join w (us : gset Unit) u :
  u ∉ us ->
  reconWeight w (in_order (us ∪ {[u]}))
  = reconWeight w (in_order us) + weighReconUnit (getType w u).
Proof.
  intros Hu. rewrite <- (Z.add_comm (weighReconUnit _)), <- reconWeight_cons.
  apply reconWeight_Permutation. unfold in_order.
  rewrite !merge_sort_Permutation, (comm_L (∪)).
  by apply elements_union_singleton.
Qed.

Lemma weighReconUnit_nonneg t : 0 <= weighReconUnit t.
Proof. by destruct t. Qed.

Lemma reconWeight_nonneg w us : 0 <= reconWeight w us.
Proof.
  induction us as [|u us IH]; [done |]. rewrite reconWeight_cons.
  pose proof (weighReconUnit_nonneg (getType w u)). lia.
Qed.

Lemma weighs_clear w L c :
  weighs w L c ->
  weighs w 0 (set_squadData (alter (with_units (fun _ => ∅)) "Recon") c).
Proof.
  intros (recon & Hr & _). eexists. simpl. rewrite lookup_alter_eq, Hr.
  split; [done |]. simpl. apply reconWeight_empty.
Qed.

(** A unit that a squad can take is not in it, and joins it. *)
Lemma reassign_joins sd u r s :
  sd !! r = Some s -> canAssign sd u s = true ->
  u ∉ squad_units s
  /\ reassign u r sd !! r = Some (with_units (fun us => us ∪ {[u]}) s).
Proof.
  intros Hr Hcan.
  assert (Hu : u ∉ squad_units s).
  { intros Hu. apply bool_decide_eq_true in Hcan.
    specialize (Hcan _ _ Hr Hu). lia. }
  split; [done |]. unfold reassign. rewrite lookup_alter_eq.
  destruct (getUnitSquad sd u) as [previous|] eqn:Hp; [|by rewrite Hr].
  rewrite lookup_alter_ne; [by rewrite Hr |].
  intros ->. unfold getUnitSquad in Hp.
  apply find_some in Hp as [_ Hp]. unfold squadContains in Hp.
  rewrite Hr in Hp. by apply bool_decide_eq_true in Hp.
Qed.

Lemma weighs_assign w L c u recon :
  weighs w L c -> _squadData c !! "Recon" = Some recon ->
  canAssign (_squadData c) u recon = true ->
  weighs w (L + weighReconUnit (getType w u))
         (set_squadData (reassign u "Recon") c).
Proof.
  intros (recon' & Hr & HL) Hr' Hcan.
  assert (recon' = recon) as -> by congruence. subst L. clear Hr'.
  destruct (reassign_joins _ _ _ _ Hr Hcan) as [Hu Hjoin].
  eexists. split; [exact Hjoin |]. simpl. by apply reconWeight_join.
Qed.

Lemma weighs_alive w L c : weighs w L c -> is_Some (_squadData c !! "Recon").
Proof. intros (recon & Hr & _). by eexists. Qed.

Lemma reconWeightLimit_nonneg a : 0 <= reconWeightLimit a.
Proof.
  rewrite reconWeightLimit_cases. destruct (a <? 24) eqn:Ha; [done |].
  apply Z.ltb_ge in Ha. pose proof (Z.div_pos (a - 24) 6). lia.
Qed.

Lemma chooseReconTarget_keeps w Q c :
  (forall c', _squadData c' = _squadData c ->
              _combatUnits c' = _combatUnits c -> Q tt c') ->
  wpx F (chooseReconTarget w) Q c.
Proof.
  intros HQ. unfold chooseReconTarget. cbv zeta. repeat wp_step; by apply HQ.
Qed.

#[local] Hint Resolve weighs_alive : alive.

Lemma updateReconSquad_weight w c :
  (forall t, isDetector t = true -> weighReconUnit t = 0) ->
  is_Some (_squadData c !! "Recon") ->
  wpx F (updateReconSquad w)
      (fun _ c' =>
         exists L, weighs w L c'
           /\ L <= reconWeightLimit
                     (reconWeight w (in_order (_combatUnits c))) + 1) c.
Proof.
  intros Hdet [recon0 Hrecon0].
  pose proof (reconWeightLimit_nonneg
                (reconWeight w (in_order (_combatUnits c)))) as Hlim.
  set (limit := reconWeightLimit (reconWeight w (in_order (_combatUnits c))))
    in *.
  unfold updateReconSquad. cbv zeta.
  wp_step. apply wpx_getSquad; [by eexists |]. wp_step. wp_step.
  wp_step.
  { wp_step. exists 0. split; [|lia].
    eapply weighs_clear. by exists recon0. }
  wp_step. apply chooseReconTarget_keeps. intros c1 Hsd1 Hus1.
  wp_step. wp_step. wp_step.
  { wp_step. exists 0. split; [|lia].
    eapply weighs_clear. exists recon0. by rewrite Hsd1. }
  wp_step. eapply wpx_getUnits; [by rewrite Hsd1 |].
  set (members := squad_units recon0).
  set (squadWeight0 := reconWeight w (in_order members)).
  wp_step.
  eapply (wpx_mono _ (fun _ c' => weighs w squadWeight0 c'
                                  /\ _combatUnits c' = _combatUnits c)).
  { wp_step. wp_step.
    - wp_step. split; [|done].
      apply andb_true_iff in Heqb1 as [Hzero _]. apply Z.eqb_eq in Hzero.
      rewrite Hzero. eapply weighs_clear. exists recon0. by rewrite Hsd1.
    - split; [|done]. exists recon0. by rewrite Hsd1. }
  intros [] c2 [Hw2 Hus2]. cbn beta. wp_step. wp_step. rewrite Hus2.
  fold limit.
  match goal with
  | |- wpx _ (bind (when ?b _) _) _ _ => set (overweight := b)
  end.
  wp_step.
  eapply (wpx_mono _ (fun _ c' =>
            exists L, weighs w L c' /\ 0 <= L <= limit
                      /\ L = if overweight then 0 else squadWeight0)).
  { wp_step. wp_step.
    - wp_step. exists 0. split; [by eapply weighs_clear |]. split; [lia | done].
    - exists squadWeight0. split; [done |]. split; [|done].
      apply orb_false_iff in Heqb1 as [Hle _]. apply Z.ltb_ge in Hle.
      split; [|done]. apply reconWeight_nonneg. }
  intros [] c3 (L & Hw3 & HL & HL0). cbn beta. rewrite <- HL0.
  destruct Hw3 as (recon3 & Hrecon3 & HL3).
  wp_step. eapply wpx_getUnits; [exact Hrecon3 |]. wp_step.
  eapply (wpx_mono _ (fun l c' =>
            weighs w (rl_squadWeight l) c' /\ 0 <= rl_squadWeight l <= limit)).
  { apply wpx_for_each; [split; [by exists recon3 | done] |].
    intros unit l c4 _ [Hw4 Hl4].
    destruct Hw4 as (recon4 & Hrecon4 & HL4).
    assert (Hw4 : weighs w (rl_squadWeight l) c4) by (by exists recon4).
    repeat wp_step; simpl; try done.
    all: first
      [ match goal with
        | Hd : _ && isDetector (getType _ _) = true |- _ =>
            apply andb_true_iff in Hd as [_ Hd]; apply Hdet in Hd;
            split; [|done];
            rewrite <- (Z.add_0_r (rl_squadWeight _)), <- Hd;
            by eapply weighs_assign
        end
      | match goal with
        | Hf : (0 <? _) && (_ <=? _) = true |- _ =>
            apply andb_true_iff in Hf as [Hpos Hfit];
            apply Z.ltb_lt in Hpos; apply Z.leb_le in Hfit;
            split; [by eapply weighs_assign | lia]
        end ]. }
  intros locals c5 [Hw5 Hl5]. cbn beta.
  assert (Hend : forall L c6,
            weighs w L c6 -> L <= limit + 1 ->
            wpx F (setSquadOrder "Recon"
                     (mkSquadOrder SquadOrder_Attack (_reconTarget c1)
                        ReconRadius "Reconnaissance in force"))
                (fun _ c' => exists L0, weighs w L0 c' /\ L0 <= limit + 1) c6).
  { intros L' c6 (recon6 & Hrecon6 & HL6) Hle. wp_step. exists L'.
    split; [|done]. eexists. simpl. rewrite lookup_alter_eq, Hrecon6.
    split; [done |]. done. }
  wp_step. wp_step; [|wp_step; apply (Hend _ _ Hw5); lia].
  wp_step.
  eapply (wpx_mono _ (fun l c' =>
            weighs w (rl_squadWeight l) c' /\ rl_squadWeight l <= limit + 1)).
  { apply wpx_for_each; [split; [done | lia] |].
    intros unit l c6 _ [Hw6 Hl6].
    repeat wp_step; simpl; try done.
    apply orb_false_iff in Heqb2 as [Hroom _]. apply Z.leb_gt in Hroom.
    split; [|lia].
    apply bool_decide_eq_true in Heqb3.
    change 2 with (weighReconUnit Terran_Medic). rewrite <- Heqb3.
    by eapply weighs_assign. }
  intros l c7 [Hw7 Hl7]. cbn beta. wp_step. apply (Hend _ _ Hw7 Hl7).
Qed.

End ReconWeight.

Section ReconBound.

Context `{Game}.

(** X16. The recon squad is never more than 1 over its allowance: when
    detectors weigh nothing, the weight of the units of the squad after
    [updateReconSquad] is at most [reconWeightLimit] of the weight of the
    combat units plus 1, hence at most 13. *)
Theorem recon_squad_weight_bound w c :
  (forall t, isDetector t = true -> weighReconUnit t = 0) ->
  is_Some (_squadData c !! "Recon") ->
  exists c' recon,
    updateReconSquad w c = Some (tt, c')
    /\ _squadData c' !! "Recon" = Some recon
    /\ reconWeight w (in_order (squad_units recon))
       <= reconWeightLimit (reconWeight w (in_order (_combatUnits c))) + 1
    /\ reconWeight w (in_order (squad_units recon)) <= 13.
Proof.
  intros Hdet Hrecon.
  pose proof (updateReconSquad_weight (F:=False) w c Hdet Hrecon) as Hwp.
  apply wp_run_unit in Hwp as (c' & Hrun & L & (recon & Hr & HL) & Hle).
  exists c', recon. split; [done |]. split; [done |]. subst L.
  split; [done |].
  pose proof (reconWeightLimit_cases
                (reconWeight w (in_order (_combatUnits c)))) as Hc.
  destruct (_ <? 24); lia.
Qed.

End ReconBound.

(** ** The room in the transport *)

Section Cargo.

Context `{Game} {F : Prop}.

Lemma cargoRequired_census w us :
  snd (fst (dropCensus w (in_order us))) = 8 - cargoRequired w us.
Proof.
  unfold dropCensus, cargoRequired.
  by destruct (dropCensus_from w (in_order us) None 8 false) as (t' & -> & _).
Qed.

Lemma cargoOf_cons w u l :
  cargoOf w (u :: l)
  = (if isCargo w u then spaceRequired (getType w u) else 0) + cargoOf w l.
Proof. unfold cargoOf. simpl. by destruct (isCargo w u). Qed.

Lemma cargoOf_Permutation w us vs :
  us ≡ₚ vs -> cargoOf w us = cargoOf w vs.
Proof.
  induction 1 as [|u us vs _ IH|u v us|us vs ws _ IH1 _ IH2].
  - done.
  - by rewrite !cargoOf_cons, IH.
  - rewrite !cargoOf_cons. lia.
  - by rewrite IH1.
Qed.

(** A unit that joins a squad takes its room, when the census counts it. *)
Lemma cargoRequired_join w (us : gset Unit) u :
  u ∉ us ->
  cargoRequired w (us ∪ {[u]})
  = (if isCargo w u then spaceRequired (getType w u) else 0)
    + cargoRequired w us.
Proof.
  intros Hu. change (cargoOf w (in_order (us ∪ {[u]}))
                     = (if isCargo w u then spaceRequired (getType w u) else 0)
                       + cargoOf w (in_order us)).
  rewrite <- cargoOf_cons. apply cargoOf_Permutation. unfold in_order.
  rewrite !merge_sort_Permutation, (comm_L (∪)).
  by apply elements_union_singleton.
Qed.

Lemma room_alive w R c : room w R c -> is_Some (_squadData c !! "Drop").
Proof. intros (drop & Hd & _). by eexists. Qed.

Lemma room_transport w R c u drop :
  room w R c -> _squadData c !! "Drop" = Some drop ->
  canAssign (_squadData c) u drop = true ->
  isTransport w u = true ->
  room w R (set_squadData (reassign u "Drop") c).
Proof.
  intros (drop' & Hd & HR) Hd' Hcan Ht.
  assert (drop' = drop) as -> by congruence. clear Hd'.
  destruct (reassign_joins _ _ _ _ Hd Hcan) as [Hu Hjoin].
  eexists. split; [exact Hjoin |]. simpl.
  rewrite cargoRequired_join by done. unfold isCargo. rewrite Ht.
  by rewrite andb_false_r.
Qed.

Lemma room_cargo w R c u drop :
  (forall t, 0 <= spaceRequired t) ->
  room w R c -> _squadData c !! "Drop" = Some drop ->
  canAssign (_squadData c) u drop = true ->
  spaceRequired (getType w u) <= R ->
  room w (R - spaceRequired (getType w u))
       (set_squadData (reassign u "Drop") c).
Proof.
  intros Hpos (drop' & Hd & HR) Hd' Hcan Hfit.
  assert (drop' = drop) as -> by congruence. clear Hd'.
  destruct (reassign_joins _ _ _ _ Hd Hcan) as [Hu Hjoin].
  eexists. split; [exact Hjoin |]. simpl.
  rewrite cargoRequired_join by done. specialize (Hpos (getType w u)).
  destruct (isCargo w u); lia.
Qed.

#[local] Hint Resolve room_alive : alive.

Lemma updateDropSquads_room w c drop :
  (forall t, 0 <= spaceRequired t) ->
  _squadData c !! "Drop" = Some drop ->
  cargoRequired w (squad_units drop) <= 8 ->
  wpx F (updateDropSquads w) (fun _ c' => room w 0 c') c.
Proof.
  intros Hpos Hdrop Hcargo.
  assert (Hroom : forall R, 0 <= R <= 8 - cargoRequired w (squad_units drop) ->
                            room w R c) by (intros R HR; by exists drop).
  unfold updateDropSquads. wp_step. wp_step.
  rewrite bool_decide_eq_true_2 by (by eexists). simpl.
  wp_step. apply wpx_getSquad; [by eexists |]. wp_step.
  eapply wpx_getSquadOrder; [exact Hdrop |].
  wp_step; [wp_step; apply Hroom; lia |].
  wp_step. eapply wpx_getUnits; [exact Hdrop |].
  pose proof (cargoRequired_census w (squad_units drop)) as Hspots.
  destruct (dropCensus w (in_order (squad_units drop)))
    as [[transportUnit spots] anyUnloaded]. simpl in Hspots.
  assert (Horder : forall o,
            wpx F (setSquadOrder "Drop" o) (fun _ c' => room w 0 c') c).
  { intros o. wp_step. exists (with_order o drop). simpl.
    rewrite lookup_alter_eq, Hdrop. split; [done |]. simpl. lia. }
  assert (Hsearch :
    wpx F
      (us <- gets _combatUnits ;;
       for_each (in_order us)
         (fun unit (acc : option Unit * Z) =>
            let '(transportUnit, transportSpotsRemaining) := acc in
            let type := getType w unit in
            can <- andM (negb (bool_decide (is_Some transportUnit))
                         && (0 <? spaceProvided type) && isFlying w unit)
                        (canAssignUnitToSquad unit "Drop") ;;
            if can then
              assignUnitToSquad unit "Drop" ;;
              ret (Next (Some unit, transportSpotsRemaining))
            else
              can' <- andM ((spaceRequired type <=? transportSpotsRemaining)
                            && unitIsGoodToDrop w unit)
                           (canAssignUnitToSquad unit "Drop") ;;
              if can' then
                assignUnitToSquad unit "Drop" ;;
                ret (Next (transportUnit,
                           transportSpotsRemaining - spaceRequired type))
              else ret (Next acc))
         (transportUnit, spots) ;;
       ret tt)
      (fun _ c' => room w 0 c') c).
  { wp_step. wp_step. wp_step.
    eapply (wpx_mono _ (fun acc c' => room w (snd acc) c')).
    - apply wpx_for_each; [apply Hroom; simpl; lia |].
      intros unit [t R] c1 _ Hr1. simpl in Hr1.
      repeat wp_step; simpl; try done.
      all: lazymatch goal with
           | |- room _ (_ - _) _ =>
               match goal with
               | Hf : (_ <=? _) && unitIsGoodToDrop _ _ = true |- _ =>
                   apply andb_true_iff in Hf as [Hfit _];
                   apply Z.leb_le in Hfit; by eapply room_cargo
               end
           | |- room _ _ _ =>
               match goal with
               | Ht : _ && (0 <? _) && isFlying _ _ = true |- _ =>
                   apply andb_true_iff in Ht as [Hb Hfly];
                   apply andb_true_iff in Hb as [_ Hprov];
                   eapply room_transport; [done | done | done |];
                   unfold isTransport; by rewrite Hfly, Hprov
               end
           end.
    - intros [t R] c1 (drop1 & Hd1 & HR1). simpl in HR1. wp_step.
      exists drop1. split; [done | lia]. }
  destruct transportUnit as [transport|]; [|exact Hsearch].
  destruct (spots =? 0); [|exact Hsearch].
  destruct anyUnloaded; apply Horder.
Qed.

End Cargo.

Section CargoBound.

Context `{Game}.

(** X17. The drop squad is never overbooked: when no unit type needs a
    negative room and the census of the drop squad finds no negative number
    of spots remaining, [updateDropSquads] keeps the members of the squad
    and its census finds no negative number of spots remaining afterwards:
    the units it adds fit into the 8 spots of the transport. *)
Theorem drop_squad_is_never_overbooked w c drop :
  (forall t, 0 <= spaceRequired t) ->
  _squadData c !! "Drop" = Some drop ->
  0 <= snd (fst (dropCensus w (in_order (squad_units drop)))) ->
  exists c' drop',
    updateDropSquads w c = Some (tt, c')
    /\ _squadData c' !! "Drop" = Some drop'
    /\ 0 <= snd (fst (dropCensus w (in_order (squad_units drop')))).
Proof.
  intros Hpos Hdrop Hspots. rewrite cargoRequired_census in Hspots.
  assert (Hcargo : cargoRequired w (squad_units drop) <= 8) by lia.
  pose proof (updateDropSquads_room (F:=False) w c drop Hpos Hdrop Hcargo)
    as Hwp.
  apply wp_run_unit in Hwp as (c' & Hrun & drop' & Hd' & HR).
  exists c', drop'. split; [done |]. split; [done |].
  rewrite cargoRequired_census. lia.
Qed.

End CargoBound.

(** ** The units the attack squads leave alone *)

Section Untouched.

Context `{Game}.

Lemma untouched_refl u c : untouched u c c.
Proof. done. Qed.

Lemma squadContains_alter sd u (f : Squad -> Squad) r n :
  (forall s, u ∈ squad_units (f s) <-> u ∈ squad_units s) ->
  squadContains (alter f r sd) u n = squadContains sd u n.
Proof.
  intros Hf. unfold squadContains.
  destruct (decide (n = r)) as [->|Hne].
  - rewrite lookup_alter_eq. destruct (sd !! r) as [s|]; [|done].
    simpl. apply bool_decide_ext, Hf.
  - by rewrite lookup_alter_ne.
Qed.

Lemma untouched_order u c c1 o r :
  untouched u c c1 -> untouched u c (set_squadData (alter (with_order o) r) c1).
Proof.
  intros Hu n. rewrite <- Hu. simpl. by apply squadContains_alter.
Qed.

Lemma untouched_remove u c c1 x r :
  x <> u -> untouched u c c1 ->
  untouched u c
    (set_squadData (alter (with_units (fun us => us ∖ {[x]})) r) c1).
Proof.
  intros Hx Hu n. rewrite <- Hu. simpl. apply squadContains_alter.
  intros s. simpl. set_solver.
Qed.

Lemma untouched_reassign u c c1 x r :
  x <> u -> untouched u c c1 ->
  untouched u c (set_squadData (reassign x r) c1).
Proof.
  intros Hx Hu n. rewrite <- Hu. simpl. unfold reassign.
  rewrite squadContains_alter by (intros s; simpl; set_solver).
  destruct (getUnitSquad (_squadData c1) x) as [previous|]; [|done].
  apply squadContains_alter. intros s. simpl. set_solver.
Qed.

Lemma updateAttackSquads_untouched w u c :
  isWorker (getType w u) = true ->
  isDetector (getType w u) = false ->
  isFlyingSquadUnit (getType w u) = false ->
  isOptionalFlyingSquadUnit (getType w u) = false ->
  wlp (updateAttackSquads w) (fun _ c' => untouched u c c') c.
Proof.
  intros Hworker Hdet Hfly Hopt. unfold updateAttackSquads.
  pose proof (untouched_refl u c) as Hu.
  wl_inv (untouched u c); try assumption.
  all: repeat first [ assumption | apply untouched_order
                    | apply untouched_reassign | apply untouched_remove ].
  all: try (intros ->; unfold isGroundSquadUnit in *; try rewrite Hworker in *;
            simpl in *; congruence).
Qed.

(** X18. The attack squads leave the workers alone: a unit whose type is a
    worker, not a detector and none of the flyers is in the same squads
    after [updateAttackSquads] as before, whatever the squads and the combat
    units are. *)
Theorem attack_squads_leave_workers_alone w u c :
  Ready (_squadData c) ->
  isWorker (getType w u) = true ->
  isDetector (getType w u) = false ->
  isFlyingSquadUnit (getType w u) = false ->
  isOptionalFlyingSquadUnit (getType w u) = false ->
  exists c',
    updateAttackSquads w c = Some (tt, c')
    /\ forall name,
         squadContains (_squadData c') u name
         = squadContains (_squadData c) u name.
Proof.
  intros Hr Hworker Hdet Hfly Hopt.
  pose proof (wpx_wlp _ _ _ _
                (updateAttackSquads_Stable (F:=False) w _ [] c
                   (Stable_nil _ Hr))
                (updateAttackSquads_untouched w u c Hworker Hdet Hfly Hopt))
    as Hwp.
  apply wp_run in Hwp as ([] & c' & Hrun & _ & Hu).
  exists c'. split; [done | exact Hu].
Qed.

End Untouched.

(** * The opponent model *)

Section OpponentModelFacts.

Context `{Opponent}.

(** ** The best match *)

Lemma best_from_some (dist : GameRecord -> Z) (l : list GameRecord)
    (r0 : GameRecord) (d : Z) :
  let step := fun (best : Z * option GameRecord) record =>
    let '(bestScore, bestRecord) := best in
    if negb (dist record =? -1)
       && (negb (bool_decide (is_Some bestRecord)) || (dist record <? bestScore))
    then (dist record, Some record)
    else best in
  let r := fold_left step l (d, Some r0) in
  (r = (d, Some r0) /\ forall v, v ∈ l -> dist v = -1 \/ d <= dist v)
  \/ (exists u before after,
        r = (dist u, Some u) /\ l = before ++ u :: after
        /\ dist u <> -1 /\ dist u < d
        /\ (forall v, v ∈ before -> dist v = -1 \/ dist u < dist v)
        /\ (forall v, v ∈ after -> dist v = -1 \/ dist u <= dist v)).
Proof.
  intros step. revert r0 d.
  induction l as [|x l IH]; intros r0 d r.
  - left. split; [done |]. intros v Hv. by apply elem_of_nil in Hv.
  - subst r. cbn [fold_left].
    assert (Hstep : step (d, Some r0) x
                    = if negb (dist x =? -1) && (dist x <? d)
                      then (dist x, Some x) else (d, Some r0)).
    { unfold step. by rewrite bool_decide_eq_true_2 by (by eexists). }
    rewrite Hstep. clear Hstep.
    destruct (negb (dist x =? -1) && (dist x <? d)) eqn:Htake.
    + apply andb_true_iff in Htake as [Hvalid Hlt].
      apply negb_true_iff, Z.eqb_neq in Hvalid. apply Z.ltb_lt in Hlt.
      destruct (IH x (dist x))
        as [[Hr Hall]|(u & l1 & l2 & Hr & -> & Hv & Hu & Hbefore & Hafter)].
      * right. exists x, [], l. split; [exact Hr |]. split; [done |].
        split; [done |]. split; [done |]. split; [|done].
        intros v Hv. by apply elem_of_nil in Hv.
      * right. exists u, (x :: l1), l2. split; [exact Hr |].
        split; [done |]. split; [done |]. split; [lia |]. split; [|done].
        intros v Hin. apply elem_of_cons in Hin as [->|Hin];
          [right; lia | by apply Hbefore].
    + assert (Hx : dist x = -1 \/ d <= dist x).
      { apply andb_false_iff in Htake as [Hvalid|Hge].
        - left. by apply negb_false_iff, Z.eqb_eq in Hvalid.
        - right. by apply Z.ltb_ge in Hge. }
      destruct (IH r0 d)
        as [[Hr Hall]|(u & l1 & l2 & Hr & -> & Hv & Hu & Hbefore & Hafter)].
      * left. split; [exact Hr |]. intros v Hin.
        apply elem_of_cons in Hin as [->|Hin]; [done | by apply Hall].
      * right. exists u, (x :: l1), l2. split; [exact Hr |].
        split; [done |]. split; [done |]. split; [done |]. split; [|done].
        intros v Hin. apply elem_of_cons in Hin as [->|Hin];
          [|by apply Hbefore].
        destruct Hx as [Hx|Hx]; [by left | right; lia].
Qed.

Lemma best_from_none (dist : GameRecord -> Z) (l : list GameRecord) (d : Z) :
  let step := fun (best : Z * option GameRecord) record =>
    let '(bestScore, bestRecord) := best in
    if negb (dist record =? -1)
       && (negb (bool_decide (is_Some bestRecord)) || (dist record <? bestScore))
    then (dist record, Some record)
    else best in
  let r := fold_left step l (d, None) in
  (r = (d, None) /\ forall v, v ∈ l -> dist v = -1)
  \/ (exists u before after,
        snd r = Some u /\ l = before ++ u :: after
        /\ dist u <> -1
        /\ (forall v, v ∈ before -> dist v = -1 \/ dist u < dist v)
        /\ (forall v, v ∈ after -> dist v = -1 \/ dist u <= dist v)).
Proof.
  intros step.
  induction l as [|x l IH]; intros r.
  - left. split; [done |]. intros v Hv. by apply elem_of_nil in Hv.
  - subst r. cbn [fold_left].
    assert (Hstep : step (d, None) x
                    = if negb (dist x =? -1)
                      then (dist x, Some x) else (d, None)).
    { unfold step. rewrite bool_decide_eq_false_2 by (by intros [? ?]).
      simpl. by rewrite andb_true_r. }
    rewrite Hstep. clear Hstep.
    destruct (negb (dist x =? -1)) eqn:Hvalid.
    + apply negb_true_iff, Z.eqb_neq in Hvalid. right.
      destruct (best_from_some dist l x (dist x))
        as [[Hr Hall]|(u & l1 & l2 & Hr & -> & Hv & Hu & Hbefore & Hafter)].
      * exists x, [], l. fold step in Hr. rewrite Hr.
        split; [done |]. split; [done |]. split; [done |]. split; [|done].
        intros v Hv. by apply elem_of_nil in Hv.
      * exists u, (x :: l1), l2. fold step in Hr. rewrite Hr.
        split; [done |]. split; [done |]. split; [done |]. split; [|done].
        intros v Hin. apply elem_of_cons in Hin as [->|Hin];
          [right; lia | by apply Hbefore].
    + apply negb_false_iff, Z.eqb_eq in Hvalid.
      destruct IH
        as [[Hr Hall]|(u & l1 & l2 & Hr & -> & Hv & Hbefore & Hafter)].
      * left. split; [exact Hr |]. intros v Hin.
        apply elem_of_cons in Hin as [->|Hin]; [done | by apply Hall].
      * right. exists u, (x :: l1), l2. split; [exact Hr |].
        split; [done |]. split; [done |]. split; [|done].
        intros v Hin. apply elem_of_cons in Hin as [->|Hin];
          [by left | by apply Hbefore].
Qed.

(** X21. [setBestMatch] remembers the first of the past game records at the
    least distance from the current game, a distance of -1 counting as no
    distance, and nothing when every record is at -1. *)
Theorem setBestMatch_finds_the_best_match m :
  best_match (_gameRecord m) (_pastGameRecords m) (_bestMatch (setBestMatch m)).
Proof.
  unfold setBestMatch. simpl.
  destruct (best_from_none (GameRecord_distance (_gameRecord m))
              (_pastGameRecords m) (-1))
    as [[Hr Hall]|(u & l1 & l2 & Hr & Hl & Hv & Hbefore & Hafter)].
  - rewrite Hr. exact Hall.
  - rewrite Hr. split; [done |]. by exists l1, l2.
Qed.

(** ** The single strategy *)

Lemma plansSeen_from (current : GameRecord) (l : list GameRecord)
    (l0 : PlansSeen) :
  let known := List.filter
    (fun record =>
       sameMatchup current record
       && negb (bool_decide (record_getEnemyPlan record = OpeningPlan_Unknown)))
    l in
  let unknown := List.filter
    (fun record =>
       sameMatchup current record
       && bool_decide (record_getEnemyPlan record = OpeningPlan_Unknown))
    l in
  let r := fold_left
    (fun (l : PlansSeen) record =>
       if sameMatchup current record then
         let plan := record_getEnemyPlan record in
         if bool_decide (plan = OpeningPlan_Unknown)
         then mkPlansSeen (knownPlan l) (unknownPlan l + 1) (plansSeen l)
         else mkPlansSeen (knownPlan l + 1) (unknownPlan l)
                          ({[plan]} ∪ plansSeen l)
       else l)
    l l0 in
  knownPlan r = knownPlan l0 + Z.of_nat (length known)
  /\ unknownPlan r = unknownPlan l0 + Z.of_nat (length unknown)
  /\ plansSeen r
     = plansSeen l0 ∪ list_to_set (List.map record_getEnemyPlan known).
Proof.
  revert l0. induction l as [|x l IH]; intros l0; cbn zeta.
  - simpl. split; [lia |]. split; [lia |]. set_solver.
  - cbn [fold_left List.filter].
    destruct (sameMatchup current x); simpl; [|apply IH].
    case_bool_decide as Hplan; simpl.
    + destruct (IH (mkPlansSeen (knownPlan l0) (unknownPlan l0 + 1)
                      (plansSeen l0))) as (Hk & Hu & Hp).
      cbn zeta in Hk, Hu, Hp |- *. rewrite Hk, Hu, Hp.
      simpl. split; [done |]. split; [lia | done].
    + destruct (IH (mkPlansSeen (knownPlan l0 + 1) (unknownPlan l0)
                      ({[record_getEnemyPlan x]} ∪ plansSeen l0)))
        as (Hk & Hu & Hp).
      cbn zeta in Hk, Hu, Hp |- *. rewrite Hk, Hu, Hp.
      simpl. split; [lia |]. split; [done |]. set_solver.
Qed.

Lemma one_plan_seen (plans : list OpeningPlan) :
  size (list_to_set plans : gset OpeningPlan) = 1%nat
  <-> plans <> [] /\ exists plan, forall p, p ∈ plans -> p = plan.
Proof.
  split.
  - intros Hsize. apply size_1_elem_of in Hsize as [plan Hset]. split.
    + intros ->. set_solver.
    + exists plan. intros p Hp. 
      assert (p ∈ (list_to_set plans : gset OpeningPlan)) by set_solver.
      set_solver.
  - intros [Hne [plan Hall]].
    assert (list_to_set plans = ({[plan]} : gset OpeningPlan)) as ->.
    { apply set_eq. intros p. rewrite elem_of_list_to_set, elem_of_singleton.
      split; [apply Hall |]. intros ->.
      destruct plans as [|q plans]; [done |].
      rewrite <- (Hall q) by left. left. }
    apply size_singleton.
Qed.

(** X19. [considerSingleStrategy] sets [_singleStrategy] exactly when, among
    the past games of the same matchup, the enemy plan is known in at least
    two, is the same in all of those, and is unknown in no more games than
    it is known in; it never clears the flag, and writes nothing else. *)
Theorem single_strategy_when_one_plan_known m :
  let single :=
    (2 <= length (knownGames m))%nat
    /\ (length (unknownGames m) <= length (knownGames m))%nat
    /\ exists plan, forall record,
         record ∈ knownGames m -> record_getEnemyPlan record = plan in
  (_singleStrategy (considerSingleStrategy m) = true
   <-> _singleStrategy m = true \/ single)
  /\ considerSingleStrategy m
     = set_singleStrategy (_singleStrategy (considerSingleStrategy m)) m.
Proof.
  intros single. unfold considerSingleStrategy.
  destruct (plansSeen_from (_gameRecord m) (_pastGameRecords m)
              (mkPlansSeen 0 0 ∅)) as (Hk & Hu & Hp).
  cbn zeta in Hk, Hu, Hp. rewrite Hk, Hu, Hp. simpl.
  fold (knownGames m) (unknownGames m).
  assert (Hdec :
    (2 <=? Z.of_nat (length (knownGames m)))
    && bool_decide (size (∅ ∪ list_to_set
                            (List.map record_getEnemyPlan (knownGames m))
                          : gset OpeningPlan) = 1%nat)
    && (Z.of_nat (length (unknownGames m))
        <=? Z.of_nat (length (knownGames m))) = true <-> single).
  { rewrite !andb_true_iff, bool_decide_eq_true, Z.leb_le, Z.leb_le.
    rewrite (left_id_L ∅ (∪)), one_plan_seen. unfold single. split.
    - intros [[Htwo [_ [plan Hall]]] Hun].
      split; [lia |]. split; [lia |]. exists plan. intros record Hr.
      apply Hall, list_elem_of_In, in_map, list_elem_of_In, Hr.
    - intros (Htwo & Hun & plan & Hall).
      split; [|lia]. split; [lia |]. split.
      + destruct (knownGames m); simpl in *; [lia | done].
      + exists plan. intros p Hp'.
        apply list_elem_of_In, in_map_iff in Hp' as (record & <- & Hr).
        apply Hall, list_elem_of_In, Hr. }
  destruct (_ && _ && _) eqn:Hb; simpl.
  - split; [|done]. split; [intros _; right; by apply Hdec | done].
  - split; [|by destruct m].
    split; [by left |]. intros [Hs|Hs]; [done |].
    apply Hdec in Hs. congruence.
Qed.

(** ** The opening recommended *)

Lemma openingTotals_from (current : GameRecord) (mapFileName : string)
    (l : list GameRecord) (t0 : OpeningTotals) :
  let r := fold_left
    (fun (t : OpeningTotals) record =>
       if sameMatchup current record then
         let win := record_getWin record in
         let name := record_getOpeningName record in
         let info := default (mkOpeningInfoType 0 0 0 0) (openingInfo t !! name) in
         mkOpeningTotals
           (if win then totalWins t + 1 else totalWins t)
           (totalGames t + 1)
           (<[name :=
                countGame (String.eqb (record_getMapName record) mapFileName)
                          win info]> (openingInfo t))
           (countGame
              (bool_decide (record_getExpectedEnemyPlan record
                            = record_getEnemyPlan record))
              win (planInfo t))
       else t)
    l t0 in
  totalWins t0 = sameWins (planInfo t0) + otherWins (planInfo t0) ->
  totalGames t0 = sameGames (planInfo t0) + otherGames (planInfo t0) ->
  totalWins r = sameWins (planInfo r) + otherWins (planInfo r)
  /\ totalGames r = sameGames (planInfo r) + otherGames (planInfo r).
Proof.
  revert t0. induction l as [|x l IH]; intros t0; cbn zeta; [done |].
  intros Hw Hg. cbn [fold_left].
  destruct (sameMatchup current x); [|by apply IH].
  apply IH; simpl; unfold countGame;
    destruct (bool_decide _), (record_getWin x); simpl; lia.
Qed.

(** X20. The totals of [considerOpenings] add up: its two assertions hold,
    whatever the game records are, and it recommends the opening that
    counters the expected enemy plan, and writes nothing else. *)
Theorem considerOpenings_recommends_the_counter mapFileName m :
  considerOpenings mapFileName m
  = Some (set_recommendedOpening
            (getOpeningForEnemyPlan (_expectedEnemyPlan m)) m).
Proof.
  unfold considerOpenings.
  destruct (openingTotals_from (_gameRecord m) mapFileName
              (_pastGameRecords m)
              (mkOpeningTotals 0 0 ∅ (mkOpeningInfoType 0 0 0 0)))
    as [Hw Hg]; [done | done |].
  cbn zeta in Hw, Hg. apply Z.eqb_eq in Hw, Hg. by rewrite Hw, Hg.
Qed.

(** ** The records written *)

Lemma write_all (l out : list GameRecord) :
  fold_left (fun outFile record => outFile ++ [record]) l out = out ++ l.
Proof.
  revert out. induction l as [|x l IH]; intros out; simpl.
  - by rewrite app_nil_r.
  - by rewrite IH, <- app_assoc.
Qed.

Lemma write_skipping (l out : list GameRecord) (n : Z) :
  snd (fold_left
         (fun (acc : Z * list GameRecord) record =>
            let '(nToSkip, outFile) := acc in
            if 0 <? nToSkip then (nToSkip - 1, outFile)
            else (nToSkip, outFile ++ [record]))
         l (n, out))
  = out ++ drop (Z.to_nat n) l.
Proof.
  revert out n. induction l as [|x l IH]; intros out n; simpl.
  - by rewrite drop_nil, app_nil_r.
  - destruct (Z.ltb_spec 0 n) as [Hpos|Hle].
    + rewrite IH. replace (Z.to_nat n) with (S (Z.to_nat (n - 1))) by lia.
      done.
    + rewrite IH. replace (Z.to_nat n) with 0%nat by lia.
      replace (Z.to_nat n) with 0%nat in * by lia.
      rewrite !drop_0. by rewrite <- app_assoc.
Qed.

(** X22. What [write] writes, when writing is configured, the file is good,
    the record limit is not negative and the past records are fewer than
    2^31 - 1: every past record, then the past records once more, all of them
    when they are fewer than the record limit and else only the last
    [MaxGameRecords - 1], then the record of this game. *)
Theorem write_writes_the_records_twice m :
  Config_IO_WriteOpponentModel = true ->
  0 <= Config_IO_MaxGameRecords ->
  Z.of_nat (length (_pastGameRecords m)) < 2 ^ 31 - 1 ->
  let size := Z.of_nat (length (_pastGameRecords m)) in
  let kept :=
    drop (Z.to_nat (size - Config_IO_MaxGameRecords + 1))
         (_pastGameRecords m) in
  write false m
  = _pastGameRecords m
    ++ (if size <? Config_IO_MaxGameRecords then _pastGameRecords m else kept)
    ++ [_gameRecord m]
  /\ (Config_IO_MaxGameRecords <= size ->
      Z.of_nat (length kept) = Z.max 0 (Config_IO_MaxGameRecords - 1)).
Proof.
  intros Hwrite Hmax Hsize size kept.
  pose proof (Nat2Z.is_nonneg (length (_pastGameRecords m))) as Hnn.
  assert (Hrange : forall z, - 2 ^ 31 <= z < 2 ^ 31 -> to_int z = z).
  { intros z Hz. unfold to_int. rewrite Z.mod_small; lia. }
  split.
  - unfold write. rewrite Hwrite. subst kept size.
    set (size := Z.of_nat (length (_pastGameRecords m))) in *.
    rewrite (Hrange size) by lia.
    rewrite write_all. simpl.
    destruct (Z.leb_spec Config_IO_MaxGameRecords size) as [Hfull|Hroom].
    + rewrite Hrange by lia.
      pose proof (write_skipping (_pastGameRecords m) (_pastGameRecords m)
                    (size - Config_IO_MaxGameRecords + 1)) as Hskip.
      destruct (fold_left _ _ _) as [n out]. simpl in Hskip. rewrite Hskip.
      destruct (Z.ltb_spec size Config_IO_MaxGameRecords); [lia |].
      by rewrite <- app_assoc.
    + pose proof (write_skipping (_pastGameRecords m) (_pastGameRecords m) 0)
        as Hskip.
      destruct (fold_left _ _ _) as [n out]. simpl in Hskip. rewrite Hskip.
      destruct (Z.ltb_spec size Config_IO_MaxGameRecords); [|lia].
      rewrite drop_0. by rewrite <- app_assoc.
  - intros Hfull. subst kept size. rewrite length_drop. lia.
Qed.

End OpponentModelFacts.

(** * The properties on concrete games *)

Section MoreScenarios.

#[local] Existing Instance BroodWar.

(** X2 on the high templar, whose type id is 67. *)
Lemma spellcaster_test_is_dead_witness :
  countsAsDefense true true Protoss_High_Templar = false.
Proof.
  destruct (spellcaster_test_is_dead true true Protoss_High_Templar)
    as (_ & _ & Hnone); [by vm_compute |].
  apply Hnone; reflexivity.
Defined.

(** X3 on the infantry when the enemy has taken the other base, for no
    squad. *)
Lemma attack_location_is_weakest_base_witness :
  exists base,
    getAttackLocation (expanded (infantry 1)) None
    = base_getPosition (expanded (infantry 1)) base
    /\ getBaseOwner (expanded (infantry 1)) base = Player_enemy.
Proof.
  destruct (attack_location_is_weakest_base (expanded (infantry 1)) None)
    as (base & Hloc & _ & Hown & _).
  - done.
  - exists 1%nat. split; [by vm_compute |]. split; [reflexivity | by vm_compute].
  - exists base. split; [exact Hloc | exact Hown].
Defined.


(** X9 on the second frame of the infantry. *)
Lemma frame_never_fails_witness :
  exists c', update (infantry 1) infantry_arrived = Some (tt, c').
Proof.
  destruct (frame_never_fails (infantry 1) infantry_arrived)
    as (c' & Hrun & _).
  - by vm_compute.
  - apply play_reachable.
  - exists c'. exact Hrun.
Defined.

(** X10 on the dragoon chasing a scout, when a zergling is in our base. *)
Lemma threat_disbands_scout_defense_witness :
  exists c' scoutDefense',
    updateScoutDefenseSquad (raiders 129 false)
      (play [Frame (scouted 1 ∅); Frame (scouted 121 {[50%nat]})])
    = Some (tt, c')
    /\ _squadData c' !! "ScoutDefense" = Some scoutDefense'
    /\ squad_units scoutDefense' = ∅.
Proof.
  destruct (threat_disbands_scout_defense
              (raiders 129 false)
              (play [Frame (scouted 1 ∅); Frame (scouted 121 {[50%nat]})])
              0%nat
              (squadOf (play [Frame (scouted 1 ∅);
                              Frame (scouted 121 {[50%nat]})])
                       "ScoutDefense")
              50%nat)
    as (c' & s' & Hrun & Hs & Hunits & _).
  - by vm_compute.
  - by vm_compute.
  - vm_compute. reflexivity.
  - reflexivity.
  - reflexivity.
  - by vm_compute.
  - by vm_compute.
  - by vm_compute.
  - left. reflexivity.
  - exists c', s'. split; [exact Hrun | split; [exact Hs | exact Hunits]].
Defined.

(** X11 on the shuttle and its four dark templars, none of them loaded. *)
Lemma complete_drop_squad_loads_up_witness :
  exists c',
    updateDropSquads (raiders 9 false) raiders_collecting = Some (tt, c')
    /\ order_type <$> dropOrder (_squadData c') = Some SquadOrder_Load.
Proof.
  destruct (complete_drop_squad_loads_up
              (raiders 9 false) raiders_collecting
              (squadOf raiders_collecting "Drop") 2%nat)
    as (transport & _ & _ & _ & Hrun).
  - vm_compute. reflexivity.
  - by vm_compute.
  - exists 1%nat. split; [by vm_compute |]. split; reflexivity.
  - vm_compute. reflexivity.
  - by vm_compute.
  - reflexivity.
  - reflexivity.
  - eexists. split; [exact Hrun |]. vm_compute. reflexivity.
Defined.

(** X12 on the infantry before their first allocation. *)
Lemma idle_policy_twice_witness :
  exists c',
    updateIdleSquad infantry_arrived = Some (tt, c')
    /\ updateIdleSquad c' = Some (tt, c').
Proof.
  destruct (idle_policy_twice infantry_arrived) as (c' & Hrun & _ & Hagain).
  - apply reachable_Ready; [apply play_reachable | by vm_compute].
  - exists c'. split; [exact Hrun | exact Hagain].
Defined.

(** X13 on the infantry, the posture aggressive as at the start. *)
Lemma aggressive_squads_attack_witness :
  exists c' ground,
    updateAttackSquads (infantry 1) infantry_arrived = Some (tt, c')
    /\ _squadData c' !! "Ground" = Some ground
    /\ order_type (squad_order ground) = SquadOrder_Attack.
Proof.
  destruct (aggressive_squads_attack (infantry 1) infantry_arrived)
    as (c' & ground & flying & Hrun & Hg & _ & Hog & _).
  - apply reachable_Ready; [apply play_reachable | by vm_compute].
  - reflexivity.
  - exists c', ground. split; [exact Hrun |]. split; [exact Hg |].
    rewrite Hog. reflexivity.
Defined.

(** X14 on the dragoon, the one fighter there is, asked for by the scout
    defense squad. *)
Lemma findClosestDefender_finds_the_nearest_witness :
  exists found,
    findClosestDefender (scouted 121 {[50%nat]}) "ScoutDefense"
      (mkPosition 96 96) false false dragoon_out
    = Some (found, dragoon_out).
Proof.
  destruct (findClosestDefender_finds_the_nearest
              (scouted 121 {[50%nat]}) dragoon_out "ScoutDefense"
              (squadOf dragoon_out "ScoutDefense") (mkPosition 96 96)
              false false)
    as (fighter & worker & _ & _ & Hrun).
  - vm_compute. reflexivity.
  - eexists. exact Hrun.
Defined.

(** X15 on the probe pulled against a zergling that is gone. *)
Lemma defense_squads_face_an_enemy_witness :
  exists c',
    updateBaseDefenseSquads (probes 9 {[1%nat]} ∅) probe_pulled
    = Some (tt, c')
    /\ forall name s,
         _squadData c' !! name = Some s ->
         faces_enemy (probes 9 {[1%nat]} ∅) s.
Proof.
  apply (defense_squads_face_an_enemy (probes 9 {[1%nat]} ∅) probe_pulled).
  - apply reachable_Ready; [apply play_reachable | by vm_compute].
  - by vm_compute.
Defined.

(** X16 on the infantry, whose weights sum to 30. *)
Lemma recon_squad_weight_bound_witness :
  exists c' recon,
    updateReconSquad (infantry 1) infantry_arrived = Some (tt, c')
    /\ _squadData c' !! "Recon" = Some recon
    /\ reconWeight (infantry 1) (in_order (squad_units recon)) <= 13.
Proof.
  destruct (recon_squad_weight_bound (infantry 1) infantry_arrived)
    as (c' & recon & Hrun & Hr & _ & Hle).
  - by intros [].
  - exists (squadOf infantry_arrived "Recon"). vm_compute. reflexivity.
  - exists c', recon. split; [exact Hrun | split; [exact Hr | exact Hle]].
Defined.

(** X17 on the shuttle and its four dark templars, which fill the 8
    spots. *)
Lemma drop_squad_is_never_overbooked_witness :
  exists c' drop',
    updateDropSquads (raiders 9 false) raiders_collecting = Some (tt, c')
    /\ _squadData c' !! "Drop" = Some drop'
    /\ 0 <= snd (fst (dropCensus (raiders 9 false)
                        (in_order (squad_units drop')))).
Proof.
  apply (drop_squad_is_never_overbooked
           (raiders 9 false) raiders_collecting
           (squadOf raiders_collecting "Drop")).
  - by intros [].
  - vm_compute. reflexivity.
  - by vm_compute.
Defined.

(** X18 on the probe pulled into the base defense squad. *)
Lemma attack_squads_leave_workers_alone_witness :
  exists c',
    updateAttackSquads (probes 9 {[1%nat]} ∅) probe_pulled = Some (tt, c')
    /\ forall name,
         squadContains (_squadData c') 1%nat name
         = squadContains (_squadData probe_pulled) 1%nat name.
Proof.
  apply (attack_squads_leave_workers_alone
           (probes 9 {[1%nat]} ∅) 1%nat probe_pulled).
  - apply reachable_Ready; [apply play_reachable | by vm_compute].
  - reflexivity.
  - reflexivity.
  - reflexivity.
  - reflexivity.
Defined.

End MoreScenarios.

Section RivalScenarios.

#[local] Existing Instance rival.

(** X22 on four past games with three records kept: the games 1 to 4, then
    the games 3 and 4 again, then the current game. *)
Lemma write_writes_the_records_twice_witness :
  write false rival_model
  = [1%nat; 2%nat; 3%nat; 4%nat; 3%nat; 4%nat; 5%nat].
Proof.
  destruct (write_writes_the_records_twice rival_model) as [Hwrite _].
  - reflexivity.
  - by vm_compute.
  - by vm_compute.
  - exact Hwrite.
Defined.

End RivalScenarios.
